(** * pulseaudio-dlna: the streaming server and the SSDP header helpers

    A shallow embedding of
      - [pulseaudio_dlna/plugins/dlna/ssdp/__init__.py]
        ([_get_header_map], [_get_device_id]) and
      - [pulseaudio_dlna/upnp/server.py]
        ([ProcessStream], [StreamManager], [StreamRequestHandler]),
    followed by the properties established about them.

    Conventions.
      - A Python [str] is a [string]; characters are the code points
        0..255 ([ascii]).  [str.strip], [str.lower] and the [re] module
        are modelled on that range.
      - A Python [dict] whose iteration order is observable is an
        insertion-ordered association list ([pydict]); the socket table
        and the stream registry, which are only looked up, are [gmap]s.
      - Methods that mutate [self] or talk to the operating system are
        computations in the monad [M]: they take a [State] and end in
        an [outcome] (normal return, a raised exception, or no return).
      - Whatever the operating system decides (whether a program can be
        spawned, what it prints, which sockets are ready, how many bytes
        a [send] takes) is read from an [Env] record. *)

From Stdlib Require Import ZArith Lia Bool Ascii String List.
From stdpp Require Import base option list gmap strings fin_maps.

Local Open Scope string_scope.
Local Open Scope list_scope.

(* ===================================================================== *)
(** * Part I.  Definitions                                                *)
(* ===================================================================== *)

(** ** Characters and the [str] methods used by the source *)

Definition newline : ascii := "010"%char.

Definition is_newline (c : ascii) : bool := Ascii.eqb c newline.

(** [str.isspace] on one character (code points below 256). *)
Definition isspace (c : ascii) : bool :=
  let n := nat_of_ascii c in
  (((9 <=? n) && (n <=? 13)) || ((28 <=? n) && (n <=? 32))
   || (n =? 133) || (n =? 160))%nat.

(** [str.lower] on one character (code points below 256). *)
Definition lower_char (c : ascii) : ascii :=
  let n := nat_of_ascii c in
  if (((65 <=? n) && (n <=? 90))
      || ((192 <=? n) && (n <=? 222) && negb (n =? 215)))%nat
  then ascii_of_nat (n + 32) else c.

Fixpoint lower (s : string) : string :=
  match s with
  | EmptyString => EmptyString
  | String c s' => String (lower_char c) (lower s')
  end.

Fixpoint lstrip (s : string) : string :=
  match s with
  | EmptyString => EmptyString
  | String c s' => if isspace c then lstrip s' else s
  end.

(** [rstrip]: a character is dropped when it is white space and
    everything after it has been dropped too. *)
Fixpoint rstrip (s : string) : string :=
  match s with
  | EmptyString => EmptyString
  | String c s' =>
      match rstrip s' with
      | EmptyString => if isspace c then EmptyString else String c EmptyString
      | t => String c t
      end
  end.

Definition strip (s : string) : string := rstrip (lstrip s).

(** [str.split(' ')]: split at every single space. *)
Fixpoint split_space (s : string) : list string :=
  match s with
  | EmptyString => [EmptyString]
  | String c s' =>
      if Ascii.eqb c " "%char then EmptyString :: split_space s'
      else match split_space s' with
           | w :: ws => String c w :: ws
           | [] => [String c EmptyString]
           end
  end.

(** ** The fragment of [re] used by the source

    The three patterns of the repository use literals, [.], the lazy
    and greedy stars over a single character, concatenation and
    numbered groups.  The matcher is the usual backtracking one, written
    as a list of successes in priority order: the head of the list is
    the match Python's engine reports. *)

Inductive atom : Type :=
| ALit (c : ascii)      (* a literal character *)
| ADot.                 (* [.]: anything but a newline *)

Inductive regex : Type :=
| Atom (a : atom)
| Cat (r1 r2 : regex)
| LazyStar (a : atom)           (* [a*?] *)
| GreedyStar (a : atom)         (* [a*]  *)
| Group (i : nat) (r : regex).  (* the i-th parenthesis *)

(** Captured groups, as (number, text). *)
Definition captures : Type := list (nat * string).

Fixpoint group (i : nat) (c : captures) : string :=
  match c with
  | [] => EmptyString          (* a group that took no part: [''] *)
  | (j, s) :: c' => if Nat.eqb i j then s else group i c'
  end.

Definition atom_ok (icase : bool) (a : atom) (ch : ascii) : bool :=
  match a with
  | ALit c => if icase then Ascii.eqb (lower_char c) (lower_char ch)
              else Ascii.eqb c ch
  | ADot => negb (is_newline ch)
  end.

(** All ways to take a run of characters satisfying [p] off the front of
    [s], shortest first: pairs (taken, rest). *)
Fixpoint star_splits (p : ascii -> bool) (s : string) : list (string * string) :=
  (EmptyString, s) ::
  match s with
  | EmptyString => []
  | String ch s' =>
      if p ch
      then map (fun mr => (String ch (fst mr), snd mr)) (star_splits p s')
      else []
  end.

(** One match: the text consumed, the groups captured, the text left. *)
Definition rmatch_result : Type := string * captures * string.

Fixpoint rmatch (icase : bool) (r : regex) (s : string) : list rmatch_result :=
  match r with
  | Atom a =>
      match s with
      | String ch s' =>
          if atom_ok icase a ch then [(String ch EmptyString, [], s')] else []
      | EmptyString => []
      end
  | Cat r1 r2 =>
      flat_map
        (fun m1 : rmatch_result =>
           map (fun m2 : rmatch_result =>
                  (String.append (fst (fst m1)) (fst (fst m2)),
                   snd (fst m1) ++ snd (fst m2),
                   snd m2))
               (rmatch icase r2 (snd m1)))
        (rmatch icase r1 s)
  | LazyStar a =>
      map (fun mr => (fst mr, [], snd mr)) (star_splits (atom_ok icase a) s)
  | GreedyStar a =>
      map (fun mr => (fst mr, [], snd mr)) (rev (star_splits (atom_ok icase a) s))
  | Group i r' =>
      map (fun m : rmatch_result => (fst (fst m), (i, fst (fst m)) :: snd (fst m), snd m))
          (rmatch icase r' s)
  end.

(** [re.match]-like attempt at the very start of [s]. *)
Definition match_here (icase : bool) (r : regex) (s : string) : option rmatch_result :=
  head (rmatch icase r s).

(** [re.search]: the leftmost position at which an attempt succeeds. *)
Fixpoint search (icase : bool) (r : regex) (s : string) : option rmatch_result :=
  match match_here icase r s with
  | Some m => Some m
  | None =>
      match s with
      | EmptyString => None
      | String _ s' => search icase r s'
      end
  end.

(** [re.findall]: successive non-overlapping matches, left to right.
    After an empty match the scan moves on by one character.  Every
    round shortens the text, so [S (length s)] rounds are enough. *)
Fixpoint findall_from (fuel : nat) (icase : bool) (r : regex) (s : string)
  : list captures :=
  match fuel with
  | O => []
  | S fuel' =>
      match search icase r s with
      | None => []
      | Some (consumed, caps, rest) =>
          caps ::
          match consumed, rest with
          | EmptyString, EmptyString => []
          | EmptyString, String _ rest' => findall_from fuel' icase r rest'
          | _, _ => findall_from fuel' icase r rest
          end
      end
  end.

Definition findall (icase : bool) (r : regex) (s : string) : list captures :=
  findall_from (S (String.length s)) icase r s.

(** A run of literal characters. *)
Fixpoint lits (s : string) (k : regex) : regex :=
  match s with
  | EmptyString => k
  | String c s' => Cat (Atom (ALit c)) (lits s' k)
  end.

(** ** Python dictionaries with observable order *)

Definition pydict (V : Type) : Type := list (string * V).

(** [d[k] = v]: an existing key keeps its place, a new one goes last. *)
Fixpoint dict_set {V} (k : string) (v : V) (d : pydict V) : pydict V :=
  match d with
  | [] => [(k, v)]
  | (k', v') :: d' =>
      if String.eqb k k' then (k, v) :: d' else (k', v') :: dict_set k v d'
  end.

Fixpoint dict_get {V} (k : string) (d : pydict V) : option V :=
  match d with
  | [] => None
  | (k', v') :: d' => if String.eqb k k' then Some v' else dict_get k d'
  end.

(** [dict(pairs)] and a dict comprehension both insert left to right. *)
Definition dict_of_pairs {V} (l : list (string * V)) : pydict V :=
  fold_left (fun d kv => dict_set (fst kv) (snd kv) d) l [].

(** ** [plugins/dlna/ssdp/__init__.py] *)

(** The pattern of [_get_header_map]: a lazy run named [name], a colon,
    a lazy run named [value], a newline. *)
Definition header_re : regex :=
  Cat (Group 1 (LazyStar ADot))
      (Cat (Atom (ALit ":"%char))
           (Cat (Group 2 (LazyStar ADot)) (Atom (ALit newline)))).

(** The pattern of [_get_device_id], used with [RegexFlag.IGNORECASE]:
    group 1 is the literal uuid: and a lazy run, then two colons, then
    group 2, a greedy run. *)
Definition usn_re : regex :=
  Cat (Group 1 (lits "uuid:" (LazyStar ADot)))
      (Cat (Atom (ALit ":"%char))
           (Cat (Atom (ALit ":"%char)) (Group 2 (GreedyStar ADot)))).

Definition _get_header_map (header : string) : pydict string :=
  let header := map (fun c => (group 1 c, group 2 c)) (findall false header_re header) in
  dict_of_pairs
    (map (fun kv => (lower (strip (fst kv)), strip (snd kv)))
         (dict_of_pairs header)).

Definition _get_device_id (header : pydict string) : option string :=
  match dict_get "usn" header with
  | Some usn =>
      match search true usn_re usn with
      | Some m => Some (group 1 (snd (fst m)))
      | None => None
      end
  | None => None
  end.

Definition usn_example : string :=
  String.append "USN: uuid:1234-5678::urn:schemas-upnp-org:device:MediaRenderer:1"
                (String newline EmptyString).


(** ** [upnp/server.py]: the data *)

(** Socket objects and [subprocess.Popen] objects, by identity. *)
Definition sock : Type := nat.
Definition pid : Type := nat.
Definition bytes : Type := list Byte.byte.

Record Encoder : Type := mkEncoder {
  enc_command : string;
  mime_type : string;
  suffix : string
}.

Record UpnpDevice : Type := mkUpnpDevice { short_name : string }.
Record Sink : Type := mkSink { monitor : string }.
Record Bridge : Type := mkBridge { sink : Sink; upnp_device : UpnpDevice }.

(** [pulseaudio_dlna.recorders.PulseaudioRecorder(monitor)].  The class
    is imported from another package; its [command] is read from the
    environment ([recorder_command] below). *)
Record Recorder : Type := mkRecorder { rec_monitor : string }.

Record RemoteDevice : Type := mkRemoteDevice {
  rd_bridge : Bridge;
  rd_ip : string;
  rd_port : Z + string
}.

(** A spawned program: whether it still runs ([poll() is None]) and what
    is left to read on its standard output. *)
Record Process : Type := mkProcess {
  running : bool;
  stdout : bytes
}.

Inductive log_msg : Type :=
| LogCouldNotGetSocket
| LogClientRegistered (client path : string)
| LogSameClientRegisters
| LogClientUnregistered (client path : string) (method : nat)
| LogStreamClosed
| LogNotRegistered
| LogProcessesInitialized (path : string)
| LogProcessesReinitialized (path : string)
| LogRequestedURL (path : string)
| LogError404 (path : string).

(** [UpdateThread]: the flag and the lock of the thread ([True] = locked). *)
Record UpdateThread : Type := mkUpdateThread {
  is_running : bool;
  th_lock : bool
}.

Record ProcessStream : Type := mkProcessStream {
  path : string;
  recorder : Recorder;
  encoder : Encoder;
  recorder_process : option pid;
  encoder_process : option pid;
  sockets : gmap sock RemoteDevice;
  chunk_size : Z;
  lock : bool;                       (* [True] = held *)
  client_count : Z;
  update_thread : UpdateThread
}.

(** What lives outside the object: the process table, what each socket
    has been handed by [send], which sockets were closed, the log. *)
Record World : Type := mkWorld {
  procs : gmap pid Process;
  received : gmap sock bytes;
  closed : gset sock;
  log : list log_msg
}.

Record State : Type := mkState {
  stream : ProcessStream;
  world : World
}.

Inductive send_answer : Type :=
| Sent (n : nat)        (* [send] took [n] bytes of the buffer *)
| SendFails.            (* [send] raises [socket.error] *)

Inductive recv_answer : Type :=
| Received (b : bytes)
| RecvFails.

(** The answers of the operating system and of the imported packages. *)
Record Env : Type := mkEnv {
  recorder_command : string -> string;
  can_spawn : list string -> bool;
  program_output : list string -> pid -> bytes;
  getsockname : sock -> option (string * Z);
  sock_bad : sock -> bool;             (* [select] raises on it *)
  readable : sock -> bool;
  writable : sock -> bool;
  send_result : sock -> bytes -> send_answer;
  recv_result : sock -> recv_answer
}.

(** ** The monad of methods *)

Inductive exn : Type :=
| SystemExit (code : Z)
| socket_error
| OSError
| AttributeError
| KeyError
| ThreadError.

Inductive outcome (A : Type) : Type :=
| Return (a : A) (st : State)
| Raise (e : exn) (st : State)
| Hang                 (* waits for a lock that is never released *)
| OutOfFuel.
Arguments Return {A} a st.
Arguments Raise {A} e st.
Arguments Hang {A}.
Arguments OutOfFuel {A}.

Definition M (A : Type) : Type := State -> outcome A.

Definition ret {A} (a : A) : M A := fun st => Return a st.

Definition bind {A B} (m : M A) (f : A -> M B) : M B :=
  fun st =>
    match m st with
    | Return a st' => f a st'
    | Raise e st' => Raise e st'
    | Hang => Hang
    | OutOfFuel => OutOfFuel
    end.

Declare Scope py_scope.
Delimit Scope py_scope with py.
Notation "x <- m ;; k" := (bind m (fun x => k))
  (at level 100, m at next level, k at level 200, right associativity) : py_scope.
Notation "m ;;; k" := (bind m (fun _ => k))
  (at level 100, k at level 200, right associativity) : py_scope.
Local Open Scope py_scope.

Definition raise {A} (e : exn) : M A := fun st => Raise e st.

Definition gets {A} (f : State -> A) : M A := fun st => Return (f st) st.

Definition modify (f : State -> State) : M unit := fun st => Return tt (f st).

(** [try: body finally: fin] *)
Definition try_finally {A} (body : M A) (fin : M unit) : M A :=
  fun st =>
    match body st with
    | Return a st' => (fin ;;; ret a) st'
    | Raise e st' => (fin ;;; raise e) st'
    | Hang => Hang
    | OutOfFuel => OutOfFuel
    end.

(** [try: body except socket.error: handler] *)
Definition except_socket_error {A} (body : M A) (handler : M A) : M A :=
  fun st =>
    match body st with
    | Raise socket_error st' => handler st'
    | o => o
    end.

(** [try: body except: pass] *)
Definition except_pass (body : M unit) : M unit :=
  fun st =>
    match body st with
    | Raise _ st' => Return tt st'
    | o => o
    end.

Fixpoint for_each {A} (l : list A) (body : A -> M unit) : M unit :=
  match l with
  | [] => ret tt
  | x :: l' => body x ;;; for_each l' body
  end.

Definition when (b : bool) (m : M unit) : M unit := if b then m else ret tt.

(** The state an outcome leaves behind, when the call came back. *)
Definition final_state {A} (o : outcome A) : option State :=
  match o with
  | Return _ st => Some st
  | Raise _ st => Some st
  | Hang => None
  | OutOfFuel => None
  end.

(** ** Field updates *)

Definition set_stream (f : ProcessStream -> ProcessStream) (st : State) : State :=
  mkState (f (stream st)) (world st).

Definition set_world (f : World -> World) (st : State) : State :=
  mkState (stream st) (f (world st)).

Definition with_recorder_process (v : option pid) (s : ProcessStream) : ProcessStream :=
  mkProcessStream (path s) (recorder s) (encoder s) v (encoder_process s)
    (sockets s) (chunk_size s) (lock s) (client_count s) (update_thread s).

Definition with_encoder_process (v : option pid) (s : ProcessStream) : ProcessStream :=
  mkProcessStream (path s) (recorder s) (encoder s) (recorder_process s) v
    (sockets s) (chunk_size s) (lock s) (client_count s) (update_thread s).

Definition with_sockets (v : gmap sock RemoteDevice) (s : ProcessStream) : ProcessStream :=
  mkProcessStream (path s) (recorder s) (encoder s) (recorder_process s)
    (encoder_process s) v (chunk_size s) (lock s) (client_count s) (update_thread s).

Definition with_lock (v : bool) (s : ProcessStream) : ProcessStream :=
  mkProcessStream (path s) (recorder s) (encoder s) (recorder_process s)
    (encoder_process s) (sockets s) (chunk_size s) v (client_count s) (update_thread s).

Definition with_client_count (v : Z) (s : ProcessStream) : ProcessStream :=
  mkProcessStream (path s) (recorder s) (encoder s) (recorder_process s)
    (encoder_process s) (sockets s) (chunk_size s) (lock s) v (update_thread s).

Definition with_update_thread (v : UpdateThread) (s : ProcessStream) : ProcessStream :=
  mkProcessStream (path s) (recorder s) (encoder s) (recorder_process s)
    (encoder_process s) (sockets s) (chunk_size s) (lock s) (client_count s) v.

Definition with_procs (v : gmap pid Process) (w : World) : World :=
  mkWorld v (received w) (closed w) (log w).

Definition with_received (v : gmap sock bytes) (w : World) : World :=
  mkWorld (procs w) v (closed w) (log w).

Definition with_closed (v : gset sock) (w : World) : World :=
  mkWorld (procs w) (received w) v (log w).

Definition with_log (v : list log_msg) (w : World) : World :=
  mkWorld (procs w) (received w) (closed w) v.

(** ** Primitives: logging, locks, sockets, processes *)

Definition logging_info (m : log_msg) : M unit :=
  modify (set_world (fun w => with_log (log w ++ [m]) w)).

Definition sys_exit {A} (code : Z) : M A := raise (SystemExit code).

(** [self.lock.acquire()] *)
Definition lock_acquire : M unit :=
  fun st => if lock (stream st) then Hang
            else Return tt (set_stream (with_lock true) st).

(** [self.lock.release()] *)
Definition lock_release : M unit :=
  fun st => if lock (stream st)
            then Return tt (set_stream (with_lock false) st)
            else Raise ThreadError st.

(** What a socket has been handed so far. *)
Definition delivered (w : World) (s : sock) : bytes :=
  default [] (received w !! s).

(** [sock.send(buf)]: the number of bytes taken. *)
Definition sock_send (env : Env) (s : sock) (buf : bytes) : M nat :=
  match send_result env s buf with
  | SendFails => raise socket_error
  | Sent n =>
      let k := Nat.min n (length buf) in
      modify (set_world (fun w =>
        with_received (<[s := delivered w s ++ take k buf]> (received w)) w)) ;;;
      ret k
  end.

(** [sock.recv(1024)] *)
Definition sock_recv (env : Env) (s : sock) : M bytes :=
  match recv_result env s with
  | RecvFails => raise socket_error
  | Received b => ret (take 1024 b)
  end.

(** [sock.close()] *)
Definition sock_close (s : sock) : M unit :=
  modify (set_world (fun w => with_closed ({[s]} ∪ closed w) w)).

(** [select.select(socks, socks, [], 0)]: the readable and the writable
    ones, in the order given. *)
Definition select (env : Env) (socks : list sock) : M (list sock * list sock) :=
  if existsb (sock_bad env) socks then raise socket_error
  else ret (filter (fun s => readable env s = true) socks,
            filter (fun s => writable env s = true) socks).

(** [select.select([sock], [], [], 0)] *)
Definition select_one (env : Env) (s : sock) : M unit :=
  if sock_bad env s then raise socket_error else ret tt.

(** [subprocess.Popen(argv, ...)]: a new process object. *)
Definition Popen (env : Env) (argv : list string) : M pid :=
  if can_spawn env argv then
    fun st =>
      let p := fresh (dom (procs (world st))) in
      Return p (set_world (fun w =>
        with_procs (<[p := mkProcess true (program_output env argv p)]> (procs w)) w) st)
  else raise OSError.

(** [process.poll() is None] *)
Definition poll_is_None (h : option pid) : M bool :=
  match h with
  | None => raise AttributeError
  | Some p => gets (fun st => match procs (world st) !! p with
                              | Some pr => running pr
                              | None => false
                              end)
  end.

(** [process.kill()] *)
Definition kill (h : option pid) : M unit :=
  match h with
  | None => raise AttributeError
  | Some p =>
      fun st =>
        match procs (world st) !! p with
        | Some pr =>
            if running pr
            then Return tt (set_world (fun w =>
                   with_procs (<[p := mkProcess false (stdout pr)]> (procs w)) w) st)
            else Raise OSError st
        | None => Raise OSError st
        end
  end.

(** [process.stdout.read(n)] *)
Definition stdout_read (h : option pid) (n : Z) : M bytes :=
  match h with
  | None => raise AttributeError
  | Some p =>
      fun st =>
        match procs (world st) !! p with
        | Some pr =>
            Return (take (Z.to_nat n) (stdout pr))
              (set_world (fun w =>
                 with_procs (<[p := mkProcess (running pr) (drop (Z.to_nat n) (stdout pr))]>
                               (procs w)) w) st)
        | None => Return [] st
        end
  end.

(** ** [RemoteDevice] and [UpdateThread] *)

(** [RemoteDevice.__init__] *)
Definition new_RemoteDevice (env : Env) (bridge : Bridge) (s : sock) : M RemoteDevice :=
  match getsockname env s with
  | Some (ip, port) => ret (mkRemoteDevice bridge ip (inl port))
  | None =>
      logging_info LogCouldNotGetSocket ;;;
      ret (mkRemoteDevice bridge "unknown" (inr "unknown"))
  end.

(** [UpdateThread.__init__]: running, its lock taken. *)
Definition new_UpdateThread : UpdateThread := mkUpdateThread true true.

(** [UpdateThread.pause] *)
Definition pause : M unit :=
  modify (set_stream (fun s =>
    with_update_thread (mkUpdateThread false (th_lock (update_thread s))) s)).

(** [UpdateThread.resume] *)
Definition resume : M unit :=
  active <- gets (fun st => is_running (update_thread (stream st))) ;;
  if active then ret tt
  else
    modify (set_stream (fun s =>
      with_update_thread (mkUpdateThread true (th_lock (update_thread s))) s)) ;;;
    locked <- gets (fun st => th_lock (update_thread (stream st))) ;;
    if locked
    then modify (set_stream (fun s =>
           with_update_thread (mkUpdateThread (is_running (update_thread s)) false) s))
    else raise ThreadError.

(** ** [ProcessStream] *)

(** [ProcessStream.__init__] *)
Definition new_ProcessStream (path : string) (recorder : Recorder) (encoder : Encoder)
  : ProcessStream :=
  {| path := path;
     recorder := recorder;
     encoder := encoder;
     recorder_process := None;
     encoder_process := None;
     sockets := ∅;
     chunk_size := 1024 * 8;
     lock := false;
     client_count := 0;
     update_thread := new_UpdateThread |}.

Definition _kill_process (process : option pid) : M unit :=
  except_pass (kill process).

Definition cleanup : M unit :=
  e <- gets (fun st => encoder_process (stream st)) ;;
  _kill_process e ;;;
  r <- gets (fun st => recorder_process (stream st)) ;;
  _kill_process r.

Definition create_processes (env : Env) : M unit :=
  rec <- gets (fun st => recorder (stream st)) ;;
  p <- Popen env (split_space (recorder_command env (rec_monitor rec))) ;;
  modify (set_stream (with_recorder_process (Some p))) ;;;
  enc <- gets (fun st => encoder (stream st)) ;;
  q <- Popen env (split_space (enc_command enc)) ;;
  modify (set_stream (with_encoder_process (Some q))).

Definition do_processes_exist : M bool :=
  gets (fun st => bool_decide (encoder_process (stream st) ≠ None)
                  && bool_decide (recorder_process (stream st) ≠ None)).

Definition do_processes_respond : M bool :=
  r <- gets (fun st => recorder_process (stream st)) ;;
  rec_alive <- poll_is_None r ;;
  if rec_alive
  then e <- gets (fun st => encoder_process (stream st)) ;; poll_is_None e
  else ret false.

(** The [while] loop of [_send_data]; [fuel] bounds its rounds. *)
Fixpoint _send_data_loop (fuel : nat) (env : Env) (s : sock) (bytes : bytes)
    (bytes_sent : nat) : M unit :=
  if (bytes_sent <? length bytes)%nat then
    match fuel with
    | O => fun _ => OutOfFuel
    | S fuel' =>
        n <- sock_send env s (drop bytes_sent bytes) ;;
        _send_data_loop fuel' env s bytes (bytes_sent + n)
    end
  else ret tt.

Definition _send_data (fuel : nat) (env : Env) (s : sock) (bytes : bytes) : M unit :=
  _send_data_loop fuel env s bytes 0.

Definition register (env : Env) (bridge : Bridge) (s : sock) (lock_override : bool)
  : M unit :=
  tracked <- gets (fun st => bool_decide (is_Some (sockets (stream st) !! s))) ;;
  if negb tracked then
    try_finally
      (when (negb lock_override) lock_acquire ;;;
       device <- new_RemoteDevice env bridge s ;;
       p <- gets (fun st => path (stream st)) ;;
       logging_info (LogClientRegistered (rd_ip device) p) ;;;
       modify (set_stream (fun ps => with_sockets (<[s := device]> (sockets ps)) ps)) ;;;
       modify (set_stream (fun ps => with_client_count (client_count ps + 1) ps)) ;;;
       resume)
      (when (negb lock_override) lock_release)
  else
    logging_info LogSameClientRegisters ;;;
    sys_exit 2.

Definition unregister (s : sock) (lock_override : bool) (method : nat) : M unit :=
  entry <- gets (fun st => sockets (stream st) !! s) ;;
  match entry with
  | Some _ =>
      try_finally
        (when (negb lock_override) lock_acquire ;;;
         entry <- gets (fun st => sockets (stream st) !! s) ;;
         match entry with
         | Some device =>
             p <- gets (fun st => path (stream st)) ;;
             logging_info (LogClientUnregistered (rd_ip device) p method) ;;;
             modify (set_stream (fun ps => with_sockets (delete s (sockets ps)) ps)) ;;;
             sock_close s ;;;
             modify (set_stream (fun ps => with_client_count (client_count ps - 1) ps)) ;;;
             n <- gets (fun st => size (sockets (stream st))) ;;
             when (n =? 0)%nat
               (logging_info LogStreamClosed ;;;
                pause ;;;
                cleanup)
         | None => raise KeyError            (* self.sockets[sock] *)
         end)
        (when (negb lock_override) lock_release)
  | None =>
      logging_info LogNotRegistered ;;;
      sys_exit 2
  end.

(** The loop over [w]. *)
Definition send_to_writable (fuel : nat) (env : Env) (w : list sock) (data : bytes)
  : M unit :=
  for_each w (fun s =>
    except_socket_error (_send_data fuel env s data) (unregister s true 2)).

(** The loop over [r]. *)
Definition recv_from_readable (env : Env) (r : list sock) : M unit :=
  for_each r (fun s =>
    tracked <- gets (fun st => bool_decide (is_Some (sockets (stream st) !! s))) ;;
    when tracked
      (except_socket_error
         (b <- sock_recv env s ;;
          when (length b =? 0)%nat (unregister s true 3))
         (unregister s true 4))).

(** The loop of the [except socket.error] branch of the first [select]. *)
Definition drop_bad_sockets (env : Env) (socks : list sock) : M unit :=
  for_each socks (fun s =>
    except_socket_error (select_one env s) (unregister s true 1)).

(** [self.sockets.keys()] *)
Definition keys (m : gmap sock RemoteDevice) : list sock := (map_to_list m).*1.

Definition communicate (fuel : nat) (env : Env) : M unit :=
  try_finally
    (lock_acquire ;;;
     exist <- do_processes_exist ;;
     when (negb exist)
       (create_processes env ;;;
        p <- gets (fun st => path (stream st)) ;;
        logging_info (LogProcessesInitialized p)) ;;;
     respond <- do_processes_respond ;;
     when (negb respond)
       (cleanup ;;;
        create_processes env ;;;
        p <- gets (fun st => path (stream st)) ;;
        logging_info (LogProcessesReinitialized p)) ;;;
     e <- gets (fun st => encoder_process (stream st)) ;;
     n <- gets (fun st => chunk_size (stream st)) ;;
     data <- stdout_read e n ;;
     socks <- gets (fun st => keys (sockets (stream st))) ;;
     rw <- except_socket_error
             (rw <- select env socks ;; ret (Some rw))
             (drop_bad_sockets env socks ;;; ret None) ;;
     match rw with
     | None => ret tt                       (* [return] in the handler *)
     | Some (r, w) =>
         send_to_writable fuel env w data ;;;
         recv_from_readable env r
     end)
    lock_release.

(** [ProcessStream.shutdown], the [atexit] hook: what it does to the
    sockets (the line it logs first is not kept). *)
Definition shutdown : M unit :=
  socks <- gets (fun st => keys (sockets (stream st))) ;;
  for_each socks sock_close.

(** One round of [UpdateThread.run]: wait on the lock when paused,
    otherwise tick. *)
Definition UpdateThread_run_once (fuel : nat) (env : Env) : M unit :=
  active <- gets (fun st => is_running (update_thread (stream st))) ;;
  if active then communicate fuel env
  else
    fun st =>
      if th_lock (update_thread (stream st)) then Hang
      else Return tt (set_stream (fun s =>
             with_update_thread (mkUpdateThread (is_running (update_thread s)) true) s) st).

(** ** [StreamManager] *)

(** The manager keeps references to stream objects; the objects live in
    a heap, so that two lookups can be told to give the same object. *)
Definition ref : Type := nat.

Record StreamManager : Type := mkStreamManager {
  streams : gmap string ref;
  heap : gmap ref ProcessStream
}.

(** [StreamManager.__init__] *)
Definition new_StreamManager : StreamManager := mkStreamManager ∅ ∅.

Definition get_stream (path : string) (bridge : Bridge) (encoder : Encoder)
    (sm : StreamManager) : ref * StreamManager :=
  match streams sm !! path with
  | None =>
      let recorder := mkRecorder (monitor (sink bridge)) in
      let stream := fresh (dom (heap sm)) in
      (stream,
       mkStreamManager (<[path := stream]> (streams sm))
         (<[stream := new_ProcessStream path recorder encoder]> (heap sm)))
  | Some stream => (stream, sm)
  end.

(** ** [StreamServer] and [StreamRequestHandler] *)

Record StreamServer : Type := mkStreamServer {
  srv_ip : string;
  srv_port : Z;
  bridges : list Bridge;
  encoders : list Encoder
}.

(** The pattern of [chop_request_path]: a slash, group 1 a lazy run, a
    dot, group 2 a greedy run. *)
Definition path_re : regex :=
  Cat (Atom (ALit "/"%char))
      (Cat (Group 1 (LazyStar ADot))
           (Cat (Atom (ALit "."%char)) (Group 2 (GreedyStar ADot)))).

(** A [for x in l: if p x: choosen = x; break] loop: the value chosen
    and the loop variable as the loop leaves it ([None]: never bound). *)
Fixpoint for_break {A} (p : A -> bool) (l : list A) (var : option A)
  : option A * option A :=
  match l with
  | [] => (None, var)
  | x :: l' => if p x then (Some x, Some x) else for_break p l' (Some x)
  end.

Inductive http_event : Type :=
| send_response (code : Z)
| send_header (keyword value : string)
| end_headers
| send_error (code : Z) (message : string).

(** [chop_request_path].  The result is the pair the method returns;
    the outer [None] stands for the [NameError] of returning a loop
    variable that was never bound. *)
Definition chop_request_path (server : StreamServer) (path : string)
  : option (option Bridge * option Encoder) :=
  match findall false path_re path with
  | [] => Some (None, None)                      (* IndexError, caught *)
  | m :: _ =>
      let short_name' := group 1 m in
      let suffix' := group 2 m in
      let '(choosen_encoder, encoder) :=
        for_break (fun e => String.eqb (suffix e) suffix') (encoders server) None in
      let '(choosen_bridge, bridge) :=
        for_break (fun b => String.eqb short_name' (short_name (upnp_device b))) (bridges server) None in
      match choosen_bridge, choosen_encoder with
      | Some _, Some _ =>
          match bridge, encoder with
          | Some b, Some e => Some (Some b, Some e)
          | _, _ => None
          end
      | _, _ => Some (None, None)
      end
  end.

(** What a handler call leaves behind: what it wrote to the client, what
    it logged, and its return value. *)
Record handled (A : Type) : Type := mkHandled {
  wfile : list http_event;
  handler_log : list log_msg;
  returned : A
}.
Arguments mkHandled {A} wfile handler_log returned.
Arguments wfile {A} h.
Arguments handler_log {A} h.
Arguments returned {A} h.

(** [handle_headers]; [None] is the [NameError] of [chop_request_path]. *)
Definition handle_headers (server : StreamServer) (path : string)
  : option (handled (option Bridge * option Encoder)) :=
  match chop_request_path server path with
  | None => None
  | Some (Some bridge, Some encoder) =>
      Some (mkHandled
              [send_response 200;
               send_header "Content-Type" (mime_type encoder);
               end_headers]
              [LogRequestedURL path]
              (Some bridge, Some encoder))
  | Some _ =>
      Some (mkHandled
              [send_error 404 (String.append "File not found: " path)]
              [LogRequestedURL path; LogError404 path]
              (None, None))
  end.

Definition do_HEAD (server : StreamServer) (path : string)
  : option (handled unit) :=
  match handle_headers server path with
  | Some h => Some (mkHandled (wfile h) (handler_log h) tt)
  | None => None
  end.

(** The server with its registry and the world around it. *)
Record ServerState : Type := mkServerState {
  stream_manager : StreamManager;
  os : World
}.

(** Run a method on the stream object behind a reference, and store the
    object back. *)
Definition on_stream {A} (r : ref) (m : M A) (ss : ServerState)
  : option (outcome A * ServerState) :=
  match heap (stream_manager ss) !! r with
  | None => None
  | Some ps =>
      let o := m (mkState ps (os ss)) in
      Some (o,
            match final_state o with
            | Some st =>
                mkServerState
                  (mkStreamManager (streams (stream_manager ss))
                     (<[r := stream st]> (heap (stream_manager ss))))
                  (world st)
            | None => ss
            end)
  end.

(** [do_GET] up to the registration; what follows,
    [keep_connection_alive], only polls the socket of the request.  The
    result pairs the response with the outcome of [register], when the
    request got that far. *)
Definition do_GET (env : Env) (server : StreamServer) (path : string)
    (request : sock) (ss : ServerState)
  : option (handled (option (outcome unit)) * ServerState) :=
  match handle_headers server path with
  | None => None
  | Some h =>
      match returned h with
      | (Some bridge, Some encoder) =>
          let '(r, sm) := get_stream path bridge encoder (stream_manager ss) in
          match on_stream r (register env bridge request false)
                  (mkServerState sm (os ss)) with
          | Some (o, ss') =>
              Some (mkHandled (wfile h) (handler_log h) (Some o), ss')
          | None => None
          end
      | _ => Some (mkHandled (wfile h) (handler_log h) None, ss)
      end
  end.

(** The status line and a header of a response. *)
Definition status (out : list http_event) : option Z :=
  match out with
  | send_response code :: _ => Some code
  | send_error code _ :: _ => Some code
  | _ => None
  end.

Fixpoint header_value (keyword : string) (out : list http_event) : option string :=
  match out with
  | [] => None
  | send_header k v :: out' =>
      if String.eqb k keyword then Some v else header_value keyword out'
  | _ :: out' => header_value keyword out'
  end.

(** ** The life of one stream object

    A stream object starts as [new_ProcessStream] builds it.  From then
    on its methods are called from request threads, its update thread
    runs, and programs it spawned may exit on their own. *)

Definition initial_state (path : string) (recorder : Recorder) (encoder : Encoder)
    (w : World) : State :=
  mkState (new_ProcessStream path recorder encoder) w.

(** The program behind [p] exits by itself. *)
Definition process_exits (p : pid) (st : State) : State :=
  set_world (fun w =>
    with_procs (match procs w !! p with
                | Some pr => <[p := mkProcess false (stdout pr)]> (procs w)
                | None => procs w
                end) w) st.

Inductive step : State -> State -> Prop :=
| step_register env bridge s st st' :
    final_state (register env bridge s false st) = Some st' -> step st st'
| step_unregister s method st st' :
    final_state (unregister s false method st) = Some st' -> step st st'
| step_update_thread fuel env st st' :
    final_state (UpdateThread_run_once fuel env st) = Some st' -> step st st'
| step_process_exits p st :
    step st (process_exits p st).

Inductive reachable : State -> Prop :=
| reachable_init path recorder encoder w :
    reachable (initial_state path recorder encoder w)
| reachable_step st st' :
    reachable st -> step st st' -> reachable st'.

(** A process handle refers to a program that is still running. *)
Definition alive (ps : gmap pid Process) (h : option pid) : bool :=
  match h with
  | Some p => match ps !! p with
              | Some pr => running pr
              | None => false
              end
  | None => false
  end.

Definition handle_alive (st : State) (h : option pid) : bool :=
  alive (procs (world st)) h.

(** ** Notions used to state the properties *)

(** Does the character occur in the text? *)
Fixpoint has_char (c : ascii) (s : string) : bool :=
  match s with
  | EmptyString => false
  | String ch s' => Ascii.eqb ch c || has_char c s'
  end.

(** The first line of a text and what follows its newline; [None] when
    the text has no newline. *)
Fixpoint cut_line (s : string) : option (string * string) :=
  match s with
  | EmptyString => None
  | String c s' =>
      if is_newline c then Some (EmptyString, s')
      else match cut_line s' with
           | Some (l, rest) => Some (String c l, rest)
           | None => None
           end
  end.

(** A text split at its first occurrence of [c]. *)
Fixpoint cut_at (c : ascii) (s : string) : option (string * string) :=
  match s with
  | EmptyString => None
  | String ch s' =>
      if Ascii.eqb ch c then Some (EmptyString, s')
      else match cut_at c s' with
           | Some (l, rest) => Some (String ch l, rest)
           | None => None
           end
  end.

(** Ways to grow a match by one character in front. *)
Definition prefix_char (c : ascii) (m : rmatch_result) : rmatch_result :=
  (String c (fst (fst m)), snd (fst m), snd m).

(** ... when the character also joins the group captured first. *)
Definition extend_first (c : ascii) (m : rmatch_result) : rmatch_result :=
  (String c (fst (fst m)),
   match snd (fst m) with
   | (j, n) :: t => (j, String c n) :: t
   | [] => []
   end,
   snd m).

(** A match that starts with group [i] capturing nothing. *)
Definition open_group (i : nat) (m : rmatch_result) : rmatch_result :=
  (fst (fst m), (i, EmptyString) :: snd (fst m), snd m).

(** What an attempt of the header pattern at the start of a text comes
    to: the name runs to a colon that is followed, on the same line, by
    a newline; the value is what lies between them.  Gives (name, value,
    text after the newline). *)
Fixpoint header_line (s : string) : option (string * string * string) :=
  match s with
  | EmptyString => None
  | String c s' =>
      match (if Ascii.eqb ":"%char c then cut_line s' else None) with
      | Some (v, rest) => Some (EmptyString, v, rest)
      | None =>
          if is_newline c then None
          else match header_line s' with
               | Some (n, v, rest) => Some (String c n, v, rest)
               | None => None
               end
      end
  end.

(** The match object for a header line. *)
Definition header_match (n v rest : string) : rmatch_result :=
  (String.append n (String ":"%char (String.append v (String newline EmptyString))),
   [(1, n); (2, v)], rest).

(** The shape the pattern of [_get_device_id] looks for in a text:
    somewhere in it the letters uuid: in any case, then a run [id]
    within the line, then two colons.  [d] is the text from the letters
    to the end of [id]. *)
Definition usn_shape (v d : string) : Prop :=
  exists pre u id rest : string,
    v = String.append pre (String.append u (String.append id (String.append "::" rest)))
    /\ lower u = "uuid:"
    /\ has_char newline id = false
    /\ d = String.append u id.

(** Follows the words of the specification: the value matches the
    pattern uuid:<id>::<rest>, case-insensitively. *)
Definition matches_uuid_pattern (v : string) : Prop := exists d, usn_shape v d.

(** The request methods served and the response each writes. *)
Inductive http_method : Type := HEAD | GET.

Definition response (method : http_method) (env : Env) (server : StreamServer)
    (path : string) (request : sock) (ss : ServerState) : option (list http_event) :=
  match method with
  | HEAD => option_map wfile (do_HEAD server path)
  | GET => option_map (fun hs => wfile (fst hs)) (do_GET env server path request ss)
  end.

(** Every reference the registry hands out points to a stream object. *)
Definition registry_ok (sm : StreamManager) : Prop :=
  forall (p : string) (r : ref), streams sm !! p = Some r -> is_Some (heap sm !! r).

(** The request path made of a device name and an encoder suffix. *)
Definition stream_path (name suffix' : string) : string :=
  String "/"%char (String.append name (String "."%char suffix')).

(** The first device of the list with the given short name, and the
    first encoder with the given suffix. *)
Definition first_bridge (name : string) (l : list Bridge) : option Bridge :=
  find (fun b => String.eqb name (short_name (upnp_device b))) l.

Definition first_encoder (suffix' : string) (l : list Encoder) : option Encoder :=
  find (fun e => String.eqb (suffix e) suffix') l.

(** A series of [get_stream] calls, one after the other. *)
Definition get_streams (calls : list (string * Bridge * Encoder)) (sm : StreamManager)
  : StreamManager :=
  fold_left (fun sm c => snd (get_stream (fst (fst c)) (snd (fst c)) (snd c) sm)) calls sm.

(** A few concrete values, used in examples. *)
Definition example_bridge : Bridge := mkBridge (mkSink "dlna.monitor") (mkUpnpDevice "livingroom").
Definition dotted_bridge : Bridge := mkBridge (mkSink "dlna.monitor") (mkUpnpDevice "living.room").
Definition example_encoder : Encoder := mkEncoder "lame -b 192 -r -" "audio/mpeg" "mp3".
Definition example_server : StreamServer :=
  mkStreamServer "192.168.1.2" 8080 [example_bridge] [example_encoder].
Definition dotted_server : StreamServer :=
  mkStreamServer "192.168.1.2" 8080 [dotted_bridge] [example_encoder].
Definition empty_world : World := mkWorld ∅ ∅ ∅ [].
Definition example_env : Env :=
  {| recorder_command := fun m => String.append "parec --format=s16le -d " m;
     can_spawn := fun _ => true;
     program_output := fun _ p => repeat Byte.x61 (3 + p);
     getsockname := fun _ => Some ("192.168.1.2", 8080%Z);
     sock_bad := fun _ => false;
     readable := fun s => Nat.eqb s 7;
     writable := fun s => negb (Nat.eqb s 9);
     send_result := fun s _ => if Nat.eqb s 5 then SendFails else Sent 2;
     recv_result := fun _ => Received [] |}.

(** An outcome that asks the interpreter to exit ([sys.exit]). *)
Definition asks_to_exit {A} (o : outcome A) : Prop :=
  match o with
  | Raise (SystemExit _) _ => True
  | _ => False
  end.

(** The count of clients agrees with the socket table. *)
Definition count_inv (st : State) : Prop :=
  client_count (stream st) = Z.of_nat (size (sockets (stream st))).

(** Calls of the two public methods, as a request thread makes them. *)
Inductive call : Type :=
| call_register (env : Env) (bridge : Bridge) (s : sock)
| call_unregister (s : sock) (method : nat).

Definition run_call (c : call) (st : State) : outcome unit :=
  match c with
  | call_register env bridge s => register env bridge s false st
  | call_unregister s method => unregister s false method st
  end.

(** The state after a series of calls; a call that does not come back
    leaves the state where it was. *)
Definition run_calls (cs : list call) (st : State) : State :=
  fold_left (fun st c => default st (final_state (run_call c st))) cs st.

Definition add_log (m : log_msg) (st : State) : State :=
  set_world (fun w => with_log (log w ++ [m]) w) st.

(** A stream with the sockets 3, 5, 7 and 9 registered. *)
Definition four_clients : State :=
  run_calls [call_register example_env example_bridge 3;
             call_register example_env example_bridge 5;
             call_register example_env example_bridge 7;
             call_register example_env example_bridge 9]
    (initial_state "/livingroom.mp3" (mkRecorder "dlna.monitor") example_encoder
       empty_world).

(** The process table after [kill] on a handle, whatever [kill] raised. *)
Definition kill_handle (h : option pid) (ps : gmap pid Process) : gmap pid Process :=
  match h with
  | Some p =>
      match ps !! p with
      | Some pr => if running pr then <[p := mkProcess false (stdout pr)]> ps else ps
      | None => ps
      end
  | None => ps
  end.

(** The device object [register] builds for a socket. *)
Definition device_of (env : Env) (bridge : Bridge) (s : sock) : RemoteDevice :=
  match getsockname env s with
  | Some (ip, port) => mkRemoteDevice bridge ip (inl port)
  | None => mkRemoteDevice bridge "unknown" (inr "unknown")
  end.

(** The state [register] leaves for a socket not yet in the table. *)
Definition registered (env : Env) (bridge : Bridge) (s : sock) (st : State) : State :=
  let ps := stream st in
  let w := world st in
  let device := device_of env bridge s in
  mkState
    (mkProcessStream (path ps) (recorder ps) (encoder ps)
       (recorder_process ps) (encoder_process ps)
       (<[s := device]> (sockets ps)) (chunk_size ps) (lock ps)
       (client_count ps + 1)
       (if is_running (update_thread ps) then update_thread ps
        else mkUpdateThread true false))
    (mkWorld (procs w) (received w) (closed w)
       (log w
        ++ match getsockname env s with
           | Some _ => []
           | None => [LogCouldNotGetSocket]
           end
        ++ [LogClientRegistered (rd_ip device) (path ps)])).

(** The state [unregister] leaves for a socket of the table. *)
Definition unregistered (s : sock) (device : RemoteDevice) (method : nat) (st : State)
  : State :=
  let ps := stream st in
  let w := world st in
  let last := (size (delete s (sockets ps)) =? 0)%nat in
  mkState
    (mkProcessStream (path ps) (recorder ps) (encoder ps)
       (recorder_process ps) (encoder_process ps)
       (delete s (sockets ps)) (chunk_size ps) (lock ps)
       (client_count ps - 1)
       (if last then mkUpdateThread false (th_lock (update_thread ps))
        else update_thread ps))
    (mkWorld
       (if last
        then kill_handle (recorder_process ps) (kill_handle (encoder_process ps) (procs w))
        else procs w)
       (received w)
       ({[s]} ∪ closed w)
       (log w ++ [LogClientUnregistered (rd_ip device) (path ps) method]
        ++ if last then [LogStreamClosed] else [])).

(** ** Assertions about methods *)

(** A condition on outcomes: [Qr] for a return, [Qx] for an exception,
    [Qd] for a call that does not come back. *)
Definition post {A} (Qr : A -> State -> Prop) (Qx : exn -> State -> Prop) (Qd : Prop)
    (o : outcome A) : Prop :=
  match o with
  | Return a st => Qr a st
  | Raise e st => Qx e st
  | Hang => Qd
  | OutOfFuel => Qd
  end.

Definition triple {A} (P : State -> Prop) (m : M A)
    (Qr : A -> State -> Prop) (Qx : exn -> State -> Prop) (Qd : Prop) : Prop :=
  forall st, P st -> post Qr Qx Qd (m st).

(** [m] keeps the invariant [I], however it comes back. *)
Definition keeps {A} (I : State -> Prop) (m : M A) : Prop :=
  triple I m (fun _ => I) (fun _ => I) True.


(** What is left to read from a process. *)
Definition unread (st : State) (p : pid) : option bytes :=
  stdout <$> procs (world st) !! p.


(** An entry of the process table is as it was, or the process has
    stopped with its output kept. *)
Definition quieter (o o' : option Process) : Prop :=
  o' = o \/ exists pr, o = Some pr /\ o' = Some (mkProcess false (stdout pr)).


(** ** The parts of a tick *)

(** From the check of the processes to the read of the chunk, with what
    follows as [k]. *)
Definition tick_head_then {A} (env : Env) (k : bytes -> M A) : M A :=
  exist <- do_processes_exist ;;
  when (negb exist)
    (create_processes env ;;;
     p <- gets (fun st => path (stream st)) ;;
     logging_info (LogProcessesInitialized p)) ;;;
  respond <- do_processes_respond ;;
  when (negb respond)
    (cleanup ;;;
     create_processes env ;;;
     p <- gets (fun st => path (stream st)) ;;
     logging_info (LogProcessesReinitialized p)) ;;;
  e <- gets (fun st => encoder_process (stream st)) ;;
  n <- gets (fun st => chunk_size (stream st)) ;;
  data <- stdout_read e n ;;
  k data.

(** The chunk a tick reads. *)
Definition tick_head (env : Env) : M bytes := tick_head_then env ret.

(** From [select] to the end of the two loops. *)
Definition tick_tail (fuel : nat) (env : Env) (data : bytes) : M unit :=
  socks <- gets (fun st => keys (sockets (stream st))) ;;
  rw <- except_socket_error
          (rw <- select env socks ;; ret (Some rw))
          (drop_bad_sockets env socks ;;; ret None) ;;
  match rw with
  | None => ret tt
  | Some (r, w) =>
      send_to_writable fuel env w data ;;;
      recv_from_readable env r
  end.

(** ** Updates of the state made by the methods *)

(** A new process enters the table. *)
Definition spawned (env : Env) (argv : list string) (st : State) : State :=
  set_world (fun w =>
    with_procs (<[fresh (dom (procs w)) :=
                    mkProcess true (program_output env argv (fresh (dom (procs w))))]>
                  (procs w)) w) st.

Definition new_pid (st : State) : pid := fresh (dom (procs (world st))).

Definition killed (h : option pid) (st : State) : State :=
  set_world (fun w => with_procs (kill_handle h (procs w)) w) st.

(** [n] bytes are taken from the output of [p]. *)
Definition consumed (p : pid) (n : Z) (st : State) : State :=
  set_world (fun w =>
    with_procs (match procs w !! p with
                | Some pr => <[p := mkProcess (running pr) (drop (Z.to_nat n) (stdout pr))]>
                               (procs w)
                | None => procs w
                end) w) st.

(** A socket is handed some bytes. *)
Definition deliver (s : sock) (d : bytes) (st : State) : State :=
  set_world (fun w => with_received (<[s := delivered w s ++ d]> (received w)) w) st.

(** The update thread takes its lock. *)
Definition parked (st : State) : State :=
  set_stream (fun s =>
    with_update_thread (mkUpdateThread (is_running (update_thread s)) true) s) st.

(** Invariants that survive what the first half of a tick does... *)
Record head_stable (I : State -> Prop) : Prop := mk_head_stable {
  hs_log : forall st l, I st -> I (set_world (with_log l) st);
  hs_spawn : forall st env argv, I st -> I (spawned env argv st);
  hs_spawn_recorder : forall st env argv,
      I st -> I (set_stream (with_recorder_process (Some (new_pid st))) (spawned env argv st));
  hs_spawn_encoder : forall st env argv,
      I st -> I (set_stream (with_encoder_process (Some (new_pid st))) (spawned env argv st));
  hs_kill : forall st h, I st -> I (killed h st);
  hs_read : forall st p n,
      I st -> encoder_process (stream st) = Some p -> I (consumed p n st)
}.

(** ... what the second half does ... *)
Record tail_stable (I : State -> Prop) : Prop := mk_tail_stable {
  ts_log : forall st l, I st -> I (set_world (with_log l) st);
  ts_deliver : forall st s d, I st -> I (deliver s d st);
  ts_unregistered : forall st s device method,
      I st -> sockets (stream st) !! s = Some device -> I (unregistered s device method st)
}.

(** ... and whatever can happen to a stream. *)
Record stable (I : State -> Prop) : Prop := mk_stable {
  s_head : head_stable I;
  s_tail : tail_stable I;
  s_lock : forall st b, I st -> I (set_stream (with_lock b) st);
  s_registered : forall st env bridge s,
      I st -> sockets (stream st) !! s = None -> I (registered env bridge s st);
  s_parked : forall st, I st -> I (parked st);
  s_exits : forall st p, I st -> I (process_exits p st)
}.


(** The handles are set. *)
Definition recorder_set (st : State) : Prop := recorder_process (stream st) <> None.
Definition encoder_set (st : State) : Prop := encoder_process (stream st) <> None.

(** A new stream that served one client: socket 3 registers, the update
    thread ticks once, socket 3 unregisters. *)
Definition one_client : State :=
  run_calls [call_register example_env example_bridge 3]
    (initial_state "/livingroom.mp3" (mkRecorder "dlna.monitor") example_encoder
       empty_world).

Definition one_client_served : State :=
  default one_client (final_state (UpdateThread_run_once 8 example_env one_client)).

Definition last_client_gone : State :=
  run_calls [call_unregister 3 0] one_client_served.

(** ** What one socket gets out of [_send_data] *)

(** The run of the [while] loop on one socket, as the environment
    decides it: [None] when [fuel] rounds were not enough, otherwise
    whether the loop ended without error, and the pieces taken by the
    successive calls of [send]. *)
Fixpoint send_run (fuel : nat) (env : Env) (s : sock) (data : bytes) (sent : nat)
  : option (bool * list bytes) :=
  if (sent <? length data)%nat then
    match fuel with
    | O => None
    | S fuel' =>
        match send_result env s (drop sent data) with
        | SendFails => Some (false, [])
        | Sent n =>
            let k := Nat.min n (length (drop sent data)) in
            match send_run fuel' env s data (sent + k) with
            | Some (ok, chunks) => Some (ok, take k (drop sent data) :: chunks)
            | None => None
            end
        end
    end
  else Some (true, []).

Definition deliver_all (s : sock) (chunks : list bytes) (st : State) : State :=
  fold_left (fun st c => deliver s c st) chunks st.

(** [send] on a socket in blocking mode takes at least one byte of a
    buffer that is not empty. *)
Definition send_progress (env : Env) : Prop :=
  forall (s : sock) (buf : bytes), buf <> [] -> send_result env s buf <> Sent 0.

(** The write to a socket ends in [socket.error]. *)
Definition write_fails (fuel : nat) (env : Env) (data : bytes) (s : sock) : Prop :=
  exists chunks, send_run fuel env s data 0 = Some (false, chunks).

(** The read from a socket shows that the peer is gone: an error, or no
    bytes. *)
Definition hangs_up (env : Env) (s : sock) : bool :=
  match recv_result env s with
  | RecvFails => true
  | Received b => (length (take 1024 b) =? 0)%nat
  end.

(** What is known of one socket: its entry in the table, what it has
    been handed, whether it was closed. *)
Definition view (st : State) (s : sock) : option RemoteDevice * bytes * bool :=
  (sockets (stream st) !! s, delivered (world st) s,
   bool_decide (s ∈ closed (world st))).

(** The view of a socket after the loop over the writable ones got to
    it. *)
Definition written (fuel : nat) (env : Env) (data : bytes) (st : State) (s : sock)
  : option RemoteDevice * bytes * bool :=
  match send_run fuel env s data 0 with
  | Some (true, chunks) =>
      (sockets (stream st) !! s, delivered (world st) s ++ concat chunks,
       bool_decide (s ∈ closed (world st)))
  | Some (false, chunks) =>
      (None, delivered (world st) s ++ concat chunks, true)
  | None => view st s
  end.

(** The view of a socket after the loop over the readable ones got to
    it. *)
Definition polled (env : Env) (st : State) (s : sock)
  : option RemoteDevice * bytes * bool :=
  match sockets (stream st) !! s with
  | Some _ => if hangs_up env s then (None, delivered (world st) s, true) else view st s
  | None => view st s
  end.

(** The first half of a tick leaves the sockets alone and the lock
    held. *)
Definition head_frame (so : gmap sock RemoteDevice) (rv : gmap sock bytes)
    (cl : gset sock) (st : State) : Prop :=
  sockets (stream st) = so /\ received (world st) = rv /\ closed (world st) = cl
  /\ lock (stream st) = true.

Definition lock_held (st : State) : Prop := lock (stream st) = true.

(** The socket is in the table and [select] reports it ready. *)
Definition selected (ready : Env -> sock -> bool) (env : Env) (st : State) (s : sock)
  : Prop :=
  is_Some (sockets (stream st) !! s) /\ ready env s = true.

(** The state of the four-client stream when its next tick has read
    its chunk. *)
Definition four_clients_chunk_read : State :=
  default four_clients
    (final_state (tick_head example_env (set_stream (with_lock true) four_clients))).

(** ** The restart of the processes *)

Definition recorder_argv (env : Env) (st : State) : list string :=
  split_space (recorder_command env (rec_monitor (recorder (stream st)))).

Definition encoder_argv (st : State) : list string :=
  split_space (enc_command (encoder (stream st))).

(** The state after [cleanup]. *)
Definition cleaned (st : State) : State :=
  set_world (fun w =>
    with_procs (kill_handle (recorder_process (stream st))
                  (kill_handle (encoder_process (stream st)) (procs w))) w) st.

(** The state after [create_processes], when both programs start. *)
Definition recorder_started (env : Env) (st : State) : State :=
  set_stream (with_recorder_process (Some (new_pid st)))
    (spawned env (recorder_argv env st) st).

Definition pair_started (env : Env) (st : State) : State :=
  set_stream (with_encoder_process (Some (new_pid (recorder_started env st))))
    (spawned env (encoder_argv st) (recorder_started env st)).



(** Any number of steps. *)
Definition steps : State -> State -> Prop := rtc step.



(** The handles refer to entries of the process table. *)
Definition handle_known (st : State) (h : option pid) : Prop :=
  forall p, h = Some p -> is_Some (procs (world st) !! p).

Definition handles_known (st : State) : Prop :=
  handle_known st (recorder_process (stream st))
  /\ handle_known st (encoder_process (stream st)).

(** No entry of the process table is lost. *)
Definition table_grows (st st' : State) : Prop :=
  forall p, is_Some (procs (world st) !! p) -> is_Some (procs (world st') !! p).

(** ** Notions used for further properties *)

(** A header text written out from (name, value) lines. *)
Fixpoint render_headers (lines : list (string * string)) : string :=
  match lines with
  | [] => EmptyString
  | (n, v) :: lines' =>
      String.append n
        (String ":"%char (String.append v (String newline (render_headers lines'))))
  end.

(** A line that [render_headers] can write and the header pattern reads
    back: no colon or newline in the name, no newline in the value. *)
Definition header_line_ok (nv : string * string) : Prop :=
  has_char ":"%char (fst nv) = false
  /\ has_char newline (fst nv) = false
  /\ has_char newline (snd nv) = false.

(** How [_get_header_map] rewrites an entry. *)
Definition normalize_header (kv : string * string) : string * string :=
  (lower (strip (fst kv)), strip (snd kv)).

(** The tail of the pattern of [_get_device_id]: two colons and the
    greedy group 2. *)
Definition usn_tail_re : regex :=
  Cat (Atom (ALit ":"%char)) (Cat (Atom (ALit ":"%char)) (Group 2 (GreedyStar ADot))).

(** The matches of the pattern that take [m] after the letters [u]
    into group 1 and go on in [r]. *)
Definition usn_continue (u : string) (mr : string * string) : list rmatch_result :=
  map (fun m2 : rmatch_result =>
         (String.append (String.append u (fst mr)) (fst (fst m2)),
          ((1, String.append u (fst mr)) :: []) ++ snd (fst m2),
          snd m2))
      (rmatch true usn_tail_re (snd mr)).

(** ** Notions used for the life of a stream *)

(** A stream that was opened and closed twice by socket 3, with no tick
    of the update thread in between. *)
Definition closed_twice : State :=
  run_calls [call_register example_env example_bridge 3;
             call_unregister 3 0;
             call_register example_env example_bridge 3;
             call_unregister 3 0]
    (initial_state "/livingroom.mp3" (mkRecorder "dlna.monitor") example_encoder
       empty_world).

(** An environment in which the name of socket 6 cannot be got. *)
Definition nameless_env : Env :=
  {| recorder_command := recorder_command example_env;
     can_spawn := can_spawn example_env;
     program_output := program_output example_env;
     getsockname := fun s => if Nat.eqb s 6 then None else getsockname example_env s;
     sock_bad := sock_bad example_env;
     readable := readable example_env;
     writable := writable example_env;
     send_result := send_result example_env;
     recv_result := recv_result example_env |}.

(** Between two calls the lock of the stream is free. *)
Definition lock_free (st : State) : Prop := lock (stream st) = false.

(** A stream with clients is not paused. *)
Definition clients_keep_running (st : State) : Prop :=
  sockets (stream st) <> ∅ -> is_running (update_thread (stream st)) = true.

(** What a stream is built with. *)
Definition settings_are (p : string) (rec : Recorder) (enc : Encoder) (n : Z)
    (st : State) : Prop :=
  path (stream st) = p /\ recorder (stream st) = rec /\ encoder (stream st) = enc
  /\ chunk_size (stream st) = n.

(** ** Notions used for the whole tick *)

(** The view of a socket after the loop that follows a failed [select]
    got to it. *)
Definition probed (env : Env) (st : State) (s : sock)
  : option RemoteDevice * bytes * bool :=
  if sock_bad env s then (None, delivered (world st) s, true) else view st s.

(** One of the two programs of the stream cannot be started. *)
Definition spawn_fails (env : Env) (st : State) : Prop :=
  can_spawn env (recorder_argv env st) = false
  \/ can_spawn env (encoder_argv st) = false.

(** An environment in which socket 5 makes [select] fail. *)
Definition bad_socket_env : Env :=
  {| recorder_command := recorder_command example_env;
     can_spawn := can_spawn example_env;
     program_output := program_output example_env;
     getsockname := getsockname example_env;
     sock_bad := fun s => Nat.eqb s 5;
     readable := readable example_env;
     writable := writable example_env;
     send_result := send_result example_env;
     recv_result := recv_result example_env |}.

(** An environment in which the encoder program cannot be started. *)
Definition no_encoder_env : Env :=
  {| recorder_command := recorder_command example_env;
     can_spawn := fun argv => match argv with
                              | prog :: _ => negb (String.eqb prog "lame")
                              | [] => true
                              end;
     program_output := program_output example_env;
     getsockname := getsockname example_env;
     sock_bad := sock_bad example_env;
     readable := readable example_env;
     writable := writable example_env;
     send_result := send_result example_env;
     recv_result := recv_result example_env |}.

(** An environment in which [send] takes nothing. *)
Definition stalled_env : Env :=
  {| recorder_command := recorder_command example_env;
     can_spawn := can_spawn example_env;
     program_output := program_output example_env;
     getsockname := getsockname example_env;
     sock_bad := sock_bad example_env;
     readable := readable example_env;
     writable := writable example_env;
     send_result := fun _ _ => Sent 0;
     recv_result := recv_result example_env |}.

(** ** Notions used for the registry *)

(** The first call of a series that names the path. *)
Definition first_call (p : string) (calls : list (string * Bridge * Encoder))
  : option (string * Bridge * Encoder) :=
  find (fun c => String.eqb (fst (fst c)) p) calls.

(** What a registry written by a series of [get_stream] calls holds:
    a stream for exactly the paths named, each built for its path from
    the first call that named it, and no stream under two paths. *)
Definition registry_built (calls : list (string * Bridge * Encoder)) (sm : StreamManager)
  : Prop :=
  (forall p r, streams sm !! p = Some r ->
     exists b e,
       first_call p calls = Some (p, b, e)
       /\ heap sm !! r = Some (new_ProcessStream p (mkRecorder (monitor (sink b))) e))
  /\ (forall p1 p2 r, streams sm !! p1 = Some r -> streams sm !! p2 = Some r -> p1 = p2)
  /\ (forall p, is_Some (streams sm !! p) <-> is_Some (first_call p calls)).

(** A second device that shares the monitor of no other. *)
Definition kitchen_bridge : Bridge := mkBridge (mkSink "kitchen.monitor") (mkUpnpDevice "kitchen").

(* ===================================================================== *)
(** * Part II.  Properties                                                *)
(* ===================================================================== *)

#[local] Arguments Ascii.eqb : simpl never.

(** ** Strings *)

Lemma append_cons (c : ascii) (s t : string) :
  String.append (String c s) t = String c (String.append s t).
Proof. reflexivity. Qed.

Lemma append_empty_l (s : string) : String.append EmptyString s = s.
Proof. reflexivity. Qed.

Lemma append_empty_r (s : string) : String.append s EmptyString = s.
Proof. induction s as [|c s IH]; [reflexivity|]. rewrite append_cons, IH. reflexivity. Qed.

Lemma append_assoc (s t u : string) :
  String.append (String.append s t) u = String.append s (String.append t u).
Proof.
  induction s as [|c s IH]; [reflexivity|].
  rewrite !append_cons, IH. reflexivity.
Qed.

Lemma length_append (s t : string) :
  String.length (String.append s t) = String.length s + String.length t.
Proof.
  induction s as [|c s IH]; [reflexivity|].
  rewrite append_cons. simpl. rewrite IH. reflexivity.
Qed.

Lemma has_char_append (c : ascii) (s t : string) :
  has_char c (String.append s t) = has_char c s || has_char c t.
Proof.
  induction s as [|ch s IH]; [reflexivity|].
  rewrite append_cons. simpl. rewrite IH. apply orb_assoc.
Qed.

Lemma cut_line_none (s : string) :
  cut_line s = None <-> has_char newline s = false.
Proof.
  induction s as [|c s IH]; simpl; [tauto|].
  unfold is_newline. destruct (Ascii.eqb c newline); simpl.
  - split; discriminate.
  - destruct (cut_line s) as [[l r]|].
    + split; [discriminate|]. intros H. apply IH in H. discriminate.
    + rewrite <- IH. tauto.
Qed.

Lemma cut_line_append (l rest : string) :
  has_char newline l = false ->
  cut_line (String.append l (String newline rest)) = Some (l, rest).
Proof.
  induction l as [|c l IH]; intros H.
  - reflexivity.
  - rewrite append_cons. simpl in *. apply orb_false_iff in H as [Hc Hl].
    unfold is_newline. rewrite Hc, (IH Hl). reflexivity.
Qed.

Lemma cut_line_some (s l rest : string) :
  cut_line s = Some (l, rest) ->
  s = String.append l (String newline rest) /\ has_char newline l = false.
Proof.
  revert l rest. induction s as [|c s IH]; intros l rest H; simpl in H; [discriminate|].
  unfold is_newline in H. destruct (Ascii.eqb_spec c newline) as [->|Hc].
  - inversion H; subst. split; reflexivity.
  - destruct (cut_line s) as [[l' r']|]; [|discriminate].
    inversion H; subst. destruct (IH _ _ eq_refl) as [-> Hl].
    split; [reflexivity|]. simpl. rewrite Hl.
    destruct (Ascii.eqb_spec c newline); [contradiction|reflexivity].
Qed.

(** ** The matcher *)

(** Every result splits the text into what was consumed and what is
    left. *)
Lemma star_splits_sound (p : ascii -> bool) (s m rest : string) :
  In (m, rest) (star_splits p s) -> s = String.append m rest.
Proof.
  revert m rest. induction s as [|c s IH]; intros m rest H; simpl in H.
  - destruct H as [H|[]]. inversion H; reflexivity.
  - destruct H as [H|H]; [inversion H; reflexivity|].
    destruct (p c); [|destruct H].
    apply in_map_iff in H as [[m' r'] [Heq Hin]]. simpl in Heq.
    inversion Heq; subst. rewrite append_cons, <- (IH _ _ Hin). reflexivity.
Qed.

Lemma rmatch_sound (icase : bool) (r : regex) (s m rest : string) (caps : captures) :
  In (m, caps, rest) (rmatch icase r s) -> s = String.append m rest.
Proof.
  revert s m rest caps.
  induction r as [a|r1 IH1 r2 IH2|a|a|i r IH]; intros s m rest caps H; simpl in H.
  - destruct s as [|ch s]; [destruct H|].
    destruct (atom_ok icase a ch); [|destruct H].
    destruct H as [H|[]]. inversion H; reflexivity.
  - apply in_flat_map in H as [[[m1 c1] s1] [H1 H2]].
    apply in_map_iff in H2 as [[[m2 c2] s2] [Heq H2]]. simpl in *.
    inversion Heq; subst.
    rewrite (IH1 _ _ _ _ H1), (IH2 _ _ _ _ H2), append_assoc. reflexivity.
  - apply in_map_iff in H as [[m' r'] [Heq H]]. inversion Heq; subst.
    eapply star_splits_sound; eauto.
  - apply in_map_iff in H as [[m' r'] [Heq H]]. inversion Heq; subst.
    apply in_rev in H. eapply star_splits_sound; eauto.
  - apply in_map_iff in H as [[[m' c'] r'] [Heq H]]. inversion Heq; subst.
    eapply IH; eauto.
Qed.

Lemma match_here_sound icase r s m caps rest :
  match_here icase r s = Some (m, caps, rest) -> s = String.append m rest.
Proof.
  unfold match_here. intros H. apply (rmatch_sound icase r s m rest caps).
  destruct (rmatch icase r s) as [|x l]; [discriminate|].
  inversion H; subst. left; reflexivity.
Qed.

(** [search] finds its match somewhere in the text. *)
Lemma search_sound icase r s m caps rest :
  search icase r s = Some (m, caps, rest) ->
  exists pre, s = String.append pre (String.append m rest)
              /\ match_here icase r (String.append m rest) = Some (m, caps, rest).
Proof.
  induction s as [|c s IH]; simpl; intros H.
  - destruct (match_here icase r "") as [x|] eqn:E; [|discriminate].
    inversion H; subst. exists "". rewrite <- (match_here_sound _ _ _ _ _ _ E). auto.
  - destruct (match_here icase r (String c s)) as [x|] eqn:E.
    + inversion H; subst. exists "".
      rewrite <- (match_here_sound _ _ _ _ _ _ E). auto.
    + destruct (IH H) as [pre [-> Hm]]. exists (String c pre). auto.
Qed.

Lemma search_rest_length icase r s m caps rest :
  search icase r s = Some (m, caps, rest) ->
  String.length m + String.length rest <= String.length s.
Proof.
  intros H. destruct (search_sound _ _ _ _ _ _ H) as [pre [-> _]].
  rewrite !length_append. lia.
Qed.

Lemma findall_from_fuel icase r (fuel1 fuel2 : nat) (s : string) :
  String.length s < fuel1 -> String.length s < fuel2 ->
  findall_from fuel1 icase r s = findall_from fuel2 icase r s.
Proof.
  revert fuel2 s. induction fuel1 as [|f1 IH]; intros fuel2 s H1 H2; [lia|].
  destruct fuel2 as [|f2]; [lia|]. simpl.
  destruct (search icase r s) as [[[m caps] rest]|] eqn:E; [|reflexivity].
  apply search_rest_length in E. f_equal.
  destruct m as [|c m]; [destruct rest as [|c rest]|]; simpl in E.
  - reflexivity.
  - apply IH; lia.
  - apply IH; lia.
Qed.

Lemma findall_unfold icase r (s : string) :
  findall icase r s =
  match search icase r s with
  | None => []
  | Some (consumed, caps, rest) =>
      caps ::
      match consumed, rest with
      | EmptyString, EmptyString => []
      | EmptyString, String _ rest' => findall icase r rest'
      | _, _ => findall icase r rest
      end
  end.
Proof.
  unfold findall at 1. simpl.
  destruct (search icase r s) as [[[m caps] rest]|] eqn:E; [|reflexivity].
  apply search_rest_length in E. f_equal.
  destruct m as [|c m]; [destruct rest as [|c rest]|]; simpl in E.
  - reflexivity.
  - apply findall_from_fuel; lia.
  - apply findall_from_fuel; lia.
Qed.

(** How the matcher walks over the first character of the text. *)
Lemma rmatch_atom_cons icase a R (c : ascii) (s : string) :
  rmatch icase (Cat (Atom a) R) (String c s) =
  if atom_ok icase a c then map (prefix_char c) (rmatch icase R s) else [].
Proof.
  simpl. destruct (atom_ok icase a c); [|reflexivity].
  simpl. rewrite app_nil_r. apply map_ext. intros [[m caps] rest]. reflexivity.
Qed.

Lemma rmatch_atom_nil icase a R : rmatch icase (Cat (Atom a) R) EmptyString = [].
Proof. reflexivity. Qed.

Lemma rmatch_group_lazy_grow icase i R (c : ascii) (L : list (string * string)) :
  flat_map
    (fun m1 : rmatch_result =>
       map (fun m2 : rmatch_result =>
              (String.append (fst (fst m1)) (fst (fst m2)),
               snd (fst m1) ++ snd (fst m2), snd m2))
           (rmatch icase R (snd m1)))
    (map (fun m : rmatch_result => (fst (fst m), (i, fst (fst m)) :: snd (fst m), snd m))
       (map (fun mr : string * string => (fst mr, [], snd mr))
          (map (fun mr : string * string => (String c (fst mr), snd mr)) L)))
  = map (extend_first c)
      (flat_map
         (fun m1 : rmatch_result =>
            map (fun m2 : rmatch_result =>
                   (String.append (fst (fst m1)) (fst (fst m2)),
                    snd (fst m1) ++ snd (fst m2), snd m2))
                (rmatch icase R (snd m1)))
         (map (fun m : rmatch_result => (fst (fst m), (i, fst (fst m)) :: snd (fst m), snd m))
            (map (fun mr : string * string => (fst mr, [], snd mr)) L))).
Proof.
  induction L as [|[m rest] L IH]; [reflexivity|].
  simpl. rewrite IH, map_app. f_equal.
  rewrite map_map. apply map_ext. intros [[m2 c2] r2]. reflexivity.
Qed.

Lemma rmatch_group_lazy_cons icase i a R (c : ascii) (s : string) :
  rmatch icase (Cat (Group i (LazyStar a)) R) (String c s) =
  map (open_group i) (rmatch icase R (String c s)) ++
  (if atom_ok icase a c
   then map (extend_first c) (rmatch icase (Cat (Group i (LazyStar a)) R) s)
   else []).
Proof.
  simpl. f_equal.
  destruct (atom_ok icase a c); [|reflexivity].
  apply rmatch_group_lazy_grow.
Qed.

Lemma rmatch_group_lazy_nil icase i a R :
  rmatch icase (Cat (Group i (LazyStar a)) R) EmptyString =
  map (open_group i) (rmatch icase R EmptyString).
Proof. simpl. rewrite app_nil_r. reflexivity. Qed.

(** ** The header pattern *)

Lemma header_value_match (s : string) :
  rmatch false (Cat (Group 2 (LazyStar ADot)) (Atom (ALit newline))) s =
  match cut_line s with
  | Some (v, rest) =>
      [(String.append v (String newline EmptyString), [(2, v)], rest)]
  | None => []
  end.
Proof.
  induction s as [|c s IH].
  - reflexivity.
  - rewrite rmatch_group_lazy_cons, IH. cbn [rmatch atom_ok cut_line].
    unfold is_newline. rewrite (Ascii.eqb_sym newline c).
    destruct (Ascii.eqb_spec c newline) as [->|Hc]; [reflexivity|].
    destruct (cut_line s) as [[v rest]|]; reflexivity.
Qed.

Lemma head_map {A B} (f : A -> B) (l : list A) :
  head (map f l) = option_map f (head l).
Proof. destruct l; reflexivity. Qed.

Lemma match_here_header (s : string) :
  match_here false header_re s =
  match header_line s with
  | Some (n, v, rest) => Some (header_match n v rest)
  | None => None
  end.
Proof.
  unfold match_here, header_re. induction s as [|c s IH].
  - reflexivity.
  - rewrite rmatch_group_lazy_cons, rmatch_atom_cons, header_value_match.
    cbn [header_line atom_ok].
    destruct (Ascii.eqb ":" c) eqn:Ec.
    + apply Ascii.eqb_eq in Ec as <-.
      destruct (cut_line s) as [[v rest]|]; [reflexivity|].
      cbn [map app is_newline]. change (is_newline ":") with false.
      cbn [negb]. rewrite head_map, IH.
      destruct (header_line s) as [[[n v] rest]|]; reflexivity.
    + cbn [map app]. destruct (is_newline c); [reflexivity|].
      cbn [negb]. rewrite head_map, IH.
      destruct (header_line s) as [[[n v] rest]|]; reflexivity.
Qed.

Lemma header_line_no_newline (s : string) :
  has_char newline s = false -> header_line s = None.
Proof.
  induction s as [|c s IH]; [reflexivity|]. simpl. intros H.
  apply orb_false_iff in H as [Hc Hs].
  apply cut_line_none in Hs as Hcut. rewrite Hcut, (IH Hs).
  destruct (Ascii.eqb ":" c), (is_newline c); reflexivity.
Qed.

Lemma header_line_first_line (l rest : string) :
  has_char newline l = false ->
  header_line (String.append l (String newline rest)) =
  match cut_at ":"%char l with
  | Some (n, v) => Some (n, v, rest)
  | None => None
  end.
Proof.
  induction l as [|c l IH]; intros H.
  - reflexivity.
  - simpl in H. apply orb_false_iff in H as [Hc Hl].
    rewrite append_cons. cbn [header_line cut_at].
    rewrite (cut_line_append _ _ Hl), (IH Hl).
    unfold is_newline. rewrite Hc, (Ascii.eqb_sym ":" c).
    destruct (Ascii.eqb c ":"); [reflexivity|].
    destruct (cut_at ":" l) as [[n v]|]; reflexivity.
Qed.

Lemma search_here icase r (s : string) m :
  match_here icase r s = Some m -> search icase r s = Some m.
Proof. intros H. destruct s; simpl; rewrite H; reflexivity. Qed.

Lemma search_header_no_newline (s : string) :
  has_char newline s = false -> search false header_re s = None.
Proof.
  induction s as [|c s IH]; intros H.
  - reflexivity.
  - cbn [search]. rewrite match_here_header, (header_line_no_newline _ H).
    simpl in H. apply orb_false_iff in H as [_ Hs]. auto.
Qed.

Lemma cut_at_none_tail (c ch : ascii) (s : string) :
  cut_at c (String ch s) = None -> cut_at c s = None.
Proof.
  simpl. destruct (Ascii.eqb ch c); [discriminate|].
  destruct (cut_at c s) as [[? ?]|]; [discriminate|reflexivity].
Qed.

(** A line without a colon is skipped. *)
Lemma search_header_skip_line (l rest : string) :
  has_char newline l = false -> cut_at ":"%char l = None ->
  search false header_re (String.append l (String newline rest)) =
  search false header_re rest.
Proof.
  induction l as [|c l IH]; intros Hnl Hcut.
  - rewrite append_empty_l. cbn [search].
    rewrite match_here_header.
    pose proof (header_line_first_line EmptyString rest eq_refl) as E.
    rewrite append_empty_l in E. rewrite E. reflexivity.
  - rewrite append_cons. cbn [search]. rewrite <- append_cons.
    rewrite match_here_header, (header_line_first_line _ _ Hnl), Hcut.
    simpl in Hnl. apply orb_false_iff in Hnl as [_ Hl].
    apply IH; [assumption|]. eapply cut_at_none_tail; eauto.
Qed.

(** A line with a colon is the next match. *)
Lemma search_header_take_line (l rest n v : string) :
  has_char newline l = false -> cut_at ":"%char l = Some (n, v) ->
  search false header_re (String.append l (String newline rest)) =
  Some (header_match n v rest).
Proof.
  intros Hnl Hcut. apply search_here.
  rewrite match_here_header, (header_line_first_line _ _ Hnl), Hcut. reflexivity.
Qed.

Lemma findall_header_no_newline (s : string) :
  has_char newline s = false -> findall false header_re s = [].
Proof.
  intros H. rewrite findall_unfold, (search_header_no_newline _ H). reflexivity.
Qed.

(** [findall] goes through the text line by line. *)
Lemma findall_header_line (l rest : string) :
  has_char newline l = false ->
  findall false header_re (String.append l (String newline rest)) =
  match cut_at ":"%char l with
  | Some (n, v) => [[(1, n); (2, v)]]
  | None => []
  end ++ findall false header_re rest.
Proof.
  intros Hnl. destruct (cut_at ":" l) as [[n v]|] eqn:Hcut.
  - rewrite findall_unfold, (search_header_take_line _ _ _ _ Hnl Hcut).
    unfold header_match. destruct n; reflexivity.
  - rewrite findall_unfold, (search_header_skip_line _ _ Hnl Hcut).
    rewrite <- findall_unfold. reflexivity.
Qed.

Lemma cut_line_length (s l rest : string) :
  cut_line s = Some (l, rest) -> String.length rest < String.length s.
Proof.
  intros H. apply cut_line_some in H as [-> _].
  rewrite length_append. simpl. lia.
Qed.

(** What follows the last newline of a text yields no match. *)
Lemma findall_header_unterminated (s t : string) :
  has_char newline t = false ->
  findall false header_re (String.append s (String newline t)) =
  findall false header_re (String.append s (String newline EmptyString)).
Proof.
  intros Ht. remember (String.length s) as k eqn:Hk.
  revert s Hk. induction k as [k IH] using lt_wf_ind. intros s Hk.
  destruct (cut_line s) as [[l s1]|] eqn:Hcut.
  - pose proof (cut_line_length _ _ _ Hcut) as Hlen.
    apply cut_line_some in Hcut as [-> Hl].
    rewrite !append_assoc, !append_cons.
    rewrite !(findall_header_line _ _ Hl). f_equal.
    apply (IH (String.length s1)); [lia|reflexivity].
  - apply cut_line_none in Hcut.
    rewrite !(findall_header_line _ _ Hcut).
    rewrite (findall_header_no_newline _ Ht). reflexivity.
Qed.

(** ** Membership in the list of matches *)

Lemma in_rmatch_atom icase a R (s : string) (x : rmatch_result) :
  In x (rmatch icase (Cat (Atom a) R) s) <->
  exists c s' y, s = String c s' /\ atom_ok icase a c = true
                 /\ In y (rmatch icase R s') /\ x = prefix_char c y.
Proof.
  destruct s as [|c s].
  - rewrite rmatch_atom_nil. split; [intros []|].
    intros (c & s' & y & H & _). discriminate.
  - rewrite rmatch_atom_cons. split.
    + destruct (atom_ok icase a c) eqn:E; [|intros []].
      intros H. apply in_map_iff in H as [y [<- Hy]].
      exists c, s, y. auto.
    + intros (c' & s' & y & Hs & Hok & Hy & ->). inversion Hs; subst.
      rewrite Hok. apply in_map. assumption.
Qed.

Lemma in_star_splits (p : ascii -> bool) (s m rest : string) :
  In (m, rest) (star_splits p s) <->
  s = String.append m rest /\ (forall c, has_char c m = true -> p c = true).
Proof.
  revert m rest. induction s as [|ch s IH]; intros m rest.
  - simpl. split.
    + intros [H|[]]. inversion H; subst. split; [reflexivity|]. discriminate.
    + intros [H _]. left. destruct m; [|discriminate].
      rewrite append_empty_l in H. subst. reflexivity.
  - cbn [star_splits In]. split.
    + intros [H|H].
      * inversion H; subst. split; [reflexivity|discriminate].
      * destruct (p ch) eqn:Ep; [|destruct H].
        apply in_map_iff in H as [[m' r'] [Heq Hin]]. simpl in Heq.
        inversion Heq; subst. apply IH in Hin as [-> Hall].
        split; [reflexivity|]. intros c Hc. simpl in Hc.
        apply orb_true_iff in Hc as [Hc|Hc]; [|auto].
        apply Ascii.eqb_eq in Hc as <-. assumption.
    + intros [Hs Hall]. destruct m as [|c m].
      * left. rewrite append_empty_l in Hs. subst. reflexivity.
      * right. rewrite append_cons in Hs. inversion Hs; subst.
        rewrite (Hall c) by (simpl; rewrite Ascii.eqb_refl; reflexivity).
        apply in_map_iff. exists (m, rest). split; [reflexivity|].
        apply IH. split; [reflexivity|]. intros c' Hc'. apply Hall.
        simpl. rewrite Hc'. apply orb_true_r.
Qed.

Lemma dot_run (icase : bool) (m : string) :
  (forall c, has_char c m = true -> atom_ok icase ADot c = true) <->
  has_char newline m = false.
Proof.
  split.
  - intros H. destruct (has_char newline m) eqn:E; [|reflexivity].
    apply H in E. discriminate.
  - intros H c Hc. simpl. unfold is_newline.
    destruct (Ascii.eqb_spec c newline) as [->|]; [congruence|reflexivity].
Qed.

Lemma search_none icase r (pre s : string) :
  search icase r (String.append pre s) = None -> match_here icase r s = None.
Proof.
  induction pre as [|c pre IH].
  - rewrite append_empty_l. destruct s; simpl;
      destruct (match_here icase r _); congruence.
  - rewrite append_cons. simpl.
    destruct (match_here icase r (String c (pre +:+ s))); [discriminate|]. exact IH.
Qed.

(** ** The pattern of [_get_device_id] *)

Lemma lower_uuid (c1 c2 c3 c4 c5 : ascii) :
  atom_ok true (ALit "u") c1 = true -> atom_ok true (ALit "u") c2 = true ->
  atom_ok true (ALit "i") c3 = true -> atom_ok true (ALit "d") c4 = true ->
  atom_ok true (ALit ":") c5 = true ->
  lower (String c1 (String c2 (String c3 (String c4 (String c5 EmptyString)))))
  = "uuid:".
Proof.
  cbn [atom_ok]. intros H1 H2 H3 H4 H5.
  apply Ascii.eqb_eq in H1, H2, H3, H4, H5.
  cbn [lower]. rewrite <- H1, <- H2, <- H3, <- H4, <- H5. reflexivity.
Qed.

Lemma lower_uuid_inv (u : string) :
  lower u = "uuid:" ->
  exists c1 c2 c3 c4 c5,
    u = String c1 (String c2 (String c3 (String c4 (String c5 EmptyString))))
    /\ atom_ok true (ALit "u") c1 = true /\ atom_ok true (ALit "u") c2 = true
    /\ atom_ok true (ALit "i") c3 = true /\ atom_ok true (ALit "d") c4 = true
    /\ atom_ok true (ALit ":") c5 = true.
Proof.
  intros H.
  destruct u as [|c1 [|c2 [|c3 [|c4 [|c5 [|c6 u]]]]]]; try discriminate.
  cbn [lower] in H. injection H as H1 H2 H3 H4 H5.
  exists c1, c2, c3, c4, c5. cbn [atom_ok].
  rewrite H1, H2, H3, H4, H5. repeat split; reflexivity.
Qed.

(** Every match of the pattern has the shape. *)
Lemma usn_match_sound (s : string) (x : rmatch_result) :
  In x (rmatch true usn_re s) ->
  exists u id g2 : string,
    s = String.append u (String.append id (String.append "::" (String.append g2 (snd x))))
    /\ lower u = "uuid:" /\ has_char newline id = false
    /\ group 1 (snd (fst x)) = String.append u id.
Proof.
  unfold usn_re. cbn [lits]. intros H. cbn [rmatch] in H.
  apply in_flat_map in H as [m1 [H1 H2]].
  apply in_map_iff in H1 as [g [<- Hg]].
  change (In g (rmatch true
    (Cat (Atom (ALit "u")) (Cat (Atom (ALit "u")) (Cat (Atom (ALit "i"))
      (Cat (Atom (ALit "d")) (Cat (Atom (ALit ":")) (LazyStar ADot)))))) s)) in Hg.
  apply in_rmatch_atom in Hg as (c1 & s1 & y1 & -> & Hc1 & Hg & ->).
  apply in_rmatch_atom in Hg as (c2 & s2 & y2 & -> & Hc2 & Hg & ->).
  apply in_rmatch_atom in Hg as (c3 & s3 & y3 & -> & Hc3 & Hg & ->).
  apply in_rmatch_atom in Hg as (c4 & s4 & y4 & -> & Hc4 & Hg & ->).
  apply in_rmatch_atom in Hg as (c5 & s5 & y5 & -> & Hc5 & Hg & ->).
  cbn [rmatch] in Hg. apply in_map_iff in Hg as [[id r5] [<- Hid]].
  apply in_star_splits in Hid as [-> Hall]. apply dot_run in Hall.
  cbn [prefix_char fst snd] in H2.
  apply in_map_iff in H2 as [m2 [<- H2]].
  change (In m2 (rmatch true
    (Cat (Atom (ALit ":")) (Cat (Atom (ALit ":")) (Group 2 (GreedyStar ADot)))) r5)) in H2.
  apply in_rmatch_atom in H2 as (d1 & t1 & z1 & -> & Hd1 & H2 & ->).
  apply in_rmatch_atom in H2 as (d2 & t2 & z2 & -> & Hd2 & H2 & ->).
  destruct z2 as [[g2 cg] r2].
  pose proof (rmatch_sound _ _ _ _ _ _ H2) as ->.
  cbn [atom_ok] in Hd1, Hd2. apply Ascii.eqb_eq in Hd1, Hd2.
  change (lower_char ":") with ":"%char in Hd1, Hd2.
  exists (String c1 (String c2 (String c3 (String c4 (String c5 EmptyString))))), id, g2.
  cbn [prefix_char fst snd group Nat.eqb].
  split; [|split; [|split]].
  - rewrite !append_cons, append_empty_l.
    assert (d1 = ":"%char /\ d2 = ":"%char) as [-> ->]; [|reflexivity].
    clear -Hd1 Hd2. split.
    + revert Hd1. destruct d1 as [[] [] [] [] [] [] [] []]; vm_compute; congruence.
    + revert Hd2. destruct d2 as [[] [] [] [] [] [] [] []]; vm_compute; congruence.
  - apply lower_uuid; assumption.
  - assumption.
  - rewrite !append_cons, append_empty_l. reflexivity.
Qed.

(** A text of the shape has a match. *)
Lemma usn_match_complete (u id rest : string) :
  lower u = "uuid:" -> has_char newline id = false ->
  exists x, In x (rmatch true usn_re
                    (String.append u (String.append id (String.append "::" rest)))).
Proof.
  intros Hu Hid.
  destruct (lower_uuid_inv _ Hu) as (c1 & c2 & c3 & c4 & c5 & -> & H1 & H2 & H3 & H4 & H5).
  set (tail := String.append "::" rest).
  exists (String.append (String c1 (String c2 (String c3 (String c4 (String c5 id)))))
            (String.append "::" EmptyString),
          [(1, String c1 (String c2 (String c3 (String c4 (String c5 id)))))]
            ++ [(2, EmptyString)],
          rest).
  unfold usn_re. cbn [lits]. cbn [rmatch]. apply in_flat_map.
  exists (String c1 (String c2 (String c3 (String c4 (String c5 id)))),
          [(1, String c1 (String c2 (String c3 (String c4 (String c5 id)))))],
          tail).
  split.
  - apply in_map_iff.
    exists (String c1 (String c2 (String c3 (String c4 (String c5 id)))), [], tail).
    split; [reflexivity|].
    change (In (String c1 (String c2 (String c3 (String c4 (String c5 id)))), [], tail)
      (rmatch true
       (Cat (Atom (ALit "u")) (Cat (Atom (ALit "u")) (Cat (Atom (ALit "i"))
         (Cat (Atom (ALit "d")) (Cat (Atom (ALit ":")) (LazyStar ADot))))))
       (String c1 (String c2 (String c3 (String c4 (String c5
          (String.append id tail)))))))).
    apply in_rmatch_atom.
    eexists c1, _, (String c2 (String c3 (String c4 (String c5 id))), [], tail).
    split; [reflexivity|]. split; [assumption|]. split; [|reflexivity]. apply in_rmatch_atom.
    eexists c2, _, (String c3 (String c4 (String c5 id)), [], tail).
    split; [reflexivity|]. split; [assumption|]. split; [|reflexivity]. apply in_rmatch_atom.
    eexists c3, _, (String c4 (String c5 id), [], tail).
    split; [reflexivity|]. split; [assumption|]. split; [|reflexivity]. apply in_rmatch_atom.
    eexists c4, _, (String c5 id, [], tail).
    split; [reflexivity|]. split; [assumption|]. split; [|reflexivity]. apply in_rmatch_atom.
    eexists c5, _, (id, [], tail).
    split; [reflexivity|]. split; [assumption|]. split; [|reflexivity].
    cbn [rmatch]. apply in_map_iff. exists (id, tail). split; [reflexivity|].
    apply in_star_splits. split; [reflexivity|]. apply dot_run. assumption.
  - cbn [fst snd]. apply in_map_iff.
    exists (prefix_char ":" (prefix_char ":" (EmptyString, [(2, EmptyString)], rest))).
    split; [reflexivity|].
    change (In (prefix_char ":" (prefix_char ":" (EmptyString, [(2, EmptyString)], rest)))
      (rmatch true
         (Cat (Atom (ALit ":")) (Cat (Atom (ALit ":")) (Group 2 (GreedyStar ADot))))
         (String ":" (String ":" rest)))).
    apply in_rmatch_atom. eexists ":"%char, _, _. split; [reflexivity|]. split; [reflexivity|]. split; [|reflexivity].
    apply in_rmatch_atom. eexists ":"%char, _, _. split; [reflexivity|]. split; [reflexivity|]. split; [|reflexivity].
    cbn [rmatch]. apply in_map_iff. exists (EmptyString, [], rest).
    split; [reflexivity|]. apply in_map_iff. exists (EmptyString, rest).
    split; [reflexivity|]. apply in_rev. rewrite rev_involutive.
    destruct rest; left; reflexivity.
Qed.

Lemma search_usn_shape (v : string) (m : rmatch_result) :
  search true usn_re v = Some m -> usn_shape v (group 1 (snd (fst m))).
Proof.
  destruct m as [[m caps] rest]. intros H.
  destruct (search_sound _ _ _ _ _ _ H) as [pre [-> Hm]].
  unfold match_here in Hm.
  destruct (rmatch true usn_re (String.append m rest)) as [|x l] eqn:E; [discriminate|].
  simpl in Hm. inversion Hm; subst x.
  destruct (usn_match_sound (String.append m rest) (m, caps, rest)) as (u & id & g2 & Hs & Hu & Hid & Hg).
  { rewrite E. left. reflexivity. }
  exists pre, u, id, (String.append g2 rest). cbn [fst snd] in *.
  rewrite Hs. auto.
Qed.

Lemma search_usn_none (v : string) :
  search true usn_re v = None <-> ~ matches_uuid_pattern v.
Proof.
  split.
  - intros H (d & pre & u & id & rest & -> & Hu & Hid & _).
    apply search_none in H. unfold match_here in H.
    destruct (usn_match_complete u id rest Hu Hid) as [x Hx].
    destruct (rmatch true usn_re _); [destruct Hx|discriminate].
  - intros Hn. destruct (search true usn_re v) as [m|] eqn:E; [|reflexivity].
    exfalso. apply Hn. eexists. apply (search_usn_shape _ _ E).
Qed.

(** ** [_get_header_map] and [_get_device_id] *)

Lemma _get_device_id_some (header : pydict string) (d : string) :
  _get_device_id header = Some d ->
  exists v, dict_get "usn" header = Some v /\ usn_shape v d.
Proof.
  unfold _get_device_id. destruct (dict_get "usn" header) as [v|]; [|discriminate].
  destruct (search true usn_re v) as [m|] eqn:E; [|discriminate].
  intros H. inversion H; subst. exists v. split; [reflexivity|].
  apply search_usn_shape. assumption.
Qed.

Lemma _get_device_id_none (header : pydict string) :
  _get_device_id header = None <->
  match dict_get "usn" header with
  | Some v => ~ matches_uuid_pattern v
  | None => True
  end.
Proof.
  unfold _get_device_id. destruct (dict_get "usn" header) as [v|]; [|tauto].
  rewrite <- search_usn_none.
  destruct (search true usn_re v); split; congruence.
Qed.

(** C9.  The header text [USN: uuid:1234-5678::urn:...:MediaRenderer:1]
    followed by a newline parses to a mapping whose key [usn] holds the
    whole trimmed value, and the device id extracted from that mapping
    is [uuid:1234-5678].  A mapping without a [usn] entry, or one whose
    [usn] value does not match uuid:<id>::<rest> (in any letter case),
    has no device id. *)
Theorem usn_header_and_device_id :
  _get_header_map usn_example
  = [("usn", "uuid:1234-5678::urn:schemas-upnp-org:device:MediaRenderer:1")]
  /\ dict_get "usn" (_get_header_map usn_example)
     = Some "uuid:1234-5678::urn:schemas-upnp-org:device:MediaRenderer:1"
  /\ _get_device_id (_get_header_map usn_example) = Some "uuid:1234-5678"
  /\ (forall header : pydict string,
        dict_get "usn" header = None -> _get_device_id header = None)
  /\ (forall (header : pydict string) (v : string),
        dict_get "usn" header = Some v -> ~ matches_uuid_pattern v ->
        _get_device_id header = None).
Proof.
  split; [vm_compute; reflexivity|].
  split; [vm_compute; reflexivity|].
  split; [vm_compute; reflexivity|].
  split.
  - intros header H. apply _get_device_id_none. rewrite H. exact I.
  - intros header v H Hn. apply _get_device_id_none. rewrite H. exact Hn.
Qed.

Lemma usn_header_and_device_id_witness :
  _get_device_id [("usn", "urn:schemas-upnp-org:device:MediaRenderer:1")] = None
  /\ _get_device_id [("location", "http://10.0.0.2/desc.xml")] = None.
Proof.
  destruct usn_header_and_device_id as (_ & _ & _ & Habsent & Hnomatch).
  split.
  - apply (Hnomatch _ "urn:schemas-upnp-org:device:MediaRenderer:1").
    + vm_compute. reflexivity.
    + apply search_usn_none. vm_compute. reflexivity.
  - apply Habsent. vm_compute. reflexivity.
Defined.

(** C10.  Only lines that end in a newline give entries: whatever
    follows the last newline of the text, and so a text without any
    newline, adds nothing to the mapping. *)
Theorem header_map_needs_newline (s t : string) :
  has_char newline t = false ->
  _get_header_map (String.append s (String newline t))
  = _get_header_map (String.append s (String newline EmptyString))
  /\ _get_header_map t = [].
Proof.
  intros Ht. unfold _get_header_map. split.
  - rewrite (findall_header_unterminated s t Ht). reflexivity.
  - rewrite (findall_header_no_newline t Ht). reflexivity.
Qed.

Lemma header_map_needs_newline_witness :
  _get_header_map (String.append "ST: upnp:rootdevice" (String newline "USN: uuid:1::x"))
  = _get_header_map (String.append "ST: upnp:rootdevice" (String newline EmptyString))
  /\ _get_header_map "USN: uuid:1::x" = [].
Proof.
  apply (header_map_needs_newline "ST: upnp:rootdevice" "USN: uuid:1::x").
  vm_compute. reflexivity.
Defined.

(** ** The request path pattern *)

Lemma star_splits_whole (p : ascii -> bool) (s : string) :
  (forall c, has_char c s = true -> p c = true) ->
  exists L, star_splits p s = L ++ [(s, EmptyString)].
Proof.
  induction s as [|c s IH]; intros H.
  - exists []. reflexivity.
  - cbn [star_splits]. rewrite (H c) by (simpl; rewrite Ascii.eqb_refl; reflexivity).
    destruct IH as [L HL].
    { intros c' Hc'. apply H. simpl. rewrite Hc'. apply orb_true_r. }
    rewrite HL, map_app. cbn [map fst snd].
    exists ((EmptyString, String c s)
              :: map (fun mr : string * string => (String c (fst mr), snd mr)) L).
    reflexivity.
Qed.

Lemma greedy_group_head (i : nat) (s : string) :
  has_char newline s = false ->
  exists l, rmatch false (Group i (GreedyStar ADot)) s = (s, [(i, s)], EmptyString) :: l.
Proof.
  intros H. cbn [rmatch].
  destruct (star_splits_whole (atom_ok false ADot) s) as [L HL].
  { apply dot_run. assumption. }
  rewrite HL, rev_app_distr. cbn [rev app map fst snd]. eexists. reflexivity.
Qed.

Lemma path_inner_head (name suffix' : string) :
  has_char "."%char name = false -> has_char newline name = false ->
  has_char newline suffix' = false ->
  head (rmatch false
          (Cat (Group 1 (LazyStar ADot))
               (Cat (Atom (ALit "."%char)) (Group 2 (GreedyStar ADot))))
          (String.append name (String "."%char suffix')))
  = Some (String.append name (String "."%char suffix'),
          [(1, name); (2, suffix')], EmptyString).
Proof.
  intros Hdot Hnl Hs. induction name as [|c name IH].
  - rewrite append_empty_l, rmatch_group_lazy_cons, rmatch_atom_cons.
    cbn [atom_ok]. rewrite Ascii.eqb_refl.
    destruct (greedy_group_head 2 suffix' Hs) as [l ->]. reflexivity.
  - simpl in Hdot, Hnl.
    apply orb_false_iff in Hdot as [Hc Hdot]. apply orb_false_iff in Hnl as [Hn Hnl].
    rewrite append_cons, rmatch_group_lazy_cons, rmatch_atom_cons.
    cbn [atom_ok]. rewrite (Ascii.eqb_sym "." c), Hc. unfold is_newline. rewrite Hn.
    cbn [map app negb]. rewrite head_map, (IH Hdot Hnl). reflexivity.
Qed.

Lemma findall_stream_path (name suffix' : string) :
  has_char "."%char name = false -> has_char newline name = false ->
  has_char newline suffix' = false ->
  exists rest,
    findall false path_re (stream_path name suffix') = [(1, name); (2, suffix')] :: rest.
Proof.
  intros Hdot Hnl Hs. rewrite findall_unfold.
  assert (match_here false path_re (stream_path name suffix')
          = Some (stream_path name suffix', [(1, name); (2, suffix')], EmptyString)) as E.
  { unfold match_here, path_re, stream_path. rewrite rmatch_atom_cons.
    cbn [atom_ok]. rewrite Ascii.eqb_refl, head_map.
    rewrite (path_inner_head _ _ Hdot Hnl Hs). reflexivity. }
  rewrite (search_here _ _ _ _ E). unfold stream_path. eexists. reflexivity.
Qed.

(** ** [chop_request_path] and [handle_headers] *)

Lemma for_break_find {A} (p : A -> bool) (l : list A) (var : option A) :
  for_break p l var =
  match find p l with
  | Some x => (Some x, Some x)
  | None => (None, snd (for_break p l var))
  end.
Proof.
  revert var. induction l as [|x l IH]; intros var; simpl.
  - reflexivity.
  - destruct (p x); [reflexivity|]. apply IH.
Qed.

(** The loop variables returned are the values chosen; the method never
    runs into an unbound one. *)
Lemma chop_request_path_spec (server : StreamServer) (path : string) :
  chop_request_path server path =
  Some match findall false path_re path with
       | [] => (None, None)
       | m :: _ =>
           match first_bridge (group 1 m) (bridges server),
                 first_encoder (group 2 m) (encoders server) with
           | Some b, Some e => (Some b, Some e)
           | _, _ => (None, None)
           end
       end.
Proof.
  unfold chop_request_path, first_bridge, first_encoder.
  destruct (findall false path_re path) as [|m l]; [reflexivity|].
  rewrite (for_break_find _ (encoders server)), (for_break_find _ (bridges server)).
  destruct (find _ (encoders server)) as [e|]; destruct (find _ (bridges server)) as [b|];
    try reflexivity.
  all: cbn [snd]; repeat (destruct (for_break _ _ None) as [? ?]); reflexivity.
Qed.

Lemma handle_headers_stream_path (server : StreamServer) (name suffix' : string) :
  has_char "."%char name = false -> has_char newline name = false ->
  has_char newline suffix' = false ->
  handle_headers server (stream_path name suffix') =
  Some match first_bridge name (bridges server),
             first_encoder suffix' (encoders server) with
       | Some b, Some e =>
           mkHandled [send_response 200;
                      send_header "Content-Type" (mime_type e);
                      end_headers]
                     [LogRequestedURL (stream_path name suffix')]
                     (Some b, Some e)
       | _, _ =>
           mkHandled [send_error 404
                        (String.append "File not found: " (stream_path name suffix'))]
                     [LogRequestedURL (stream_path name suffix');
                      LogError404 (stream_path name suffix')]
                     (None, None)
       end.
Proof.
  intros Hdot Hnl Hs. unfold handle_headers.
  rewrite chop_request_path_spec.
  destruct (findall_stream_path _ _ Hdot Hnl Hs) as [rest ->].
  cbn [group Nat.eqb].
  destruct (first_bridge name (bridges server)) as [b|];
    destruct (first_encoder suffix' (encoders server)) as [e|]; reflexivity.
Qed.

Lemma handle_headers_total (server : StreamServer) (path : string) :
  exists h, handle_headers server path = Some h.
Proof.
  unfold handle_headers. rewrite chop_request_path_spec.
  destruct (findall false path_re path) as [|m l]; [eexists; reflexivity|].
  destruct (first_bridge (group 1 m) (bridges server)) as [b|];
    destruct (first_encoder (group 2 m) (encoders server)) as [e|];
    eexists; reflexivity.
Qed.

(** ** [StreamManager.get_stream] *)

Lemma get_stream_existing path bridge encoder (sm : StreamManager) (r : ref) :
  streams sm !! path = Some r -> get_stream path bridge encoder sm = (r, sm).
Proof. intros H. unfold get_stream. rewrite H. reflexivity. Qed.

Lemma get_stream_new path bridge encoder (sm : StreamManager) :
  streams sm !! path = None ->
  get_stream path bridge encoder sm =
  (fresh (dom (heap sm)),
   mkStreamManager (<[path := fresh (dom (heap sm))]> (streams sm))
     (<[fresh (dom (heap sm)) :=
          new_ProcessStream path (mkRecorder (monitor (sink bridge))) encoder]> (heap sm))).
Proof. intros H. unfold get_stream. rewrite H. reflexivity. Qed.

Lemma fresh_not_in_heap (sm : StreamManager) : heap sm !! fresh (dom (heap sm)) = None.
Proof. apply not_elem_of_dom. apply is_fresh. Qed.

Lemma get_stream_stored path bridge encoder (sm : StreamManager) :
  streams (snd (get_stream path bridge encoder sm)) !! path
  = Some (fst (get_stream path bridge encoder sm)).
Proof.
  destruct (streams sm !! path) as [r|] eqn:E.
  - rewrite (get_stream_existing _ _ _ _ _ E). exact E.
  - rewrite (get_stream_new _ _ _ _ E). simpl. apply lookup_insert_eq.
Qed.

(** An entry of the registry is never replaced or removed. *)
Lemma get_stream_keeps path bridge encoder (sm : StreamManager) (p : string) (r : ref) :
  streams sm !! p = Some r ->
  streams (snd (get_stream path bridge encoder sm)) !! p = Some r.
Proof.
  intros H. destruct (streams sm !! path) as [r0|] eqn:E.
  - rewrite (get_stream_existing _ _ _ _ _ E). exact H.
  - rewrite (get_stream_new _ _ _ _ E). simpl.
    rewrite lookup_insert_ne; [exact H|]. intros ->. congruence.
Qed.

Lemma get_streams_keeps calls (sm : StreamManager) (p : string) (r : ref) :
  streams sm !! p = Some r -> streams (get_streams calls sm) !! p = Some r.
Proof.
  revert sm. induction calls as [|[[p' b] e] calls IH]; intros sm H; [exact H|].
  simpl. apply IH. apply get_stream_keeps. exact H.
Qed.

Lemma get_stream_registry_ok path bridge encoder (sm : StreamManager) :
  registry_ok sm -> registry_ok (snd (get_stream path bridge encoder sm)).
Proof.
  intros Hok. destruct (streams sm !! path) as [r0|] eqn:E.
  - rewrite (get_stream_existing _ _ _ _ _ E). exact Hok.
  - rewrite (get_stream_new _ _ _ _ E). intros p r. simpl.
    destruct (decide (path = p)) as [->|Hne].
    + rewrite lookup_insert_eq. intros [= <-]. rewrite lookup_insert_eq. eauto.
    + rewrite lookup_insert_ne by assumption. intros H.
      destruct (Hok _ _ H) as [ps Hps].
      destruct (decide (fresh (dom (heap sm)) = r)) as [<-|Hr].
      * rewrite fresh_not_in_heap in Hps. discriminate.
      * rewrite lookup_insert_ne by assumption. eauto.
Qed.

Lemma new_StreamManager_ok : registry_ok new_StreamManager.
Proof. intros p r H. simpl in H. rewrite lookup_empty in H. discriminate. Qed.

(** C7.  [get_stream] returns the stream already stored under the path
    and leaves the registry as it is; when there is none it makes a new
    stream object, stores it under the path and returns it.  Hence a
    later call with the same path, whatever calls come in between,
    returns the same object, and the registry, a map from paths, holds
    one object per path. *)
Theorem get_stream_one_object_per_path
    (sm : StreamManager) (path : string) (bridge : Bridge) (encoder : Encoder) :
  let r := fst (get_stream path bridge encoder sm) in
  let sm' := snd (get_stream path bridge encoder sm) in
  (forall r0, streams sm !! path = Some r0 -> r = r0 /\ sm' = sm)
  /\ (streams sm !! path = None ->
        heap sm !! r = None
        /\ heap sm' = <[r := new_ProcessStream path (mkRecorder (monitor (sink bridge)))
                                encoder]> (heap sm)
        /\ streams sm' = <[path := r]> (streams sm))
  /\ streams sm' !! path = Some r
  /\ (forall calls bridge' encoder',
        get_stream path bridge' encoder' (get_streams calls sm')
        = (r, get_streams calls sm')).
Proof.
  cbv zeta. split; [|split; [|split]].
  - intros r0 H. rewrite (get_stream_existing _ _ _ _ _ H). auto.
  - intros H. rewrite (get_stream_new _ _ _ _ H). simpl.
    split; [apply fresh_not_in_heap|]. auto.
  - apply get_stream_stored.
  - intros calls bridge' encoder'. apply get_stream_existing.
    apply get_streams_keeps. apply get_stream_stored.
Qed.

Lemma get_stream_one_object_per_path_witness :
  let sm1 := snd (get_stream "/livingroom.mp3" example_bridge example_encoder
                    new_StreamManager) in
  get_stream "/livingroom.mp3" dotted_bridge example_encoder
    (get_streams [("/kitchen.mp3", dotted_bridge, example_encoder)] sm1)
  = (fst (get_stream "/livingroom.mp3" example_bridge example_encoder new_StreamManager),
     get_streams [("/kitchen.mp3", dotted_bridge, example_encoder)] sm1).
Proof.
  cbv zeta.
  apply (get_stream_one_object_per_path new_StreamManager "/livingroom.mp3"
           example_bridge example_encoder).
Defined.

(** ** [do_HEAD] and [do_GET] *)

Lemma do_GET_response env server path request (ss : ServerState) :
  registry_ok (stream_manager ss) ->
  option_map (fun hs => wfile (fst hs)) (do_GET env server path request ss)
  = option_map wfile (handle_headers server path).
Proof.
  intros Hok. unfold do_GET.
  destruct (handle_headers_total server path) as [h ->].
  destruct (returned h) as [[b|] [e|]]; try reflexivity.
  destruct (get_stream path b e (stream_manager ss)) as [r sm] eqn:E.
  pose proof (get_stream_registry_ok path b e _ Hok) as Hok'.
  pose proof (get_stream_stored path b e (stream_manager ss)) as Hst.
  rewrite E in Hok', Hst. simpl in Hok', Hst.
  destruct (Hok' _ _ Hst) as [ps Hps].
  unfold on_stream. simpl. rewrite Hps. reflexivity.
Qed.

Lemma response_handle_headers method env server path request (ss : ServerState) :
  registry_ok (stream_manager ss) ->
  response method env server path request ss
  = option_map wfile (handle_headers server path).
Proof.
  intros Hok. destruct method; simpl.
  - unfold do_HEAD. destruct (handle_headers server path); reflexivity.
  - apply do_GET_response. assumption.
Qed.

Lemma first_bridge_some (name : string) (l : list Bridge) :
  (exists b, In b l /\ short_name (upnp_device b) = name) ->
  exists b, first_bridge name l = Some b.
Proof.
  intros [b [Hin Hn]]. unfold first_bridge.
  destruct (find _ l) as [b'|] eqn:E; [eauto|].
  apply (find_none _ _ E) in Hin. rewrite Hn, String.eqb_refl in Hin. discriminate.
Qed.

Lemma first_encoder_some (suffix' : string) (l : list Encoder) :
  (exists e, In e l /\ suffix e = suffix') ->
  exists e, first_encoder suffix' l = Some e.
Proof.
  intros [e [Hin Hn]]. unfold first_encoder.
  destruct (find _ l) as [e'|] eqn:E; [eauto|].
  apply (find_none _ _ E) in Hin. rewrite Hn, String.eqb_refl in Hin. discriminate.
Qed.

Lemma first_bridge_none (name : string) (l : list Bridge) :
  ~ (exists b, In b l /\ short_name (upnp_device b) = name) ->
  first_bridge name l = None.
Proof.
  intros Hn. unfold first_bridge. destruct (find _ l) as [b|] eqn:E; [|reflexivity].
  exfalso. apply Hn. apply find_some in E as [Hin Hb].
  apply String.eqb_eq in Hb. eauto.
Qed.

Lemma first_encoder_none (suffix' : string) (l : list Encoder) :
  ~ (exists e, In e l /\ suffix e = suffix') ->
  first_encoder suffix' l = None.
Proof.
  intros Hn. unfold first_encoder. destruct (find _ l) as [e|] eqn:E; [|reflexivity].
  exfalso. apply Hn. apply find_some in E as [Hin He].
  apply String.eqb_eq in He. eauto.
Qed.

(** C6, as stated, fails: a device whose short name contains a dot is in
    the list, an encoder with the suffix is in the list, and the request
    for name.suffix is answered 404.  The pattern cuts the path at its
    first dot, so the name looked up is [living] and the suffix
    [room.mp3]. *)
Lemma dotted_name_gets_404 :
  (exists b, In b (bridges dotted_server)
             /\ short_name (upnp_device b) = "living.room")
  /\ (exists e, In e (encoders dotted_server) /\ suffix e = "mp3")
  /\ stream_path "living.room" "mp3" = "/living.room.mp3"
  /\ (forall method,
        option_map status
          (response method example_env dotted_server "/living.room.mp3" 4
             (mkServerState new_StreamManager empty_world))
        = Some (Some 404%Z)).
Proof.
  split; [exists dotted_bridge; split; [left|]; reflexivity|].
  split; [exists example_encoder; split; [left|]; reflexivity|].
  split; [reflexivity|].
  intros method. rewrite response_handle_headers by apply new_StreamManager_ok.
  vm_compute. reflexivity.
Qed.

(** C6, amended.  For a GET or HEAD request whose path is /name.suffix,
    where the name contains no dot and the path no line break: if some
    device of the list has that short name and some encoder of the list
    has that suffix, the response has status 200 and its Content-Type
    is the MIME type of the first encoder of the list with that suffix;
    if no device has the name or no encoder has the suffix, the
    response is 404. *)
Theorem stream_request_response (method : http_method) (env : Env)
    (server : StreamServer) (name suffix' : string) (request : sock)
    (ss : ServerState) :
  registry_ok (stream_manager ss) ->
  has_char "."%char name = false ->
  has_char newline name = false ->
  has_char newline suffix' = false ->
  ((exists b, In b (bridges server) /\ short_name (upnp_device b) = name) ->
   (exists e, In e (encoders server) /\ suffix e = suffix') ->
   exists out e1,
     response method env server (stream_path name suffix') request ss = Some out
     /\ status out = Some 200%Z
     /\ first_encoder suffix' (encoders server) = Some e1
     /\ header_value "Content-Type" out = Some (mime_type e1))
  /\ (~ (exists b, In b (bridges server) /\ short_name (upnp_device b) = name)
      \/ ~ (exists e, In e (encoders server) /\ suffix e = suffix') ->
      exists out,
        response method env server (stream_path name suffix') request ss = Some out
        /\ status out = Some 404%Z).
Proof.
  intros Hok Hdot Hnl Hs.
  rewrite (response_handle_headers _ _ _ _ _ _ Hok).
  rewrite (handle_headers_stream_path _ _ _ Hdot Hnl Hs).
  split.
  - intros Hb He.
    destruct (first_bridge_some _ _ Hb) as [b ->].
    destruct (first_encoder_some _ _ He) as [e ->].
    eexists _, e. repeat split; reflexivity.
  - intros [Hb|He].
    + rewrite (first_bridge_none _ _ Hb). eexists. split; reflexivity.
    + rewrite (first_encoder_none _ _ He).
      destruct (first_bridge name (bridges server)); eexists; split; reflexivity.
Qed.

Lemma stream_request_response_witness :
  (exists out e1,
     response GET example_env example_server "/livingroom.mp3" 4
       (mkServerState new_StreamManager empty_world) = Some out
     /\ status out = Some 200%Z
     /\ first_encoder "mp3" (encoders example_server) = Some e1
     /\ header_value "Content-Type" out = Some (mime_type e1))
  /\ (exists out,
        response HEAD example_env example_server "/livingroom.flac" 4
          (mkServerState new_StreamManager empty_world) = Some out
        /\ status out = Some 404%Z).
Proof.
  split.
  - apply (stream_request_response GET example_env example_server "livingroom" "mp3" 4
             (mkServerState new_StreamManager empty_world)).
    + intros p r H. vm_compute in H. discriminate.
    + vm_compute. reflexivity.
    + vm_compute. reflexivity.
    + vm_compute. reflexivity.
    + exists example_bridge. split; [left|]; reflexivity.
    + exists example_encoder. split; [left|]; reflexivity.
  - apply (stream_request_response HEAD example_env example_server "livingroom" "flac" 4
             (mkServerState new_StreamManager empty_world)).
    + intros p r H. vm_compute in H. discriminate.
    + vm_compute. reflexivity.
    + vm_compute. reflexivity.
    + vm_compute. reflexivity.
    + right. intros [e [[<-|[]] He]]. vm_compute in He. discriminate.
Defined.

(** ** [register] and [unregister] *)

Ltac unfold_monad :=
  unfold try_finally, except_socket_error, except_pass, when, sys_exit,
    logging_info, lock_acquire, lock_release, sock_close, pause, modify, gets,
    raise, bind, ret in *.

Ltac unfold_updates :=
  unfold add_log, set_stream, set_world, with_recorder_process,
    with_encoder_process, with_sockets, with_lock, with_client_count,
    with_update_thread, with_procs, with_received, with_closed, with_log in *;
  cbn [stream world path recorder encoder recorder_process encoder_process
       sockets chunk_size lock client_count update_thread is_running th_lock
       procs received closed log] in *.

Lemma register_tracked env bridge (s : sock) (lock_override : bool) (st : State) :
  is_Some (sockets (stream st) !! s) ->
  register env bridge s lock_override st
  = Raise (SystemExit 2) (add_log LogSameClientRegisters st).
Proof.
  intros H. unfold register. unfold_monad.
  rewrite bool_decide_eq_true_2 by assumption. reflexivity.
Qed.

Lemma unregister_untracked (s : sock) (lock_override : bool) (method : nat) (st : State) :
  sockets (stream st) !! s = None ->
  unregister s lock_override method st
  = Raise (SystemExit 2) (add_log LogNotRegistered st).
Proof.
  intros H. unfold unregister. unfold_monad. rewrite H. reflexivity.
Qed.

Lemma _kill_process_run (h : option pid) (st : State) :
  _kill_process h st
  = Return tt (set_world (fun w => with_procs (kill_handle h (procs w)) w) st).
Proof.
  destruct st as [ps [pr rc cl lg]]. unfold _kill_process, kill. unfold_monad.
  unfold set_world, with_procs, kill_handle.
  destruct h as [p|]; simpl; [|reflexivity].
  destruct (pr !! p) as [x|]; [|reflexivity].
  destruct (running x); reflexivity.
Qed.

Lemma cleanup_run (st : State) :
  cleanup st
  = Return tt (set_world (fun w =>
      with_procs (kill_handle (recorder_process (stream st))
                    (kill_handle (encoder_process (stream st)) (procs w))) w) st).
Proof.
  unfold cleanup. unfold bind at 1. unfold gets at 1.
  unfold bind at 1. rewrite _kill_process_run.
  unfold bind, gets. rewrite _kill_process_run.
  destruct st as [ps [pr rc cl lg]]. reflexivity.
Qed.

Lemma register_untracked env bridge (s : sock) (lock_override : bool) (st : State) :
  sockets (stream st) !! s = None ->
  register env bridge s lock_override st =
  if negb lock_override && lock (stream st) then Hang
  else if negb (is_running (update_thread (stream st)))
          && negb (th_lock (update_thread (stream st)))
       then Raise ThreadError (registered env bridge s st)
       else Return tt (registered env bridge s st).
Proof.
  intros H. unfold register, registered, device_of, new_RemoteDevice, resume.
  destruct st as [[pa rc en rp ep so ch lk cc [ir ga]] [pr rv cl lg]].
  simpl in H. unfold_monad. simpl.
  rewrite bool_decide_eq_false_2 by (rewrite H; apply is_Some_None).
  destruct lock_override, lk, (getsockname env s) as [[ip port]|], ir, ga.
  all: cbn [negb andb]; unfold_updates.
  all: rewrite <- ?app_assoc; reflexivity.
Qed.

Lemma unregister_tracked (s : sock) (device : RemoteDevice) (lock_override : bool)
    (method : nat) (st : State) :
  sockets (stream st) !! s = Some device ->
  unregister s lock_override method st =
  if negb lock_override && lock (stream st) then Hang
  else Return tt (unregistered s device method st).
Proof.
  intros H. unfold unregister, unregistered.
  unfold bind at 1. unfold gets at 1. rewrite H.
  destruct st as [[pa rc en rp ep so ch lk cc [ir ga]] [pr rv cl lg]].
  simpl in H.
  destruct lock_override, lk; unfold_monad; simpl; rewrite ?H; simpl;
    try reflexivity.
  all: unfold_updates; destruct (size (delete s so) =? 0)%nat eqn:E; simpl;
    rewrite ?cleanup_run; simpl; unfold_updates; rewrite <- ?app_assoc;
    reflexivity.
Qed.

(** C2, as stated, fails: a second [register] of a tracked socket is not
    a local error, it calls [sys.exit(2)]. *)
Lemma duplicate_register_asks_to_exit :
  is_Some (sockets (stream four_clients) !! 5)
  /\ asks_to_exit (register example_env example_bridge 5 false four_clients).
Proof.
  assert (is_Some (sockets (stream four_clients) !! 5)) as H.
  { vm_compute. eauto. }
  split; [exact H|]. rewrite (register_tracked _ _ _ _ _ H). exact I.
Qed.

(** C2, amended.  For every stream and every socket already in its
    table, [register] with that socket logs the event and raises
    [SystemExit] with status 2; the table of sockets and the count of
    clients are as before the call. *)
Theorem duplicate_register_raises_SystemExit
    (env : Env) (bridge : Bridge) (s : sock) (lock_override : bool) (st : State) :
  is_Some (sockets (stream st) !! s) ->
  exists st',
    register env bridge s lock_override st = Raise (SystemExit 2) st'
    /\ sockets (stream st') = sockets (stream st)
    /\ client_count (stream st') = client_count (stream st)
    /\ log (world st') = log (world st) ++ [LogSameClientRegisters].
Proof.
  intros H. exists (add_log LogSameClientRegisters st).
  split; [apply register_tracked; assumption|].
  destruct st as [ps w]. repeat split; reflexivity.
Qed.

Lemma duplicate_register_raises_SystemExit_witness :
  exists st',
    register example_env example_bridge 5 false four_clients = Raise (SystemExit 2) st'
    /\ sockets (stream st') = sockets (stream four_clients)
    /\ client_count (stream st') = client_count (stream four_clients)
    /\ log (world st') = log (world four_clients) ++ [LogSameClientRegisters].
Proof.
  apply (duplicate_register_raises_SystemExit example_env example_bridge 5 false
           four_clients).
  vm_compute. eauto.
Defined.

(** C3, as stated, fails: [unregister] of a socket that is not tracked
    calls [sys.exit(2)]. *)
Lemma stray_unregister_asks_to_exit :
  sockets (stream four_clients) !! 4 = None
  /\ asks_to_exit (unregister 4 false 0 four_clients).
Proof.
  assert (sockets (stream four_clients) !! 4 = None) as H.
  { vm_compute. reflexivity. }
  split; [exact H|]. rewrite (unregister_untracked _ _ _ _ H). exact I.
Qed.

(** C3, amended.  For every stream and every socket not in its table,
    [unregister] with that socket changes neither the table of sockets,
    nor the count of clients, nor the process handles, nor the
    processes; it logs the event and raises [SystemExit] with status
    2. *)
Theorem stray_unregister_raises_SystemExit
    (s : sock) (lock_override : bool) (method : nat) (st : State) :
  sockets (stream st) !! s = None ->
  exists st',
    unregister s lock_override method st = Raise (SystemExit 2) st'
    /\ stream st' = stream st
    /\ procs (world st') = procs (world st)
    /\ closed (world st') = closed (world st)
    /\ log (world st') = log (world st) ++ [LogNotRegistered].
Proof.
  intros H. exists (add_log LogNotRegistered st).
  split; [apply unregister_untracked; assumption|].
  destruct st as [ps w]. repeat split; reflexivity.
Qed.

Lemma stray_unregister_raises_SystemExit_witness :
  exists st',
    unregister 4 false 0 four_clients = Raise (SystemExit 2) st'
    /\ stream st' = stream four_clients
    /\ procs (world st') = procs (world four_clients)
    /\ closed (world st') = closed (world four_clients)
    /\ log (world st') = log (world four_clients) ++ [LogNotRegistered].
Proof.
  apply (stray_unregister_raises_SystemExit 4 false 0 four_clients).
  vm_compute. reflexivity.
Defined.

(** ** The count of clients *)

Lemma register_count_inv env bridge (s : sock) (lock_override : bool) (st st' : State) :
  count_inv st ->
  final_state (register env bridge s lock_override st) = Some st' ->
  count_inv st'.
Proof.
  unfold count_inv. intros Hinv H.
  destruct (sockets (stream st) !! s) as [d|] eqn:E.
  - rewrite register_tracked in H by eauto. simpl in H. inversion H; subst.
    destruct st as [ps w]. exact Hinv.
  - rewrite (register_untracked _ _ _ _ _ E) in H.
    assert (st' = registered env bridge s st) as ->.
    { destruct (negb lock_override && lock (stream st)); [discriminate|].
      destruct (negb _ && negb _); simpl in H; congruence. }
    simpl. rewrite (map_size_insert_None _ _ _ E). lia.
Qed.

Lemma unregister_count_inv (s : sock) (lock_override : bool) (method : nat)
    (st st' : State) :
  count_inv st ->
  final_state (unregister s lock_override method st) = Some st' ->
  count_inv st'.
Proof.
  unfold count_inv. intros Hinv H.
  destruct (sockets (stream st) !! s) as [d|] eqn:E.
  - rewrite (unregister_tracked _ _ _ _ _ E) in H.
    destruct (negb lock_override && lock (stream st)); [discriminate|].
    simpl in H. inversion H; subst. simpl.
    pose proof (map_size_delete_Some s (sockets (stream st))) as Hs.
    assert (size (sockets (stream st)) <> 0) as Hne.
    { apply map_size_ne_0_lookup_2 with s. eauto. }
    rewrite Hs by eauto. lia.
  - rewrite (unregister_untracked _ _ _ _ E) in H. simpl in H. inversion H; subst.
    destruct st as [ps w]. exact Hinv.
Qed.

Lemma run_call_lock_free (c : call) (st : State) :
  lock (stream st) = false ->
  exists st', final_state (run_call c st) = Some st' /\ lock (stream st') = false.
Proof.
  intros Hl. destruct c as [env bridge s|s method]; simpl.
  - destruct (sockets (stream st) !! s) as [d|] eqn:E.
    + rewrite register_tracked by eauto. eexists. split; [reflexivity|].
      destruct st as [ps w]. exact Hl.
    + rewrite (register_untracked _ _ _ _ _ E), Hl. simpl.
      exists (registered env bridge s st). split; [|exact Hl].
      destruct (negb _ && negb _); reflexivity.
  - destruct (sockets (stream st) !! s) as [d|] eqn:E.
    + rewrite (unregister_tracked _ _ _ _ _ E), Hl. simpl.
      eexists. split; [reflexivity|exact Hl].
    + rewrite (unregister_untracked _ _ _ _ E). eexists. split; [reflexivity|].
      destruct st as [ps w]. exact Hl.
Qed.

Lemma run_calls_inv (cs : list call) (st : State) :
  count_inv st -> lock (stream st) = false ->
  count_inv (run_calls cs st) /\ lock (stream (run_calls cs st)) = false.
Proof.
  revert st. induction cs as [|c cs IH]; intros st Hinv Hl; [auto|].
  simpl. destruct (run_call_lock_free c st Hl) as [st' [Hst' Hl']].
  rewrite Hst'. simpl. apply IH; [|exact Hl'].
  destruct c as [env bridge s|s method]; simpl in Hst'.
  - eapply register_count_inv; eauto.
  - eapply unregister_count_inv; eauto.
Qed.

(** C8.  [register] and [unregister] keep the count of clients equal to
    the number of entries of the socket table, whenever they come back
    (by return or by exception); called from request threads on a stream
    whose lock is free they do come back; so after any series of such
    calls on a new stream the count equals the size of the table. *)
Theorem client_count_is_table_size :
  (forall env bridge s lock_override st st',
      count_inv st ->
      final_state (register env bridge s lock_override st) = Some st' ->
      count_inv st')
  /\ (forall s lock_override method st st',
        count_inv st ->
        final_state (unregister s lock_override method st) = Some st' ->
        count_inv st')
  /\ (forall c st,
        lock (stream st) = false ->
        exists st', final_state (run_call c st) = Some st'
                    /\ lock (stream st') = false)
  /\ (forall path recorder encoder w cs,
        count_inv (run_calls cs (initial_state path recorder encoder w))).
Proof.
  split; [exact register_count_inv|].
  split; [exact unregister_count_inv|].
  split; [exact run_call_lock_free|].
  intros path recorder encoder w cs.
  apply run_calls_inv; reflexivity.
Qed.

Lemma client_count_is_table_size_witness :
  count_inv four_clients
  /\ count_inv (default four_clients
                  (final_state (unregister 7 false 0 four_clients))).
Proof.
  destruct client_count_is_table_size as (_ & Hun & _ & Hall).
  assert (count_inv four_clients) as H by apply Hall.
  split; [exact H|].
  apply (Hun 7 false 0%nat four_clients); [exact H|].
  vm_compute. reflexivity.
Defined.

(** ** Rules for assertions *)

Lemma triple_conseq {A} (P P' : State -> Prop) (m : M A)
    (Qr Qr' : A -> State -> Prop) (Qx Qx' : exn -> State -> Prop) (Qd Qd' : Prop) :
  triple P' m Qr' Qx' Qd' ->
  (forall st, P st -> P' st) ->
  (forall a st, Qr' a st -> Qr a st) ->
  (forall e st, Qx' e st -> Qx e st) ->
  (Qd' -> Qd) ->
  triple P m Qr Qx Qd.
Proof.
  intros H HP Hr Hx Hd st Hst. specialize (H st (HP st Hst)).
  destruct (m st); simpl in *; auto.
Qed.

Lemma triple_ret {A} (P : State -> Prop) (a : A) Qx Qd :
  triple P (ret a) (fun a' st => a' = a /\ P st) Qx Qd.
Proof. intros st H. simpl. auto. Qed.

Lemma triple_gets {A} (P : State -> Prop) (f : State -> A) Qx Qd :
  triple P (gets f) (fun a st => a = f st /\ P st) Qx Qd.
Proof. intros st H. simpl. auto. Qed.

Lemma triple_bind {A B} (P : State -> Prop) (m : M A) (f : A -> M B)
    (Q1 : A -> State -> Prop) (Qr : B -> State -> Prop) Qx Qd :
  triple P m Q1 Qx Qd ->
  (forall a, triple (Q1 a) (f a) Qr Qx Qd) ->
  triple P (bind m f) Qr Qx Qd.
Proof.
  intros Hm Hf st Hst. specialize (Hm st Hst). unfold bind.
  destruct (m st) as [a st'| | |]; simpl in *; auto.
  apply (Hf a st' Hm).
Qed.

Lemma triple_try_finally {A} (P : State -> Prop) (body : M A) (fin : M unit)
    (Q1 : A -> State -> Prop) (X1 : exn -> State -> Prop)
    (Qr : A -> State -> Prop) Qx Qd :
  triple P body Q1 X1 Qd ->
  (forall a, triple (Q1 a) fin (fun _ => Qr a) Qx Qd) ->
  (forall e, triple (X1 e) fin (fun _ => Qx e) Qx Qd) ->
  triple P (try_finally body fin) Qr Qx Qd.
Proof.
  intros Hb Hr Hx st Hst. specialize (Hb st Hst). unfold try_finally, bind, ret, raise.
  destruct (body st) as [a st'|e st'| |]; simpl in *; auto.
  - specialize (Hr a st' Hb). destruct (fin st'); simpl in *; auto.
  - specialize (Hx e st' Hb). destruct (fin st'); simpl in *; auto.
Qed.

Lemma triple_except_socket_error {A} (P : State -> Prop) (body handler : M A)
    (X1 : exn -> State -> Prop) (Qr : A -> State -> Prop) Qx Qd :
  triple P body Qr X1 Qd ->
  triple (X1 socket_error) handler Qr Qx Qd ->
  (forall e st, e <> socket_error -> X1 e st -> Qx e st) ->
  triple P (except_socket_error body handler) Qr Qx Qd.
Proof.
  intros Hb Hh Hx st Hst. specialize (Hb st Hst). unfold except_socket_error.
  destruct (body st) as [a st'|e st'| |]; simpl in *; auto.
  destruct e; try (apply Hx; [discriminate|assumption]).
  apply Hh. assumption.
Qed.

(** A loop, with an invariant that knows what is still to come. *)
Lemma triple_for_each {A} (I : list A -> State -> Prop) (l : list A)
    (body : A -> M unit) Qx Qd :
  (forall x rest, triple (I (x :: rest)) (body x) (fun _ => I rest) Qx Qd) ->
  triple (I l) (for_each l body) (fun _ => I []) Qx Qd.
Proof.
  intros Hb. induction l as [|x l IH]; cbn [for_each].
  - intros st H. exact H.
  - eapply triple_bind; [apply Hb|]. intros ?. exact IH.
Qed.

Section Keeps.
Context (I : State -> Prop).

Lemma keeps_ret {A} (a : A) : keeps I (ret a).
Proof. intros st H. exact H. Qed.

Lemma keeps_raise {A} (e : exn) : keeps I (raise (A:=A) e).
Proof. intros st H. exact H. Qed.

Lemma keeps_gets {A} (f : State -> A) : keeps I (gets f).
Proof. intros st H. exact H. Qed.

Lemma keeps_modify (f : State -> State) :
  (forall st, I st -> I (f st)) -> keeps I (modify f).
Proof. intros Hf st H. apply Hf. exact H. Qed.

Lemma keeps_bind {A B} (m : M A) (f : A -> M B) :
  keeps I m -> (forall a, keeps I (f a)) -> keeps I (bind m f).
Proof. intros Hm Hf. eapply triple_bind; [exact Hm|]. exact Hf. Qed.

Lemma keeps_when (b : bool) (m : M unit) : keeps I m -> keeps I (when b m).
Proof. intros Hm. destruct b; [exact Hm|apply keeps_ret]. Qed.

Lemma keeps_try_finally {A} (body : M A) (fin : M unit) :
  keeps I body -> keeps I fin -> keeps I (try_finally body fin).
Proof.
  intros Hb Hf. eapply triple_try_finally; [exact Hb| |]; intros; exact Hf.
Qed.

Lemma keeps_except_socket_error {A} (body handler : M A) :
  keeps I body -> keeps I handler -> keeps I (except_socket_error body handler).
Proof.
  intros Hb Hh. eapply triple_except_socket_error; [exact Hb|exact Hh|].
  intros e st _ H. exact H.
Qed.

Lemma keeps_except_pass (body : M unit) : keeps I body -> keeps I (except_pass body).
Proof.
  intros Hb st Hst. specialize (Hb st Hst). unfold except_pass.
  destruct (body st); simpl in *; auto.
Qed.

Lemma keeps_for_each {A} (l : list A) (body : A -> M unit) :
  (forall x, keeps I (body x)) -> keeps I (for_each l body).
Proof.
  intros Hb. apply (triple_for_each (fun _ => I)). intros x _. apply Hb.
Qed.

(** A method whose final state is the initial one or one of a few
    named updates of it. *)
Lemma keeps_final {A} (m : M A) :
  (forall st st', I st -> final_state (m st) = Some st' -> I st') -> keeps I m.
Proof.
  intros H st Hst. specialize (H st).
  destruct (m st) as [a st'|e st'| |]; simpl in *; auto.
Qed.
End Keeps.

Lemma keeps_final_state {A} (I : State -> Prop) (m : M A) (st st' : State) :
  keeps I m -> I st -> final_state (m st) = Some st' -> I st'.
Proof.
  intros Hk Hst H. specialize (Hk st Hst).
  destruct (m st); simpl in *; inversion H; subst; assumption.
Qed.

(** ** The parts of a tick *)

Lemma bind_assoc {A B C} (m : M A) (f : A -> M B) (g : B -> M C) (st : State) :
  bind (bind m f) g st = bind m (fun a => bind (f a) g) st.
Proof. unfold bind. destruct (m st); reflexivity. Qed.

Lemma bind_ext {A B} (m : M A) (f f' : A -> M B) (st : State) :
  (forall a st', f a st' = f' a st') -> bind m f st = bind m f' st.
Proof. intros H. unfold bind. destruct (m st); auto. Qed.

Lemma communicate_parts (fuel : nat) (env : Env) :
  communicate fuel env
  = try_finally (lock_acquire ;;; tick_head_then env (tick_tail fuel env)) lock_release.
Proof. reflexivity. Qed.

Lemma tick_head_then_bind {A} (env : Env) (k : bytes -> M A) (st : State) :
  tick_head_then env k st = bind (tick_head env) k st.
Proof.
  unfold tick_head, tick_head_then. symmetry.
  repeat (rewrite bind_assoc; apply bind_ext; intros).
  reflexivity.
Qed.

(** ** What the methods keep *)

Section HeadStable.
Context (I : State -> Prop) (HI : head_stable I).

Lemma keeps_logging_info (m : log_msg) : keeps I (logging_info m).
Proof. intros st H. apply (hs_log I HI st (log (world st) ++ [m]) H). Qed.

Lemma triple_Popen (env : Env) (argv : list string) :
  triple I (Popen env argv)
    (fun p st' => exists st, I st /\ p = new_pid st /\ st' = spawned env argv st)
    (fun _ => I) True.
Proof.
  intros st H. unfold Popen. destruct (can_spawn env argv); simpl; [|exact H].
  exists st. auto.
Qed.

Lemma keeps_create_processes (env : Env) : keeps I (create_processes env).
Proof.
  unfold create_processes.
  apply keeps_bind; [apply keeps_gets|]. intros rec.
  eapply triple_bind; [apply triple_Popen|]. intros p.
  eapply triple_bind with (Q1 := fun _ => I).
  { intros st' (st & Hst & -> & ->). apply (hs_spawn_recorder I HI). exact Hst. }
  intros ?. apply keeps_bind; [apply keeps_gets|]. intros enc.
  eapply triple_bind; [apply triple_Popen|]. intros q.
  intros st' (st & Hst & -> & ->). apply (hs_spawn_encoder I HI). exact Hst.
Qed.

Lemma keeps__kill_process (h : option pid) : keeps I (_kill_process h).
Proof. intros st H. rewrite _kill_process_run. apply (hs_kill I HI). exact H. Qed.

Lemma keeps_cleanup : keeps I cleanup.
Proof.
  unfold cleanup.
  apply keeps_bind; [apply keeps_gets|]. intros e.
  apply keeps_bind; [apply keeps__kill_process|]. intros ?.
  apply keeps_bind; [apply keeps_gets|]. intros r. apply keeps__kill_process.
Qed.

Lemma keeps_poll_is_None (h : option pid) : keeps I (poll_is_None h).
Proof. destruct h; [apply keeps_gets|apply keeps_raise]. Qed.

Lemma keeps_do_processes_respond : keeps I do_processes_respond.
Proof.
  unfold do_processes_respond.
  apply keeps_bind; [apply keeps_gets|]. intros r.
  apply keeps_bind; [apply keeps_poll_is_None|]. intros [|]; [|apply keeps_ret].
  apply keeps_bind; [apply keeps_gets|]. intros e. apply keeps_poll_is_None.
Qed.

Lemma stdout_read_run (p : pid) (n : Z) (st : State) :
  stdout_read (Some p) n st
  = match procs (world st) !! p with
    | Some pr => Return (take (Z.to_nat n) (stdout pr)) (consumed p n st)
    | None => Return [] st
    end.
Proof.
  unfold stdout_read, consumed. unfold_updates.
  destruct (procs (world st) !! p); reflexivity.
Qed.

Lemma keeps_read_chunk {A} (k : bytes -> M A) :
  (forall data, keeps I (k data)) ->
  keeps I (e <- gets (fun st => encoder_process (stream st)) ;;
           n <- gets (fun st => chunk_size (stream st)) ;;
           data <- stdout_read e n ;;
           k data).
Proof.
  intros Hk.
  eapply triple_bind; [apply triple_gets|]. intros e.
  eapply triple_bind; [apply triple_gets|]. intros n.
  eapply triple_bind with (Q1 := fun _ => I); [|exact Hk].
  intros st (_ & -> & H).
  destruct (encoder_process (stream st)) as [p|] eqn:E; [|exact H].
  rewrite stdout_read_run. destruct (procs (world st) !! p); simpl; [|exact H].
  apply (hs_read I HI); assumption.
Qed.

Lemma keeps_tick_head_then {A} (env : Env) (k : bytes -> M A) :
  (forall data, keeps I (k data)) -> keeps I (tick_head_then env k).
Proof.
  intros Hk. unfold tick_head_then.
  apply keeps_bind; [apply keeps_gets|]. intros exist.
  apply keeps_bind.
  { apply keeps_when. apply keeps_bind; [apply keeps_create_processes|]. intros ?.
    apply keeps_bind; [apply keeps_gets|]. intros p. apply keeps_logging_info. }
  intros ?. apply keeps_bind; [apply keeps_do_processes_respond|]. intros respond.
  apply keeps_bind.
  { apply keeps_when. apply keeps_bind; [apply keeps_cleanup|]. intros ?.
    apply keeps_bind; [apply keeps_create_processes|]. intros ?.
    apply keeps_bind; [apply keeps_gets|]. intros p. apply keeps_logging_info. }
  intros ?. apply keeps_read_chunk. exact Hk.
Qed.

Lemma keeps_tick_head (env : Env) : keeps I (tick_head env).
Proof. apply keeps_tick_head_then. intros data. apply keeps_ret. Qed.
End HeadStable.

Section TailStable.
Context (I : State -> Prop) (HI : tail_stable I).

Lemma keeps_unregister (s : sock) (lock_override : bool) (method : nat) :
  keeps I (unregister s lock_override method).
Proof.
  apply keeps_final. intros st st' Hst H.
  destruct (sockets (stream st) !! s) as [d|] eqn:E.
  - rewrite (unregister_tracked _ _ _ _ _ E) in H.
    destruct (negb lock_override && lock (stream st)); [discriminate|].
    inversion H; subst. apply (ts_unregistered I HI); assumption.
  - rewrite (unregister_untracked _ _ _ _ E) in H. inversion H; subst.
    apply (ts_log I HI). exact Hst.
Qed.

Lemma keeps_sock_send (env : Env) (s : sock) (buf : bytes) :
  keeps I (sock_send env s buf).
Proof.
  unfold sock_send. destruct (send_result env s buf); [|apply keeps_raise].
  apply keeps_bind; [|intros; apply keeps_ret].
  intros st H. apply (ts_deliver I HI st s _ H).
Qed.

Lemma keeps__send_data (fuel : nat) (env : Env) (s : sock) (data : bytes) :
  keeps I (_send_data fuel env s data).
Proof.
  unfold _send_data. generalize 0. induction fuel as [|fuel IH]; intros sent; simpl.
  - destruct (sent <? length data)%nat; [|apply keeps_ret]. intros st H. exact Logic.I.
  - destruct (sent <? length data)%nat; [|apply keeps_ret].
    apply keeps_bind; [apply keeps_sock_send|]. intros n. apply IH.
Qed.

Lemma keeps_send_to_writable fuel env (w : list sock) (data : bytes) :
  keeps I (send_to_writable fuel env w data).
Proof.
  apply keeps_for_each. intros s.
  apply keeps_except_socket_error; [apply keeps__send_data|apply keeps_unregister].
Qed.

Lemma keeps_sock_recv (env : Env) (s : sock) : keeps I (sock_recv env s).
Proof. unfold sock_recv. destruct (recv_result env s); [apply keeps_ret|apply keeps_raise]. Qed.

Lemma keeps_recv_from_readable env (r : list sock) :
  keeps I (recv_from_readable env r).
Proof.
  apply keeps_for_each. intros s.
  apply keeps_bind; [apply keeps_gets|]. intros tracked. apply keeps_when.
  apply keeps_except_socket_error; [|apply keeps_unregister].
  apply keeps_bind; [apply keeps_sock_recv|]. intros b.
  apply keeps_when. apply keeps_unregister.
Qed.

Lemma keeps_select env (socks : list sock) : keeps I (select env socks).
Proof. unfold select. destruct (existsb _ _); [apply keeps_raise|apply keeps_ret]. Qed.

Lemma keeps_drop_bad_sockets env (socks : list sock) :
  keeps I (drop_bad_sockets env socks).
Proof.
  apply keeps_for_each. intros s.
  apply keeps_except_socket_error; [|apply keeps_unregister].
  unfold select_one. destruct (sock_bad env s); [apply keeps_raise|apply keeps_ret].
Qed.

Lemma keeps_tick_tail fuel env (data : bytes) : keeps I (tick_tail fuel env data).
Proof.
  unfold tick_tail.
  apply keeps_bind; [apply keeps_gets|]. intros socks.
  apply keeps_bind.
  { apply keeps_except_socket_error.
    - apply keeps_bind; [apply keeps_select|]. intros rw. apply keeps_ret.
    - apply keeps_bind; [apply keeps_drop_bad_sockets|]. intros ?. apply keeps_ret. }
  intros [[r w]|]; [|apply keeps_ret].
  apply keeps_bind; [apply keeps_send_to_writable|]. intros ?.
  apply keeps_recv_from_readable.
Qed.

End TailStable.

Lemma keeps_tick_body (I : State -> Prop) fuel env :
  head_stable I -> tail_stable I ->
  keeps I (tick_head_then env (tick_tail fuel env)).
Proof.
  intros Hh Ht. apply keeps_tick_head_then; [exact Hh|].
  intros data. apply keeps_tick_tail. exact Ht.
Qed.

Section Stable.
Context (I : State -> Prop) (HI : stable I).

Lemma keeps_lock_acquire : keeps I lock_acquire.
Proof.
  intros st H. unfold lock_acquire. destruct (lock (stream st)); simpl; [exact Logic.I|].
  apply (s_lock I HI). exact H.
Qed.

Lemma keeps_lock_release : keeps I lock_release.
Proof.
  intros st H. unfold lock_release. destruct (lock (stream st)); simpl; [|exact H].
  apply (s_lock I HI). exact H.
Qed.

Lemma keeps_communicate fuel env : keeps I (communicate fuel env).
Proof.
  rewrite communicate_parts. apply keeps_try_finally; [|apply keeps_lock_release].
  apply keeps_bind; [apply keeps_lock_acquire|]. intros ?.
  apply keeps_tick_body; [apply (s_head I HI)|apply (s_tail I HI)].
Qed.

Lemma keeps_register env bridge (s : sock) (lock_override : bool) :
  keeps I (register env bridge s lock_override).
Proof.
  apply keeps_final. intros st st' Hst H.
  destruct (sockets (stream st) !! s) as [d|] eqn:E.
  - rewrite register_tracked in H by eauto. inversion H; subst.
    apply (ts_log I (s_tail I HI)). exact Hst.
  - rewrite (register_untracked _ _ _ _ _ E) in H.
    assert (st' = registered env bridge s st) as ->.
    { destruct (negb lock_override && lock (stream st)); [discriminate|].
      destruct (negb _ && negb _); simpl in H; congruence. }
    apply (s_registered I HI); assumption.
Qed.

Lemma keeps_UpdateThread_run_once fuel env : keeps I (UpdateThread_run_once fuel env).
Proof.
  unfold UpdateThread_run_once.
  apply keeps_bind; [apply keeps_gets|]. intros [|]; [apply keeps_communicate|].
  intros st H. destruct (th_lock (update_thread (stream st))); simpl; [exact Logic.I|].
  apply (s_parked I HI). exact H.
Qed.

(** A stable invariant survives every step of a stream's life. *)
Lemma step_stable (st st' : State) : step st st' -> I st -> I st'.
Proof.
  intros Hstep H. destruct Hstep as [env bridge s st st' E|s m st st' E|fuel env st st' E|p st].
  - eapply keeps_final_state; [apply keeps_register|exact H|exact E].
  - eapply keeps_final_state; [apply keeps_unregister, (s_tail I HI)|exact H|exact E].
  - eapply keeps_final_state; [apply keeps_UpdateThread_run_once|exact H|exact E].
  - apply (s_exits I HI). exact H.
Qed.
End Stable.

(** ** The process handles *)

Ltac stream_only :=
  repeat match goal with
         | st : State |- _ => destruct st as [[? ? ? ? ? ? ? ? ? [? ?]] [? ? ? ?]]
         end;
  unfold registered, unregistered, spawned, killed, consumed, deliver, parked,
    process_exits, new_pid in *;
  unfold_updates; simpl in *.

Lemma recorder_set_stable : stable recorder_set.
Proof.
  unfold recorder_set.
  repeat split; intros; stream_only; try assumption; try discriminate.
Qed.

Lemma encoder_set_stable : stable encoder_set.
Proof.
  unfold encoder_set.
  repeat split; intros; stream_only; try assumption; try discriminate.
Qed.

Lemma count_inv_stable : stable count_inv.
Proof.
  unfold count_inv.
  repeat split; intros; stream_only; try assumption.
  - match goal with H : _ !! _ = Some _ |- _ =>
      pose proof (map_size_ne_0_lookup_2 _ _ (mk_is_Some _ _ H));
      rewrite (map_size_delete_Some _ _ (mk_is_Some _ _ H)) end.
    lia.
  - match goal with H : _ !! _ = None |- _ => rewrite (map_size_insert_None _ _ _ H) end.
    lia.
Qed.

(** On every state a stream can reach, the count of clients is the size
    of the socket table. *)
Lemma reachable_count_inv (st : State) : reachable st -> count_inv st.
Proof.
  induction 1 as [path recorder encoder w|st st' _ IH Hstep]; [reflexivity|].
  exact (step_stable _ count_inv_stable _ _ Hstep IH).
Qed.

Lemma alive_kill_same (h : option pid) (ps : gmap pid Process) :
  alive (kill_handle h ps) h = false.
Proof.
  destruct h as [p|]; [|reflexivity]. simpl.
  destruct (ps !! p) as [pr|] eqn:E; [|rewrite E; reflexivity].
  destruct (running pr) eqn:Er.
  - rewrite lookup_insert_eq. reflexivity.
  - rewrite E. exact Er.
Qed.

Lemma alive_kill_other (h h' : option pid) (ps : gmap pid Process) :
  alive ps h = false -> alive (kill_handle h' ps) h = false.
Proof.
  intros H. destruct h' as [q|]; [|exact H]. simpl.
  destruct (ps !! q) as [pr|] eqn:E; [|exact H].
  destruct (running pr); [|exact H].
  destruct h as [p|]; [|reflexivity]. simpl in *.
  destruct (decide (q = p)) as [->|Hne].
  - rewrite lookup_insert_eq. reflexivity.
  - rewrite lookup_insert_ne by assumption. exact H.
Qed.

Lemma reachable_one_client : reachable one_client.
Proof.
  apply (reachable_step
           (initial_state "/livingroom.mp3" (mkRecorder "dlna.monitor") example_encoder
              empty_world) one_client); [apply reachable_init|].
  apply (step_register example_env example_bridge 3). vm_compute. reflexivity.
Qed.

Lemma reachable_one_client_served : reachable one_client_served.
Proof.
  apply (reachable_step one_client one_client_served); [apply reachable_one_client|].
  apply (step_update_thread 8 example_env). vm_compute. reflexivity.
Qed.

(** C4, as stated, fails: a stream can reach a state in which the last
    client has unregistered and the count of clients is zero, yet both
    process handles are set. *)
Lemma handles_outlive_last_client :
  reachable last_client_gone
  /\ client_count (stream last_client_gone) = 0%Z
  /\ recorder_process (stream last_client_gone) = Some 0
  /\ encoder_process (stream last_client_gone) = Some 1.
Proof.
  split; [|vm_compute; auto].
  apply (reachable_step one_client_served last_client_gone);
    [apply reachable_one_client_served|].
  apply (step_unregister 3 0). vm_compute. reflexivity.
Qed.

(** C4, amended.  The process handles of a new stream are null; no step
    of a stream's life resets a handle that is set; and when the last
    client unregisters, so that the count of clients returns to zero,
    the handles stay as they are, the processes they refer to have been
    killed (neither is running), and the update thread is paused. *)
Theorem handles_kept_processes_killed :
  (forall path recorder encoder w,
      recorder_process (stream (initial_state path recorder encoder w)) = None
      /\ encoder_process (stream (initial_state path recorder encoder w)) = None)
  /\ (forall st st',
        step st st' ->
        (recorder_set st -> recorder_set st') /\ (encoder_set st -> encoder_set st'))
  /\ (forall s lock_override method st st',
        reachable st ->
        unregister s lock_override method st = Return tt st' ->
        client_count (stream st') = 0%Z ->
        recorder_process (stream st') = recorder_process (stream st)
        /\ encoder_process (stream st') = encoder_process (stream st)
        /\ handle_alive st' (recorder_process (stream st')) = false
        /\ handle_alive st' (encoder_process (stream st')) = false
        /\ is_running (update_thread (stream st')) = false).
Proof.
  split; [intros; split; reflexivity|]. split.
  - intros st st' Hstep. split.
    + apply (step_stable _ recorder_set_stable _ _ Hstep).
    + apply (step_stable _ encoder_set_stable _ _ Hstep).
  - intros s lo m st st' Hreach Hun Hzero.
    apply reachable_count_inv in Hreach. unfold count_inv in Hreach.
    destruct (sockets (stream st) !! s) as [d|] eqn:E.
    2:{ rewrite (unregister_untracked _ _ _ _ E) in Hun. discriminate. }
    rewrite (unregister_tracked _ _ _ _ _ E) in Hun.
    destruct (negb lo && lock (stream st)); [discriminate|].
    inversion Hun; subst st'. clear Hun.
    unfold unregistered in *. cbn [stream client_count] in Hzero.
    assert ((size (delete s (sockets (stream st))) =? 0)%nat = true) as Hlast.
    { apply Nat.eqb_eq.
      rewrite (map_size_delete_Some _ _ (mk_is_Some _ _ E)). lia. }
    unfold handle_alive. cbn [stream world procs recorder_process encoder_process
                              update_thread]. rewrite Hlast.
    repeat split.
    + apply alive_kill_same.
    + apply alive_kill_other, alive_kill_same.
Qed.

Lemma handles_kept_processes_killed_witness :
  recorder_process (stream last_client_gone)
  = recorder_process (stream one_client_served)
  /\ encoder_process (stream last_client_gone)
     = encoder_process (stream one_client_served)
  /\ handle_alive last_client_gone (recorder_process (stream last_client_gone)) = false
  /\ handle_alive last_client_gone (encoder_process (stream last_client_gone)) = false
  /\ is_running (update_thread (stream last_client_gone)) = false.
Proof.
  destruct handles_kept_processes_killed as (_ & _ & H).
  apply (H 3 false 0%nat one_client_served last_client_gone).
  - exact reachable_one_client_served.
  - vm_compute. reflexivity.
  - vm_compute. reflexivity.
Defined.

(** ** [_send_data] *)

Lemma _send_data_loop_run (fuel : nat) (env : Env) (s : sock) (data : bytes)
    (sent : nat) (st : State) :
  _send_data_loop fuel env s data sent st =
  match send_run fuel env s data sent with
  | None => OutOfFuel
  | Some (true, chunks) => Return tt (deliver_all s chunks st)
  | Some (false, chunks) => Raise socket_error (deliver_all s chunks st)
  end.
Proof.
  revert sent st. induction fuel as [|fuel IH]; intros sent st; simpl.
  - destruct (sent <? length data)%nat; reflexivity.
  - destruct (sent <? length data)%nat; [|reflexivity].
    unfold sock_send. destruct (send_result env s (drop sent data)) as [n|];
      [|reflexivity].
    unfold bind at 1. unfold bind at 1. unfold modify, ret.
    rewrite IH.
    destruct (send_run fuel env s data _) as [[[|] chunks]|]; reflexivity.
Qed.

Lemma send_run_prefix (fuel : nat) (env : Env) (s : sock) (data : bytes)
    (sent : nat) (ok : bool) (chunks : list bytes) :
  send_run fuel env s data sent = Some (ok, chunks) ->
  exists rest, drop sent data = concat chunks ++ rest /\ (ok = true -> rest = []).
Proof.
  revert sent ok chunks. induction fuel as [|fuel IH]; intros sent ok chunks; simpl.
  - destruct (Nat.ltb_spec sent (length data)); [discriminate|].
    intros [= <- <-]. exists []. rewrite drop_ge by lia. auto.
  - destruct (Nat.ltb_spec sent (length data)).
    2:{ intros [= <- <-]. exists []. rewrite drop_ge by lia. auto. }
    destruct (send_result env s (drop sent data)) as [n|].
    2:{ intros [= <- <-]. exists (drop sent data). split; [reflexivity|discriminate]. }
    destruct (send_run fuel env s data _) as [[ok' chunks']|] eqn:E; [|discriminate].
    intros [= <- <-]. destruct (IH _ _ _ E) as [rest [Hd Hok]].
    exists rest. split; [|exact Hok]. simpl.
    rewrite <- app_assoc, <- Hd, <- drop_drop, take_drop. reflexivity.
Qed.

Lemma send_run_enough_fuel (fuel : nat) (env : Env) (s : sock) (data : bytes)
    (sent : nat) :
  send_progress env -> length data - sent <= fuel ->
  send_run fuel env s data sent <> None.
Proof.
  intros Hp. revert sent. induction fuel as [|fuel IH]; intros sent Hf; simpl.
  - destruct (Nat.ltb_spec sent (length data)); [lia|discriminate].
  - destruct (Nat.ltb_spec sent (length data)); [|discriminate].
    destruct (send_result env s (drop sent data)) as [n|] eqn:E; [|discriminate].
    assert (drop sent data <> []) as Hne.
    { intros Hnil. apply (f_equal length) in Hnil. rewrite length_drop in Hnil.
      simpl in Hnil. lia. }
    assert (n <> 0) as Hn.
    { intros ->. exact (Hp s _ Hne E). }
    specialize (IH (sent + Nat.min n (length (drop sent data)))).
    rewrite length_drop in *.
    destruct (send_run fuel env s data _) as [[ok chunks]|]; [discriminate|].
    apply IH. lia.
Qed.

Lemma deliver_all_stream (s : sock) (chunks : list bytes) (st : State) :
  stream (deliver_all s chunks st) = stream st.
Proof.
  revert st. induction chunks as [|c chunks IH]; intros st; [reflexivity|].
  simpl. rewrite IH. reflexivity.
Qed.

Lemma deliver_all_world (s : sock) (chunks : list bytes) (st : State) :
  procs (world (deliver_all s chunks st)) = procs (world st)
  /\ closed (world (deliver_all s chunks st)) = closed (world st)
  /\ log (world (deliver_all s chunks st)) = log (world st).
Proof.
  revert st. induction chunks as [|c chunks IH]; intros st; [auto|].
  simpl. destruct (IH (deliver s c st)) as (-> & -> & ->). auto.
Qed.

Lemma deliver_all_delivered (s : sock) (chunks : list bytes) (st : State) (s' : sock) :
  delivered (world (deliver_all s chunks st)) s'
  = if decide (s = s') then delivered (world st) s' ++ concat chunks
    else delivered (world st) s'.
Proof.
  revert st. induction chunks as [|c chunks IH]; intros st.
  - simpl. rewrite app_nil_r. destruct (decide (s = s')); reflexivity.
  - simpl. rewrite IH. unfold deliver, delivered. unfold_updates.
    destruct (decide (s = s')) as [->|Hne].
    + rewrite lookup_insert_eq. simpl. rewrite app_assoc. reflexivity.
    + rewrite lookup_insert_ne by assumption. reflexivity.
Qed.

(** ** The two loops of a tick *)

Lemma view_deliver_all (s : sock) (chunks : list bytes) (st : State) (s' : sock) :
  view (deliver_all s chunks st) s'
  = if decide (s = s')
    then (sockets (stream st) !! s', delivered (world st) s' ++ concat chunks,
          bool_decide (s' ∈ closed (world st)))
    else view st s'.
Proof.
  unfold view. rewrite deliver_all_stream, deliver_all_delivered.
  destruct (deliver_all_world s chunks st) as (_ & -> & _).
  destruct (decide (s = s')); reflexivity.
Qed.

Lemma view_unregistered (s : sock) (device : RemoteDevice) (method : nat)
    (st : State) (s' : sock) :
  view (unregistered s device method st) s'
  = if decide (s = s') then (None, delivered (world st) s', true) else view st s'.
Proof.
  unfold view, unregistered, delivered. cbn [stream world sockets received closed].
  destruct (decide (s = s')) as [->|Hne].
  - rewrite lookup_delete_eq. rewrite bool_decide_eq_true_2 by set_solver. reflexivity.
  - rewrite lookup_delete_ne by assumption. f_equal.
    apply bool_decide_ext. set_solver.
Qed.

Lemma write_step (fuel : nat) (env : Env) (data : bytes) (s : sock)
    (device : RemoteDevice) (st : State) (ok : bool) (chunks : list bytes) :
  sockets (stream st) !! s = Some device ->
  send_run fuel env s data 0 = Some (ok, chunks) ->
  except_socket_error (_send_data fuel env s data) (unregister s true 2) st
  = Return tt (if ok then deliver_all s chunks st
               else unregistered s device 2 (deliver_all s chunks st)).
Proof.
  intros Hs Hrun. unfold except_socket_error, _send_data.
  rewrite _send_data_loop_run, Hrun. destruct ok; [reflexivity|].
  rewrite (unregister_tracked s device); [reflexivity|].
  rewrite deliver_all_stream. exact Hs.
Qed.

Lemma view_write_step (fuel : nat) (env : Env) (data : bytes) (s : sock)
    (device : RemoteDevice) (st : State) (ok : bool) (chunks : list bytes) (s' : sock) :
  sockets (stream st) !! s = Some device ->
  send_run fuel env s data 0 = Some (ok, chunks) ->
  view (if ok then deliver_all s chunks st
        else unregistered s device 2 (deliver_all s chunks st)) s'
  = if decide (s = s') then written fuel env data st s' else view st s'.
Proof.
  intros Hs Hrun. destruct ok.
  - rewrite view_deliver_all. destruct (decide (s = s')) as [<-|]; [|reflexivity].
    unfold written. rewrite Hrun. reflexivity.
  - rewrite view_unregistered, view_deliver_all.
    destruct (decide (s = s')) as [<-|]; [|reflexivity].
    unfold written. rewrite Hrun, deliver_all_delivered.
    rewrite decide_True by reflexivity. reflexivity.
Qed.

Lemma written_ext (fuel : nat) (env : Env) (data : bytes) (st st' : State) (s : sock) :
  view st' s = view st s -> written fuel env data st' s = written fuel env data st s.
Proof.
  unfold written, view. intros [= H1 H2 H3].
  destruct (send_run fuel env s data 0) as [[[|] chunks]|]; congruence.
Qed.

Lemma send_to_writable_run (fuel : nat) (env : Env) (data : bytes) (w : list sock) :
  forall st : State,
    NoDup w ->
    (forall s, s ∈ w -> is_Some (sockets (stream st) !! s)) ->
    (forall s, s ∈ w -> send_run fuel env s data 0 <> None) ->
    exists st',
      send_to_writable fuel env w data st = Return tt st'
      /\ forall s, view st' s
                   = if decide (s ∈ w) then written fuel env data st s else view st s.
Proof.
  unfold send_to_writable. induction w as [|x w IH]; intros st Hnd Htr Hfuel.
  - exists st. split; [reflexivity|]. intros s. rewrite decide_False by set_solver.
    reflexivity.
  - apply NoDup_cons in Hnd as [Hx Hnd].
    destruct (Htr x) as [device Hdev]; [set_solver|].
    destruct (send_run fuel env x data 0) as [[ok chunks]|] eqn:Hrun.
    2:{ exfalso. apply (Hfuel x); [set_solver|exact Hrun]. }
    cbn [for_each]. unfold bind at 1. rewrite (write_step _ _ _ _ _ _ _ _ Hdev Hrun).
    set (st1 := if ok then deliver_all x chunks st
                else unregistered x device 2 (deliver_all x chunks st)).
    assert (forall s, view st1 s
                      = if decide (x = s) then written fuel env data st s else view st s)
      as Hview.
    { intros s. apply view_write_step; assumption. }
    destruct (IH st1 Hnd) as [st' [Hrun' Hview']].
    { intros s Hs. specialize (Hview s). rewrite decide_False in Hview by set_solver.
      unfold view in Hview. injection Hview as -> _ _. apply Htr. set_solver. }
    { intros s Hs. apply Hfuel. set_solver. }
    exists st'. split; [exact Hrun'|]. intros s. rewrite Hview'.
    destruct (decide (s ∈ w)) as [Hin|Hnin].
    + rewrite decide_True by set_solver. apply written_ext.
      rewrite Hview. rewrite decide_False by set_solver. reflexivity.
    + rewrite Hview. destruct (decide (x = s)) as [->|Hne].
      * rewrite decide_True by set_solver. reflexivity.
      * rewrite decide_False by set_solver. reflexivity.
Qed.

Lemma read_step (env : Env) (s : sock) (st : State) :
  exists st',
    (tracked <- gets (fun st => bool_decide (is_Some (sockets (stream st) !! s))) ;;
     when tracked
       (except_socket_error
          (b <- sock_recv env s ;;
           when (length b =? 0)%nat (unregister s true 3))
          (unregister s true 4))) st = Return tt st'
    /\ forall s', view st' s' = if decide (s = s') then polled env st s' else view st s'.
Proof.
  unfold bind at 1. unfold gets.
  destruct (sockets (stream st) !! s) as [device|] eqn:Hs.
  - rewrite bool_decide_eq_true_2 by eauto. cbn [when].
    unfold except_socket_error, bind, sock_recv, when.
    destruct (recv_result env s) as [b|] eqn:Hr.
    + unfold ret. destruct (Nat.eqb_spec (length (take 1024 b)) 0) as [Hz|Hz].
      * rewrite (unregister_tracked _ _ _ _ _ Hs). simpl. eexists. split; [reflexivity|].
        intros s'. rewrite view_unregistered.
        destruct (decide (s = s')) as [<-|]; [|reflexivity].
        unfold polled, hangs_up. rewrite Hs, Hr, Hz. reflexivity.
      * exists st. split; [reflexivity|]. intros s'.
        destruct (decide (s = s')) as [<-|]; [|reflexivity].
        unfold polled, hangs_up. rewrite Hs, Hr.
        apply Nat.eqb_neq in Hz. rewrite Hz. reflexivity.
    + unfold raise. rewrite (unregister_tracked _ _ _ _ _ Hs). simpl.
      eexists. split; [reflexivity|].
      intros s'. rewrite view_unregistered.
      destruct (decide (s = s')) as [<-|]; [|reflexivity].
      unfold polled, hangs_up. rewrite Hs, Hr. reflexivity.
  - rewrite bool_decide_eq_false_2 by (intros [? ?]; discriminate).
    exists st. split; [reflexivity|]. intros s'.
    destruct (decide (s = s')) as [<-|]; [|reflexivity].
    unfold polled. rewrite Hs. reflexivity.
Qed.

Lemma polled_ext (env : Env) (st st' : State) (s : sock) :
  view st' s = view st s -> polled env st' s = polled env st s.
Proof.
  unfold polled, view. intros [= H1 H2 H3]. rewrite H1, H2, H3. reflexivity.
Qed.

Lemma recv_from_readable_run (env : Env) (r : list sock) :
  forall st : State,
    NoDup r ->
    exists st',
      recv_from_readable env r st = Return tt st'
      /\ forall s, view st' s = if decide (s ∈ r) then polled env st s else view st s.
Proof.
  unfold recv_from_readable. induction r as [|x r IH]; intros st Hnd.
  - exists st. split; [reflexivity|]. intros s. rewrite decide_False by set_solver.
    reflexivity.
  - apply NoDup_cons in Hnd as [Hx Hnd].
    destruct (read_step env x st) as [st1 [Hrun Hview]].
    cbn [for_each]. unfold bind at 1. rewrite Hrun.
    destruct (IH st1 Hnd) as [st' [Hrun' Hview']].
    exists st'. split; [exact Hrun'|]. intros s. rewrite Hview'.
    destruct (decide (s ∈ r)) as [Hin|Hnin].
    + rewrite decide_True by set_solver. apply polled_ext.
      rewrite Hview. rewrite decide_False by set_solver. reflexivity.
    + rewrite Hview. destruct (decide (x = s)) as [->|Hne].
      * rewrite decide_True by set_solver. reflexivity.
      * rewrite decide_False by set_solver. reflexivity.
Qed.

(** ** A whole tick *)

Lemma head_frame_stable so rv cl : head_stable (head_frame so rv cl).
Proof.
  unfold head_frame. split; intros; stream_only; try assumption.
  all: repeat match goal with H : _ /\ _ |- _ => destruct H end; subst.
  all: try (split; [reflexivity|split; [reflexivity|split; reflexivity]]).
  all: match goal with |- context [?m !! ?p] => destruct (m !! p) end; auto.
Qed.

Lemma lock_held_stable : tail_stable lock_held.
Proof.
  unfold lock_held. split; intros; stream_only; assumption.
Qed.


Lemma elem_of_keys (m : gmap sock RemoteDevice) (s : sock) :
  s ∈ keys m <-> is_Some (m !! s).
Proof.
  unfold keys. rewrite list_elem_of_fmap. split.
  - intros [[s' d] [-> H]]. apply elem_of_map_to_list in H. eauto.
  - intros [d H]. exists (s, d). split; [reflexivity|].
    apply elem_of_map_to_list. exact H.
Qed.

Lemma NoDup_keys (m : gmap sock RemoteDevice) : NoDup (keys m).
Proof. apply NoDup_fst_map_to_list. Qed.

Lemma view_set_lock (b : bool) (st : State) (s : sock) :
  view (set_stream (with_lock b) st) s = view st s.
Proof. reflexivity. Qed.

Lemma tick_run (fuel : nat) (env : Env) (st st1 : State) (data : bytes) :
  lock (stream st) = false ->
  tick_head env (set_stream (with_lock true) st) = Return data st1 ->
  existsb (sock_bad env) (keys (sockets (stream st))) = false ->
  (forall s, is_Some (sockets (stream st) !! s) -> send_run fuel env s data 0 <> None) ->
  exists st2 st3,
    tick_tail fuel env data st1 = Return tt st3
    /\ communicate fuel env st = Return tt (set_stream (with_lock false) st3)
    /\ (forall s, view st2 s
                  = if decide (selected writable env st s)
                    then written fuel env data st s else view st s)
    /\ (forall s, view st3 s
                  = if decide (selected readable env st s)
                    then polled env st2 s else view st2 s).
Proof.
  intros Hlock Hhead Hsel Hfuel.
  assert (head_frame (sockets (stream st)) (received (world st)) (closed (world st)) st1)
    as (Hso & Hrv & Hcl & Hl1).
  { pose proof (keeps_tick_head _
                  (head_frame_stable (sockets (stream st)) (received (world st))
                     (closed (world st)))
                  env (set_stream (with_lock true) st)) as Hk.
    rewrite Hhead in Hk. apply Hk. repeat split. }
  assert (forall s, view st1 s = view st s) as Hv1.
  { intros s. unfold view, delivered. rewrite Hso, Hrv, Hcl. reflexivity. }
  set (socks := keys (sockets (stream st))) in *.
  set (w := filter (fun s => writable env s = true) socks).
  set (r := filter (fun s => readable env s = true) socks).
  destruct (send_to_writable_run fuel env data w st1) as [st2 [Hw Hv2]].
  { apply NoDup_filter, NoDup_keys. }
  { intros s Hs. apply list_elem_of_filter in Hs as [_ Hs].
    rewrite Hso. apply elem_of_keys. exact Hs. }
  { intros s Hs. apply list_elem_of_filter in Hs as [_ Hs].
    apply Hfuel. apply elem_of_keys. exact Hs. }
  destruct (recv_from_readable_run env r st2) as [st3 [Hr Hv3]].
  { apply NoDup_filter, NoDup_keys. }
  assert (tick_tail fuel env data st1 = Return tt st3) as Htail.
  { unfold tick_tail. unfold bind at 1. unfold gets. rewrite Hso. fold socks.
    unfold bind at 1. unfold except_socket_error, select. rewrite Hsel.
    unfold bind at 1. unfold ret. fold w r.
    unfold bind. rewrite Hw. exact Hr. }
  assert (lock (stream st3) = true) as Hl3.
  { pose proof (keeps_tick_tail _ lock_held_stable fuel env data st1 Hl1) as Hk.
    rewrite Htail in Hk. exact Hk. }
  exists st2, st3.
  split; [exact Htail|split; [|split]].
  - rewrite communicate_parts. unfold try_finally.
    unfold bind at 1. unfold lock_acquire at 1. rewrite Hlock.
    rewrite tick_head_then_bind. unfold bind at 1. rewrite Hhead, Htail.
    unfold bind, lock_release. rewrite Hl3. reflexivity.
  - intros s. rewrite Hv2. unfold selected.
    destruct (decide (s ∈ w)) as [Hin|Hnin].
    + apply list_elem_of_filter in Hin as [Hwr Hin]. apply elem_of_keys in Hin.
      rewrite decide_True by auto. apply written_ext, Hv1.
    + rewrite decide_False; [apply Hv1|]. intros [Htr Hwr]. apply Hnin.
      apply list_elem_of_filter. split; [exact Hwr|]. apply elem_of_keys. exact Htr.
  - intros s. rewrite Hv3. unfold selected.
    destruct (decide (s ∈ r)) as [Hin|Hnin].
    + apply list_elem_of_filter in Hin as [Hrd Hin]. apply elem_of_keys in Hin.
      rewrite decide_True by auto. reflexivity.
    + rewrite decide_False; [reflexivity|]. intros [Htr Hrd]. apply Hnin.
      apply list_elem_of_filter. split; [exact Hrd|]. apply elem_of_keys. exact Htr.
Qed.

Lemma view_inv (st : State) (s : sock) (a : option RemoteDevice) (b : bytes) (c : bool) :
  view st s = (a, b, c) ->
  sockets (stream st) !! s = a /\ delivered (world st) s = b
  /\ (s ∈ closed (world st) <-> c = true).
Proof.
  unfold view. intros [= <- <- <-]. repeat split.
  - apply bool_decide_eq_true_2.
  - apply bool_decide_eq_true_1.
Qed.

Lemma polled_delivered (env : Env) (st : State) (s : sock) :
  snd (fst (polled env st s)) = delivered (world st) s.
Proof.
  unfold polled, view. destruct (sockets (stream st) !! s); [|reflexivity].
  destruct (hangs_up env s); reflexivity.
Qed.

Lemma polled_gone (env : Env) (st : State) (s : sock) :
  sockets (stream st) !! s = None -> polled env st s = view st s.
Proof. intros H. unfold polled. rewrite H. reflexivity. Qed.

Lemma polled_stays (env : Env) (st : State) (s : sock) :
  hangs_up env s = false -> polled env st s = view st s.
Proof.
  intros H. unfold polled. rewrite H. destruct (sockets (stream st) !! s); reflexivity.
Qed.

Lemma delivered_after_poll (env : Env) (st st2 st3 : State) :
  (forall s, view st3 s
             = if decide (selected readable env st s)
               then polled env st2 s else view st2 s) ->
  forall s, delivered (world st3) s = delivered (world st2) s.
Proof.
  intros Hv s. specialize (Hv s).
  destruct (decide (selected readable env st s)).
  - rewrite <- (polled_delivered env st2 s), <- Hv. reflexivity.
  - unfold view in Hv. congruence.
Qed.

Lemma send_run_whole (fuel : nat) (env : Env) (s : sock) (data : bytes)
    (chunks : list bytes) :
  send_run fuel env s data 0 = Some (true, chunks) -> concat chunks = data.
Proof.
  intros H. destruct (send_run_prefix _ _ _ _ _ _ _ H) as [rest [Hd Hrest]].
  rewrite (Hrest eq_refl), app_nil_r in Hd. rewrite <- Hd. apply drop_0.
Qed.

(** C1.  In a tick that reads a chunk from the encoder process and whose
    [select] succeeds, every socket of the table that is selected
    writable is sent that chunk: if its write raises no error the socket
    has been handed exactly the chunk, the same bytes for all of them;
    if its write raises [socket.error] the socket is unregistered (out
    of the table, closed).  Every other socket of the table, unless the
    read loop of the same tick finds its own peer gone, stays in the
    table with its device and is not closed; a socket not selected
    writable is handed nothing. *)
Theorem writable_subscribers_get_the_chunk
    (fuel : nat) (env : Env) (st st1 : State) (data : bytes) :
  lock (stream st) = false ->
  tick_head env (set_stream (with_lock true) st) = Return data st1 ->
  existsb (sock_bad env) (keys (sockets (stream st))) = false ->
  send_progress env ->
  length data <= fuel ->
  exists st',
    communicate fuel env st = Return tt st'
    /\ (forall s,
          selected writable env st s ->
          (~ write_fails fuel env data s ->
           delivered (world st') s = delivered (world st) s ++ data)
          /\ (write_fails fuel env data s ->
              sockets (stream st') !! s = None /\ s ∈ closed (world st')))
    /\ (forall s device,
          sockets (stream st) !! s = Some device ->
          ~ (writable env s = true /\ write_fails fuel env data s) ->
          ~ (readable env s = true /\ hangs_up env s = true) ->
          sockets (stream st') !! s = Some device
          /\ (s ∈ closed (world st') <-> s ∈ closed (world st)))
    /\ (forall s,
          ~ selected writable env st s ->
          delivered (world st') s = delivered (world st) s).
Proof.
  intros Hlock Hhead Hsel Hprog Hfuel.
  assert (forall s, send_run fuel env s data 0 <> None) as Hrun.
  { intros s. apply send_run_enough_fuel; [exact Hprog|lia]. }
  destruct (tick_run fuel env st st1 data Hlock Hhead Hsel)
    as (st2 & st3 & _ & Hc & Hv2 & Hv3).
  { intros s _. apply Hrun. }
  set (st' := set_stream (with_lock false) st3) in *.
  assert (forall s, view st' s
                    = if decide (selected readable env st s)
                      then polled env st2 s else view st2 s) as Hv' by exact Hv3.
  clear Hv3.
  pose proof (delivered_after_poll env st st2 st' Hv') as Hd.
  exists st'. split; [exact Hc|]. split; [|split].
  - intros s Hs. specialize (Hv2 s). rewrite decide_True in Hv2 by exact Hs.
    unfold written in Hv2.
    destruct (send_run fuel env s data 0) as [[[|] chunks]|] eqn:E.
    + split.
      * intros ?. rewrite Hd. apply view_inv in Hv2 as (_ & -> & _).
        rewrite (send_run_whole _ _ _ _ _ E). reflexivity.
      * intros [chunks' H']. congruence.
    + split.
      * intros Hn. exfalso. apply Hn. exists chunks. exact E.
      * intros ?. pose proof (view_inv _ _ _ _ _ Hv2) as (Hs2 & _ & _).
        specialize (Hv' s). rewrite (polled_gone _ _ _ Hs2) in Hv'.
        assert (view st' s = view st2 s) as Hsame.
        { destruct (decide (selected readable env st s)); exact Hv'. }
        rewrite Hv2 in Hsame. apply view_inv in Hsame as (Hs' & _ & Hc').
        split; [exact Hs'|]. apply Hc'. reflexivity.
    + exfalso. exact (Hrun s E).
  - intros s device Hs Hnw Hnr.
    assert (view st2 s = (Some device, snd (fst (view st2 s)),
                          bool_decide (s ∈ closed (world st)))) as H2.
    { specialize (Hv2 s). destruct (decide (selected writable env st s)) as [[_ Hw]|Hn].
      - unfold written in Hv2.
        destruct (send_run fuel env s data 0) as [[[|] chunks]|] eqn:E.
        + rewrite Hv2, Hs. reflexivity.
        + exfalso. apply Hnw. split; [exact Hw|]. exists chunks. exact E.
        + exfalso. exact (Hrun s E).
      - rewrite Hv2. unfold view. rewrite Hs. reflexivity. }
    assert (view st' s = view st2 s) as Hsame.
    { specialize (Hv' s). destruct (decide (selected readable env st s)) as [[_ Hr]|Hn];
        [|exact Hv'].
      rewrite Hv'. apply polled_stays.
      destruct (hangs_up env s) eqn:Eh; [|reflexivity]. exfalso. apply Hnr. auto. }
    rewrite H2 in Hsame. apply view_inv in Hsame as (Hs' & _ & Hc').
    split; [exact Hs'|]. rewrite Hc'. apply bool_decide_eq_true.
  - intros s Hn. rewrite Hd. specialize (Hv2 s).
    rewrite decide_False in Hv2 by exact Hn. unfold view in Hv2. congruence.
Qed.

Lemma example_env_progress : send_progress example_env.
Proof. intros s buf _. simpl. destruct (s =? 5)%nat; discriminate. Qed.

Lemma writable_subscribers_get_the_chunk_witness :
  exists st',
    communicate 8 example_env four_clients = Return tt st'
    /\ delivered (world st') 3 = repeat Byte.x61 4
    /\ sockets (stream st') !! 5 = None
    /\ 5 ∈ closed (world st').
Proof.
  destruct (writable_subscribers_get_the_chunk 8 example_env four_clients
              four_clients_chunk_read (repeat Byte.x61 4))
    as (st' & Hc & Hw & _ & _).
  - vm_compute. reflexivity.
  - vm_compute. reflexivity.
  - vm_compute. reflexivity.
  - exact example_env_progress.
  - simpl. lia.
  - exists st'. split; [exact Hc|].
    destruct (Hw 3) as [H3 _].
    { split; [vm_compute; eauto|reflexivity]. }
    destruct (Hw 5) as [_ H5].
    { split; [vm_compute; eauto|reflexivity]. }
    split.
    + rewrite H3; [reflexivity|]. intros [chunks H]. vm_compute in H. discriminate.
    + apply H5. exists []. vm_compute. reflexivity.
Defined.

(** ** Retired processes *)

Lemma quieter_refl (o : option Process) : quieter o o.
Proof. left. reflexivity. Qed.

Lemma quieter_trans (o1 o2 o3 : option Process) :
  quieter o1 o2 -> quieter o2 o3 -> quieter o1 o3.
Proof.
  intros [->|(pr & -> & ->)] [->|(pr' & H & ->)].
  - left. reflexivity.
  - right. eauto.
  - right. eauto.
  - injection H as <-. right. eauto.
Qed.

Lemma kill_handle_quieter (h : option pid) (ps : gmap pid Process) (p : pid) :
  quieter (ps !! p) (kill_handle h ps !! p).
Proof.
  destruct h as [q|]; [|apply quieter_refl]. simpl.
  destruct (ps !! q) as [pr|] eqn:E; [|apply quieter_refl].
  destruct (running pr); [|apply quieter_refl].
  destruct (decide (q = p)) as [->|Hne].
  - rewrite lookup_insert_eq, E. right. eauto.
  - rewrite lookup_insert_ne by assumption. apply quieter_refl.
Qed.

Lemma quieter_unread (o o' : option Process) :
  quieter o o' -> stdout <$> o' = stdout <$> o.
Proof. intros [->|(pr & -> & ->)]; reflexivity. Qed.

Lemma kill_handle_stdout (h : option pid) (ps : gmap pid Process) (p : pid) :
  stdout <$> kill_handle h ps !! p = stdout <$> ps !! p.
Proof. apply quieter_unread, kill_handle_quieter. Qed.

Lemma kill_handle_dom (h : option pid) (ps : gmap pid Process) :
  dom (kill_handle h ps) = dom ps.
Proof.
  destruct h as [p|]; [|reflexivity]. simpl.
  destruct (ps !! p) as [pr|] eqn:E; [|reflexivity].
  destruct (running pr); [|reflexivity].
  rewrite dom_insert_L. apply elem_of_dom_2 in E. set_solver.
Qed.


Lemma quieter_is_Some (o o' : option Process) : quieter o o' -> is_Some o -> is_Some o'.
Proof. intros [->|(pr & -> & ->)]; eauto. Qed.






(** ** A tick that finds a process gone *)

Lemma Popen_run (env : Env) (argv : list string) (st : State) :
  can_spawn env argv = true ->
  Popen env argv st = Return (new_pid st) (spawned env argv st).
Proof. intros H. unfold Popen. rewrite H. reflexivity. Qed.

Lemma create_processes_run (env : Env) (st : State) :
  can_spawn env (recorder_argv env st) = true ->
  can_spawn env (encoder_argv st) = true ->
  create_processes env st = Return tt (pair_started env st).
Proof.
  intros Hr He. unfold create_processes.
  unfold bind at 1. unfold gets at 1.
  unfold bind at 1. fold (recorder_argv env st). rewrite (Popen_run _ _ _ Hr).
  unfold bind at 1. unfold modify at 1.
  unfold bind at 1. unfold gets at 1.
  unfold bind at 1. fold (recorder_started env st).
  change (split_space (enc_command (encoder (stream (recorder_started env st)))))
    with (encoder_argv st).
  rewrite (Popen_run _ _ _ He). reflexivity.
Qed.

Lemma do_processes_respond_run (st : State) (r e : pid) :
  recorder_process (stream st) = Some r ->
  encoder_process (stream st) = Some e ->
  do_processes_respond st
  = Return (handle_alive st (Some r) && handle_alive st (Some e)) st.
Proof.
  intros Hr He. unfold do_processes_respond, handle_alive, alive.
  unfold bind at 1. unfold gets at 1. rewrite Hr.
  unfold bind at 1. unfold poll_is_None at 1. unfold gets at 1.
  destruct (match procs (world st) !! r with Some pr => running pr | None => false end);
    [|reflexivity].
  unfold bind, gets. rewrite He. reflexivity.
Qed.

Lemma cleaned_stream (st : State) : stream (cleaned st) = stream st.
Proof. reflexivity. Qed.






Lemma steps_stable (I : State -> Prop) (st st' : State) :
  stable I -> steps st st' -> I st -> I st'.
Proof.
  intros HI Hsteps. induction Hsteps as [st|st st1 st2 Hstep _ IH]; [tauto|].
  intros H. apply IH. exact (step_stable I HI _ _ Hstep H).
Qed.



(** ** The handles of a reachable stream *)

Lemma handle_known_grows (st st' : State) (h : option pid) :
  table_grows st st' -> handle_known st h -> handle_known st' h.
Proof. intros Hg Hk p Hp. apply Hg, (Hk p Hp). Qed.

Lemma table_grows_refl (st st' : State) :
  procs (world st') = procs (world st) -> table_grows st st'.
Proof. intros H p. rewrite H. tauto. Qed.

Lemma table_grows_quieter (st st' : State) :
  (forall p, quieter (procs (world st) !! p) (procs (world st') !! p)) ->
  table_grows st st'.
Proof. intros H p. apply quieter_is_Some, H. Qed.

Lemma table_grows_spawned (env : Env) (argv : list string) (st : State) :
  table_grows st (spawned env argv st).
Proof.
  intros p Hp. unfold spawned. unfold_updates.
  rewrite lookup_insert_ne; [exact Hp|].
  intros <-. apply elem_of_dom in Hp. exact (is_fresh _ Hp).
Qed.

Lemma handle_known_spawned (env : Env) (argv : list string) (st : State) :
  handle_known (spawned env argv st) (Some (new_pid st)).
Proof.
  intros p [= <-]. unfold spawned, new_pid. unfold_updates.
  rewrite lookup_insert_eq. eauto.
Qed.

Lemma table_grows_consumed (p : pid) (n : Z) (st : State) :
  table_grows st (consumed p n st).
Proof.
  intros q Hq. unfold consumed. unfold_updates.
  destruct (procs (world st) !! p) as [pr|] eqn:E; [|exact Hq].
  destruct (decide (p = q)) as [->|Hne].
  - rewrite lookup_insert_eq. eauto.
  - rewrite lookup_insert_ne by assumption. exact Hq.
Qed.

Lemma table_grows_exits (p : pid) (st : State) : table_grows st (process_exits p st).
Proof.
  intros q Hq. unfold process_exits. unfold_updates.
  destruct (procs (world st) !! p) as [pr|] eqn:E; [|exact Hq].
  destruct (decide (p = q)) as [->|Hne].
  - rewrite lookup_insert_eq. eauto.
  - rewrite lookup_insert_ne by assumption. exact Hq.
Qed.

Lemma handles_known_grows (st st' : State) :
  table_grows st st' ->
  recorder_process (stream st') = recorder_process (stream st) ->
  encoder_process (stream st') = encoder_process (stream st) ->
  handles_known st -> handles_known st'.
Proof.
  intros Hg Hr He [Hkr Hke]. unfold handles_known. rewrite Hr, He.
  split; eapply handle_known_grows; eassumption.
Qed.

Lemma handles_known_stable : stable handles_known.
Proof.
  split; [split|split|..].
  - intros st l H. exact H.
  - intros st env argv H.
    exact (handles_known_grows st (spawned env argv st)
             (table_grows_spawned env argv st) eq_refl eq_refl H).
  - intros st env argv [Hr He]. split.
    + apply handle_known_spawned.
    + exact (handle_known_grows _ _ _ (table_grows_spawned env argv st) He).
  - intros st env argv [Hr He]. split.
    + exact (handle_known_grows _ _ _ (table_grows_spawned env argv st) Hr).
    + apply handle_known_spawned.
  - intros st h H. refine (handles_known_grows st (killed h st) _ eq_refl eq_refl H).
    apply table_grows_quieter. intros p. unfold killed. unfold_updates.
    apply kill_handle_quieter.
  - intros st p n H _.
    exact (handles_known_grows st (consumed p n st)
             (table_grows_consumed p n st) eq_refl eq_refl H).
  - intros st l H. exact H.
  - intros st s d H. exact H.
  - intros st s device method H _.
    refine (handles_known_grows st (unregistered s device method st) _
              eq_refl eq_refl H).
    apply table_grows_quieter. intros p. unfold unregistered. cbn [world procs].
    destruct (size (delete s (sockets (stream st))) =? 0)%nat; [|apply quieter_refl].
    eapply quieter_trans; apply kill_handle_quieter.
  - intros st b H. exact H.
  - intros st env bridge s H _. exact H.
  - intros st H. exact H.
  - intros st p H.
    exact (handles_known_grows st (process_exits p st)
             (table_grows_exits p st) eq_refl eq_refl H).
Qed.

(** On every state a stream can reach, a handle that is set refers to
    an entry of the process table. *)
Lemma reachable_handles_known (st : State) : reachable st -> handles_known st.
Proof.
  induction 1 as [path recorder encoder w|st st' _ IH Hstep].
  - split; intros p Hp; discriminate.
  - exact (step_stable _ handles_known_stable _ _ Hstep IH).
Qed.

(* ===================================================================== *)
(** * Part III.  Further properties of the code                           *)
(* ===================================================================== *)

(** ** [_get_header_map] on whole header texts *)

Lemma cut_at_append (c : ascii) (n v : string) :
  has_char c n = false -> cut_at c (String.append n (String c v)) = Some (n, v).
Proof.
  induction n as [|ch n IH]; intros H.
  - simpl. rewrite Ascii.eqb_refl. reflexivity.
  - simpl in H. apply orb_false_iff in H as [Hc Hn].
    rewrite append_cons. simpl. rewrite Hc, (IH Hn). reflexivity.
Qed.

Lemma cut_at_none (c : ascii) (s : string) :
  has_char c s = false -> cut_at c s = None.
Proof.
  induction s as [|ch s IH]; intros H; [reflexivity|].
  simpl in H. apply orb_false_iff in H as [Hc Hs].
  simpl. rewrite Hc, (IH Hs). reflexivity.
Qed.

Lemma findall_render_headers (lines : list (string * string)) :
  Forall header_line_ok lines ->
  map (fun c => (group 1 c, group 2 c)) (findall false header_re (render_headers lines))
  = lines.
Proof.
  induction 1 as [|[n v] lines (Hc & Hn & Hv) _ IH].
  - reflexivity.
  - simpl in Hc, Hn, Hv. cbn [render_headers].
    rewrite <- (append_cons ":" v), <- append_assoc.
    rewrite findall_header_line.
    + rewrite (cut_at_append ":" n v Hc). cbn [app map group Nat.eqb].
      rewrite IH. reflexivity.
    + rewrite has_char_append. simpl. rewrite Hn, Hv. reflexivity.
Qed.

Lemma dict_set_fresh {V} (k : string) (v : V) (d : pydict V) :
  ~ In k (map fst d) -> dict_set k v d = d ++ [(k, v)].
Proof.
  induction d as [|[k' v'] d IH]; intros H; [reflexivity|].
  simpl in *. destruct (String.eqb_spec k k') as [->|Hne].
  - exfalso. apply H. left. reflexivity.
  - rewrite IH; [reflexivity|]. intros Hin. apply H. right. exact Hin.
Qed.

Lemma dict_of_pairs_distinct_from {V} (l d : list (string * V)) :
  List.NoDup (map fst (d ++ l)) ->
  fold_left (fun d kv => dict_set (fst kv) (snd kv) d) l d = d ++ l.
Proof.
  revert d. induction l as [|[k v] l IH]; intros d H.
  - rewrite app_nil_r. reflexivity.
  - simpl. rewrite dict_set_fresh.
    + rewrite IH; rewrite <- app_assoc; [reflexivity|exact H].
    + rewrite map_app in H. simpl in H. apply NoDup_remove_2 in H.
      intros Hin. apply H. apply in_or_app. left. exact Hin.
Qed.

(** Distinct keys: the dictionary is the list of pairs itself. *)
Lemma dict_of_pairs_distinct {V} (l : list (string * V)) :
  List.NoDup (map fst l) -> dict_of_pairs l = l.
Proof. intros H. apply (dict_of_pairs_distinct_from l []). exact H. Qed.

Lemma dict_get_distinct {V} (k : string) (v : V) (d : pydict V) :
  List.NoDup (map fst d) -> In (k, v) d -> dict_get k d = Some v.
Proof.
  induction d as [|[k' v'] d IH]; intros Hnd Hin; [destruct Hin|].
  simpl in *. inversion Hnd as [|? ? Hk Hnd']; subst.
  destruct Hin as [[= -> ->]|Hin].
  - rewrite String.eqb_refl. reflexivity.
  - destruct (String.eqb_spec k k') as [->|Hne]; [|apply IH; assumption].
    exfalso. apply Hk. apply (in_map fst) in Hin. exact Hin.
Qed.

Lemma NoDup_map_compose {A B C} (f : A -> B) (g : B -> C) (l : list A) :
  List.NoDup (map (fun x => g (f x)) l) -> List.NoDup (map f l).
Proof.
  induction l as [|x l IH]; intros H; simpl in *; [constructor|].
  inversion H as [|? ? Hx Hl]; subst. constructor; [|apply IH; exact Hl].
  intros Hin. apply Hx. apply in_map_iff in Hin as [y [Hy Hin]].
  apply in_map_iff. exists y. split; [congruence|exact Hin].
Qed.

(** X1.  Reading back a header text written line by line: when every
    line has a name without colon or newline and a value without
    newline, the mapping is what the two dictionary steps of the code
    make of the lines: first a dictionary by name as spelled, then one
    by trimmed, lower-cased name with trimmed values. *)
Theorem header_map_of_rendered_lines (lines : list (string * string)) :
  Forall header_line_ok lines ->
  _get_header_map (render_headers lines)
  = dict_of_pairs (map normalize_header (dict_of_pairs lines)).
Proof.
  intros H. unfold _get_header_map.
  rewrite (findall_render_headers lines H). reflexivity.
Qed.

Lemma header_map_of_rendered_lines_witness :
  _get_header_map
    (render_headers [("HOST", " 239.255.255.250:1900"); ("Usn", " uuid:7::x ")])
  = dict_of_pairs
      (map normalize_header
         (dict_of_pairs [("HOST", " 239.255.255.250:1900"); ("Usn", " uuid:7::x ")])).
Proof.
  apply header_map_of_rendered_lines.
  repeat constructor.
Defined.

(** X2.  When, moreover, the names of the lines are pairwise different
    even after trimming and lower-casing, the mapping lists the lines in
    their order, each with its name trimmed and lower-cased and its
    value trimmed, and looking up such a name gives the trimmed value of
    its line. *)
Theorem header_map_distinct_names (lines : list (string * string)) :
  Forall header_line_ok lines ->
  List.NoDup (map (fun nv => lower (strip (fst nv))) lines) ->
  _get_header_map (render_headers lines) = map normalize_header lines
  /\ forall n v, In (n, v) lines ->
       dict_get (lower (strip n)) (_get_header_map (render_headers lines))
       = Some (strip v).
Proof.
  intros Hok Hnd.
  assert (_get_header_map (render_headers lines) = map normalize_header lines) as E.
  { unfold _get_header_map. rewrite (findall_render_headers lines Hok).
    change (dict_of_pairs (map normalize_header (dict_of_pairs lines))
            = map normalize_header lines).
    rewrite (dict_of_pairs_distinct lines).
    - apply dict_of_pairs_distinct. rewrite map_map. exact Hnd.
    - apply (NoDup_map_compose fst (fun s => lower (strip s))). exact Hnd. }
  split; [exact E|]. intros n v Hin. rewrite E.
  apply dict_get_distinct.
  - rewrite map_map. exact Hnd.
  - apply (in_map normalize_header) in Hin. exact Hin.
Qed.

Lemma header_map_distinct_names_witness :
  dict_get "usn"
    (_get_header_map
       (render_headers [("HOST", " 239.255.255.250:1900"); ("Usn", " uuid:7::x ")]))
  = Some "uuid:7::x".
Proof.
  apply (proj2 (header_map_distinct_names
                  [("HOST", " 239.255.255.250:1900"); ("Usn", " uuid:7::x ")]
                  ltac:(repeat constructor)
                  ltac:(vm_compute; repeat constructor; simpl; intuition discriminate))
           "Usn" " uuid:7::x ").
  right. left. reflexivity.
Defined.

(** X3.  A line without a colon (a status line, a blank line) adds
    nothing: the mapping is that of the text after it. *)
Theorem header_map_skips_line_without_colon (l rest : string) :
  has_char ":"%char l = false ->
  has_char newline l = false ->
  _get_header_map (String.append l (String newline rest)) = _get_header_map rest.
Proof.
  intros Hc Hn. unfold _get_header_map.
  rewrite (findall_header_line l rest Hn), (cut_at_none ":" l Hc). reflexivity.
Qed.

Lemma header_map_skips_line_without_colon_witness :
  _get_header_map
    (String.append "HTTP/1.1 200 OK" (String newline (render_headers [("ST", "x")])))
  = _get_header_map (render_headers [("ST", "x")]).
Proof.
  apply header_map_skips_line_without_colon; vm_compute; reflexivity.
Defined.

(** ** Trimming and lower-casing *)

Lemma lower_char_idem (c : ascii) : lower_char (lower_char c) = lower_char c.
Proof. destruct c as [[] [] [] [] [] [] [] []]; vm_compute; reflexivity. Qed.

Lemma isspace_lower_char (c : ascii) : isspace (lower_char c) = isspace c.
Proof. destruct c as [[] [] [] [] [] [] [] []]; vm_compute; reflexivity. Qed.

Lemma lower_idem (s : string) : lower (lower s) = lower s.
Proof.
  induction s as [|c s IH]; [reflexivity|]. simpl. rewrite lower_char_idem, IH.
  reflexivity.
Qed.

Lemma lstrip_lower (s : string) : lstrip (lower s) = lower (lstrip s).
Proof.
  induction s as [|c s IH]; [reflexivity|]. simpl. rewrite isspace_lower_char.
  destruct (isspace c); [exact IH|reflexivity].
Qed.

Lemma rstrip_lower (s : string) : rstrip (lower s) = lower (rstrip s).
Proof.
  induction s as [|c s IH]; [reflexivity|]. simpl. rewrite IH, isspace_lower_char.
  destruct (rstrip s); simpl; [destruct (isspace c)|]; reflexivity.
Qed.

Lemma strip_lower (s : string) : strip (lower s) = lower (strip s).
Proof. unfold strip. rewrite lstrip_lower, rstrip_lower. reflexivity. Qed.

Lemma lstrip_idem (s : string) : lstrip (lstrip s) = lstrip s.
Proof.
  induction s as [|c s IH]; [reflexivity|]. simpl.
  destruct (isspace c) eqn:E; [exact IH|]. simpl. rewrite E. reflexivity.
Qed.

Lemma rstrip_idem (s : string) : rstrip (rstrip s) = rstrip s.
Proof.
  induction s as [|c s IH]; [reflexivity|]. simpl.
  destruct (rstrip s) as [|c' t] eqn:E.
  - destruct (isspace c) eqn:Ec; [reflexivity|]. simpl. rewrite Ec. reflexivity.
  - simpl in *. rewrite IH. reflexivity.
Qed.

Lemma lstrip_rstrip (s : string) : lstrip (rstrip s) = rstrip (lstrip s).
Proof.
  induction s as [|c s IH]; [reflexivity|]. cbn [lstrip rstrip].
  destruct (isspace c) eqn:Ec.
  - rewrite <- IH. destruct (rstrip s) as [|c' t]; [reflexivity|].
    cbn [lstrip]. rewrite Ec. reflexivity.
  - cbn [rstrip]. destruct (rstrip s) as [|c' t]; rewrite ?Ec; cbn [lstrip];
      rewrite Ec; reflexivity.
Qed.

Lemma strip_idem (s : string) : strip (strip s) = strip s.
Proof.
  unfold strip. rewrite lstrip_rstrip, lstrip_idem, rstrip_idem. reflexivity.
Qed.

Lemma in_dict_set {V} (k : string) (v : V) (d : pydict V) (x : string * V) :
  In x (dict_set k v d) -> x = (k, v) \/ In x d.
Proof.
  induction d as [|[k' v'] d IH]; simpl.
  - intros [<-|[]]. left. reflexivity.
  - destruct (String.eqb k k'); simpl.
    + intros [<-|H]; auto.
    + intros [<-|H]; [auto|]. destruct (IH H); auto.
Qed.

Lemma in_dict_of_pairs {V} (l : list (string * V)) (x : string * V) :
  In x (dict_of_pairs l) -> In x l.
Proof.
  unfold dict_of_pairs.
  assert (forall d, In x (fold_left (fun d kv => dict_set (fst kv) (snd kv) d) l d)
                    -> In x d \/ In x l) as H.
  { induction l as [|[k v] l IH]; intros d Hin; [auto|].
    simpl in Hin. destruct (IH _ Hin) as [Hd|Hl]; [|right; right; exact Hl].
    destruct (in_dict_set _ _ _ _ Hd) as [->|Hd']; [right; left; reflexivity|auto]. }
  intros Hin. destruct (H [] Hin) as [[]|Hl]. exact Hl.
Qed.

(** X4.  Whatever the text, every name of the mapping is lower-case and
    trimmed, and every value is trimmed. *)
Theorem header_map_entries_normalized (header k v : string) :
  In (k, v) (_get_header_map header) ->
  lower k = k /\ strip k = k /\ strip v = v.
Proof.
  unfold _get_header_map. intros H. apply in_dict_of_pairs in H.
  apply in_map_iff in H as [[k0 v0] [[= <- <-] _]]. cbn [fst snd].
  split; [apply lower_idem|]. split; [|apply strip_idem].
  rewrite strip_lower, strip_idem. reflexivity.
Qed.

Lemma header_map_entries_normalized_witness :
  lower "usn" = "usn" /\ strip "usn" = "usn" /\ strip "uuid:7::x" = "uuid:7::x".
Proof.
  apply (header_map_entries_normalized
           (render_headers [("HOST", " 239.255.255.250:1900"); ("Usn", " uuid:7::x ")])).
  vm_compute. right. left. reflexivity.
Defined.

(** ** The device id of a well-formed USN *)

Lemma flat_map_map {A B C} (f : A -> B) (g : B -> list C) (l : list A) :
  flat_map g (map f l) = flat_map (fun x => g (f x)) l.
Proof. induction l as [|x l IH]; [reflexivity|]. simpl. rewrite IH. reflexivity. Qed.

Lemma flat_map_ext_all {A B} (f g : A -> list B) (l : list A) :
  (forall x, f x = g x) -> flat_map f l = flat_map g l.
Proof.
  intros H. induction l as [|x l IH]; [reflexivity|]. simpl. rewrite H, IH. reflexivity.
Qed.

Lemma star_splits_head (p : ascii -> bool) (s : string) :
  exists L, star_splits p s = (EmptyString, s) :: L.
Proof. destruct s; eexists; reflexivity. Qed.

Lemma head_app_nonempty {A} (l1 l2 : list A) : l1 <> [] -> head (l1 ++ l2) = head l1.
Proof. destruct l1; [congruence|reflexivity]. Qed.

(** A lazy run followed by something that must start with a colon stops
    at the first colon. *)
Lemma lazy_run_until {X} (K : string * string -> list X) (icase : bool)
    (pre id tail : string) :
  (forall m c r, c <> ":"%char -> K (m, String c r) = []) ->
  has_char ":"%char id = false ->
  has_char newline id = false ->
  K (String.append pre id, tail) <> [] ->
  head (flat_map K
          (map (fun mr : string * string => (String.append pre (fst mr), snd mr))
             (star_splits (atom_ok icase ADot) (String.append id tail))))
  = head (K (String.append pre id, tail)).
Proof.
  intros HK. revert pre. induction id as [|c id IH]; intros pre Hc Hn Hne.
  - rewrite append_empty_l. destruct (star_splits_head (atom_ok icase ADot) tail) as [L ->].
    cbn [map flat_map fst snd]. apply head_app_nonempty. exact Hne.
  - simpl in Hc, Hn.
    apply orb_false_iff in Hc as [Hc1 Hc]. apply orb_false_iff in Hn as [Hn1 Hn].
    rewrite append_cons. cbn [star_splits atom_ok]. unfold is_newline. rewrite Hn1.
    cbn [negb map flat_map fst snd].
    rewrite HK by (intros ->; rewrite Ascii.eqb_refl in Hc1; discriminate).
    cbn [app]. rewrite map_map. cbn [fst snd].
    rewrite (map_ext _ (fun mr : string * string =>
                          (String.append (String.append pre (String c EmptyString)) (fst mr),
                           snd mr))).
    2:{ intros [m r]. cbn [fst snd]. rewrite append_assoc. reflexivity. }
    rewrite (IH (String.append pre (String c EmptyString)) Hc Hn).
    + rewrite append_assoc. reflexivity.
    + rewrite append_assoc. exact Hne.
Qed.

Lemma colon_only (c : ascii) : atom_ok true (ALit ":"%char) c = true -> c = ":"%char.
Proof. destruct c as [[] [] [] [] [] [] [] []]; vm_compute; congruence. Qed.

Lemma usn_continue_needs_colon (u m : string) (c : ascii) (r : string) :
  c <> ":"%char -> usn_continue u (m, String c r) = [].
Proof.
  intros Hc. unfold usn_continue, usn_tail_re. cbn [snd]. rewrite rmatch_atom_cons.
  destruct (atom_ok true (ALit ":") c) eqn:E; [|reflexivity].
  apply colon_only in E. contradiction.
Qed.

Lemma usn_continue_at_colons (u m rest : string) :
  exists x l,
    usn_continue u (m, String ":"%char (String ":"%char rest)) = x :: l
    /\ group 1 (snd (fst x)) = String.append u m.
Proof.
  unfold usn_continue, usn_tail_re. cbn [snd fst]. rewrite !rmatch_atom_cons.
  change (atom_ok true (ALit ":") ":") with true. cbn iota.
  cbn [rmatch]. destruct (star_splits_head (atom_ok true ADot) rest) as [L HL].
  destruct (rev (star_splits (atom_ok true ADot) rest)) as [|y l] eqn:E.
  { apply (f_equal (@rev _)) in E. rewrite rev_involutive, HL in E. discriminate. }
  cbn [map]. eexists _, _. split; [reflexivity|]. reflexivity.
Qed.

Lemma rmatch_usn_re (c1 c2 c3 c4 c5 : ascii) (t : string) :
  atom_ok true (ALit "u") c1 = true -> atom_ok true (ALit "u") c2 = true ->
  atom_ok true (ALit "i") c3 = true -> atom_ok true (ALit "d") c4 = true ->
  atom_ok true (ALit ":") c5 = true ->
  rmatch true usn_re (String c1 (String c2 (String c3 (String c4 (String c5 t)))))
  = flat_map (usn_continue (String c1 (String c2 (String c3 (String c4 (String c5 EmptyString))))))
      (map (fun mr : string * string => (String.append EmptyString (fst mr), snd mr))
         (star_splits (atom_ok true ADot) t)).
Proof.
  intros H1 H2 H3 H4 H5.
  assert (rmatch true (lits "uuid:" (LazyStar ADot))
            (String c1 (String c2 (String c3 (String c4 (String c5 t)))))
          = map (fun mr : string * string =>
                   (String c1 (String c2 (String c3 (String c4 (String c5 (fst mr))))),
                    [], snd mr))
                (star_splits (atom_ok true ADot) t)) as EG.
  { cbn [lits]. rewrite !rmatch_atom_cons, H1, H2, H3, H4, H5.
    cbn [rmatch]. rewrite !map_map. apply map_ext. intros [m r]. reflexivity. }
  unfold usn_re. fold usn_tail_re.
  change (rmatch true (Cat (Group 1 (lits "uuid:" (LazyStar ADot))) usn_tail_re)
            (String c1 (String c2 (String c3 (String c4 (String c5 t))))))
    with (flat_map
            (fun m1 : rmatch_result =>
               map (fun m2 : rmatch_result =>
                      (String.append (fst (fst m1)) (fst (fst m2)),
                       snd (fst m1) ++ snd (fst m2), snd m2))
                   (rmatch true usn_tail_re (snd m1)))
            (map (fun m : rmatch_result =>
                    (fst (fst m), (1, fst (fst m)) :: snd (fst m), snd m))
               (rmatch true (lits "uuid:" (LazyStar ADot))
                  (String c1 (String c2 (String c3 (String c4 (String c5 t)))))))).
  rewrite EG, !flat_map_map. apply flat_map_ext_all. intros [m r]. reflexivity.
Qed.

Lemma search_usn_exact (u id rest : string) :
  lower u = "uuid:" ->
  has_char ":"%char id = false ->
  has_char newline id = false ->
  exists m, search true usn_re (String.append u (String.append id (String.append "::" rest)))
            = Some m
            /\ group 1 (snd (fst m)) = String.append u id.
Proof.
  intros Hu Hc Hn.
  destruct (lower_uuid_inv _ Hu) as (c1 & c2 & c3 & c4 & c5 & -> & H1 & H2 & H3 & H4 & H5).
  set (U := String c1 (String c2 (String c3 (String c4 (String c5 EmptyString))))).
  destruct (usn_continue_at_colons U id rest) as (x & l & Hx & Hg).
  exists x. split; [|exact Hg].
  apply search_here. unfold match_here, U.
  change (String.append "::" rest) with (String ":"%char (String ":"%char rest)).
  rewrite !append_cons, append_empty_l.
  rewrite (rmatch_usn_re c1 c2 c3 c4 c5 _ H1 H2 H3 H4 H5). fold U.
  rewrite (lazy_run_until (usn_continue U) true EmptyString id
             (String ":"%char (String ":"%char rest))).
  - rewrite append_empty_l, Hx. reflexivity.
  - intros m c r Hne. apply usn_continue_needs_colon. exact Hne.
  - exact Hc.
  - exact Hn.
  - rewrite append_empty_l, Hx. discriminate.
Qed.

Lemma lower_has_newline (s : string) : has_char newline (lower s) = has_char newline s.
Proof.
  induction s as [|c s IH]; [reflexivity|]. simpl. rewrite IH. f_equal.
  destruct c as [[] [] [] [] [] [] [] []]; vm_compute; reflexivity.
Qed.

(** X5.  The device id of a well-formed USN: when the [usn] entry is the
    letters uuid: in any case, an id without colon or newline, two
    colons and anything, the device id is the letters as spelled
    followed by the id. *)
Theorem device_id_of_well_formed_usn (header : pydict string) (u id rest : string) :
  lower u = "uuid:" ->
  has_char ":"%char id = false ->
  has_char newline id = false ->
  dict_get "usn" header
  = Some (String.append u (String.append id (String.append "::" rest))) ->
  _get_device_id header = Some (String.append u id).
Proof.
  intros Hu Hc Hn Hget. unfold _get_device_id. rewrite Hget.
  destruct (search_usn_exact u id rest Hu Hc Hn) as (m & -> & ->). reflexivity.
Qed.

Lemma device_id_of_well_formed_usn_witness :
  _get_device_id [("location", "http://10.0.0.2/desc.xml");
                  ("usn", "UUID:9ab0-c2::upnp:rootdevice")]
  = Some "UUID:9ab0-c2".
Proof.
  apply (device_id_of_well_formed_usn _ "UUID:" "9ab0-c2" "upnp:rootdevice");
    vm_compute; reflexivity.
Defined.

(** X6.  A device id, when there is one, is cut out of the [usn] entry:
    it starts where the entry has the letters uuid: (in any case), is
    followed there by two colons, and holds no newline. *)
Theorem device_id_is_cut_from_usn (header : pydict string) (d : string) :
  _get_device_id header = Some d ->
  exists v pre u id rest : string,
    dict_get "usn" header = Some v
    /\ v = String.append pre (String.append d (String.append "::" rest))
    /\ d = String.append u id
    /\ lower u = "uuid:"
    /\ has_char newline d = false.
Proof.
  intros H. destruct (_get_device_id_some header d H)
    as (v & Hget & pre & u & id & rest & -> & Hu & Hid & ->).
  eexists _, pre, u, id, rest. split; [exact Hget|].
  split; [rewrite append_assoc; reflexivity|].
  split; [reflexivity|]. split; [exact Hu|].
  rewrite has_char_append, Hid, <- lower_has_newline, Hu. reflexivity.
Qed.

Lemma device_id_is_cut_from_usn_witness :
  exists v pre u id rest : string,
    dict_get "usn" [("usn", "x-uuid:7::a::b")] = Some v
    /\ v = String.append pre (String.append "uuid:7" (String.append "::" rest))
    /\ "uuid:7" = String.append u id
    /\ lower u = "uuid:"
    /\ has_char newline "uuid:7" = false.
Proof.
  apply (device_id_is_cut_from_usn [("usn", "x-uuid:7::a::b")] "uuid:7").
  vm_compute. reflexivity.
Defined.

(** X7.  From the text to the id: a header text written line by line
    with pairwise different names, one of which is usn in any letter
    case and with any blanks around it, and whose value, once trimmed,
    is a well-formed USN, gives that USN's device id. *)
Theorem device_id_of_header_text (lines : list (string * string))
    (n v u id rest : string) :
  Forall header_line_ok lines ->
  List.NoDup (map (fun nv => lower (strip (fst nv))) lines) ->
  In (n, v) lines ->
  lower (strip n) = "usn" ->
  strip v = String.append u (String.append id (String.append "::" rest)) ->
  lower u = "uuid:" ->
  has_char ":"%char id = false ->
  has_char newline id = false ->
  _get_device_id (_get_header_map (render_headers lines)) = Some (String.append u id).
Proof.
  intros Hok Hnd Hin Hname Hv Hu Hc Hn.
  assert (_get_header_map (render_headers lines) = map normalize_header lines) as E.
  { unfold _get_header_map. rewrite (findall_render_headers lines Hok).
    change (dict_of_pairs (map normalize_header (dict_of_pairs lines))
            = map normalize_header lines).
    rewrite (dict_of_pairs_distinct lines).
    - apply dict_of_pairs_distinct. rewrite map_map. exact Hnd.
    - apply (NoDup_map_compose fst (fun s => lower (strip s))). exact Hnd. }
  unfold _get_device_id. rewrite E.
  rewrite (dict_get_distinct "usn" (strip v)).
  - rewrite Hv. destruct (search_usn_exact u id rest Hu Hc Hn) as (m & -> & ->).
    reflexivity.
  - rewrite map_map. exact Hnd.
  - apply (in_map normalize_header) in Hin. unfold normalize_header in Hin at 1.
    cbn [fst snd] in Hin. rewrite Hname in Hin. exact Hin.
Qed.

Lemma device_id_of_header_text_witness :
  _get_device_id
    (_get_header_map
       (render_headers [("HOST", " 239.255.255.250:1900");
                        (" Usn ", " Uuid:7f3a::upnp:rootdevice ")]))
  = Some "Uuid:7f3a".
Proof.
  apply (device_id_of_header_text
           [("HOST", " 239.255.255.250:1900"); (" Usn ", " Uuid:7f3a::upnp:rootdevice ")]
           " Usn " " Uuid:7f3a::upnp:rootdevice " "Uuid:" "7f3a" "upnp:rootdevice").
  - repeat constructor.
  - vm_compute. repeat constructor; simpl; intuition discriminate.
  - right. left. reflexivity.
  - vm_compute. reflexivity.
  - vm_compute. reflexivity.
  - vm_compute. reflexivity.
  - vm_compute. reflexivity.
  - vm_compute. reflexivity.
Defined.

(** ** [register] and [unregister] on their own *)

(** X8.  [register] of a socket that is not in the table, called with
    the lock free (or overridden) on a stream whose update thread runs
    or waits on its own lock: the call returns; the socket is in the
    table with a device made of the bridge and of the socket's own
    address, or of the word unknown twice when the address cannot be
    got; the other entries are as before; the count of clients is one
    higher; the update thread runs; the lock, the process handles, the
    processes, what was sent and what was closed are as before. *)
Theorem register_adds_client
    (env : Env) (bridge : Bridge) (s : sock) (lock_override : bool) (st : State) :
  sockets (stream st) !! s = None ->
  negb lock_override && lock (stream st) = false ->
  is_running (update_thread (stream st)) || th_lock (update_thread (stream st)) = true ->
  exists st' device,
    register env bridge s lock_override st = Return tt st'
    /\ sockets (stream st') = <[s := device]> (sockets (stream st))
    /\ rd_bridge device = bridge
    /\ match getsockname env s with
       | Some (ip, port) => rd_ip device = ip /\ rd_port device = inl port
       | None => rd_ip device = "unknown" /\ rd_port device = inr "unknown"
       end
    /\ client_count (stream st') = (client_count (stream st) + 1)%Z
    /\ is_running (update_thread (stream st')) = true
    /\ lock (stream st') = lock (stream st)
    /\ recorder_process (stream st') = recorder_process (stream st)
    /\ encoder_process (stream st') = encoder_process (stream st)
    /\ procs (world st') = procs (world st)
    /\ received (world st') = received (world st)
    /\ closed (world st') = closed (world st).
Proof.
  intros Hs Hl Ht. exists (registered env bridge s st), (device_of env bridge s).
  rewrite (register_untracked _ _ _ _ _ Hs), Hl.
  assert (negb (is_running (update_thread (stream st)))
          && negb (th_lock (update_thread (stream st))) = false) as ->.
  { destruct (is_running _), (th_lock _); simpl in *; congruence. }
  split; [reflexivity|]. split; [reflexivity|].
  unfold device_of, registered. cbn [stream world sockets client_count update_thread lock
    recorder_process encoder_process procs received closed].
  split; [destruct (getsockname env s) as [[ip port]|]; reflexivity|].
  split; [destruct (getsockname env s) as [[ip port]|]; split; reflexivity|].
  split; [reflexivity|].
  split; [destruct (is_running (update_thread (stream st))) eqn:E; [exact E|reflexivity]|].
  repeat split; reflexivity.
Qed.

Lemma register_adds_client_witness :
  exists st' device,
    register nameless_env example_bridge 6 false four_clients = Return tt st'
    /\ sockets (stream st') !! 6 = Some device
    /\ rd_ip device = "unknown"
    /\ client_count (stream st') = 5%Z.
Proof.
  destruct (register_adds_client nameless_env example_bridge 6 false four_clients)
    as (st' & device & Hr & Hso & _ & Hip & Hcc & _).
  - vm_compute. reflexivity.
  - vm_compute. reflexivity.
  - vm_compute. reflexivity.
  - exists st', device. split; [exact Hr|].
    split; [rewrite Hso; apply lookup_insert_eq|].
    split; [exact (proj1 Hip)|]. rewrite Hcc. vm_compute. reflexivity.
Defined.

(** X9.  [resume] releases the lock of the update thread whenever the
    thread is paused.  So [register] on a stream whose thread is paused
    while that lock is free raises the error of releasing a lock that
    is not held, after the socket went into the table and the count
    went up, and with the lock of the stream given back. *)
Theorem register_on_paused_thread_with_free_lock
    (env : Env) (bridge : Bridge) (s : sock) (lock_override : bool) (st : State) :
  sockets (stream st) !! s = None ->
  negb lock_override && lock (stream st) = false ->
  is_running (update_thread (stream st)) = false ->
  th_lock (update_thread (stream st)) = false ->
  exists st',
    register env bridge s lock_override st = Raise ThreadError st'
    /\ is_Some (sockets (stream st') !! s)
    /\ client_count (stream st') = (client_count (stream st) + 1)%Z
    /\ update_thread (stream st') = mkUpdateThread true false
    /\ lock (stream st') = lock (stream st).
Proof.
  intros Hs Hl Hr Ht. exists (registered env bridge s st).
  rewrite (register_untracked _ _ _ _ _ Hs), Hl, Hr, Ht.
  split; [reflexivity|]. unfold registered.
  cbn [stream sockets client_count update_thread lock]. rewrite Hr.
  split; [rewrite lookup_insert_eq; eauto|]. repeat split; reflexivity.
Qed.

Lemma register_on_paused_thread_with_free_lock_witness :
  exists st',
    register example_env example_bridge 3 false closed_twice = Raise ThreadError st'
    /\ is_Some (sockets (stream st') !! 3).
Proof.
  destruct (register_on_paused_thread_with_free_lock example_env example_bridge 3 false
              closed_twice) as (st' & Hr & Hs & _).
  - vm_compute. reflexivity.
  - vm_compute. reflexivity.
  - vm_compute. reflexivity.
  - vm_compute. reflexivity.
  - exists st'. split; [exact Hr|exact Hs].
Defined.

(** X10.  [unregister] of a socket of the table, called with the lock
    free (or overridden): the call returns; the socket is out of the
    table and closed; the other entries are as before and no other
    socket is closed; the count of clients is one lower; nothing is
    sent.  When other clients remain, the processes and the update
    thread are left alone; when none remains, the thread is paused and
    neither handle refers to a running process.  The handles themselves
    and the lock are as before. *)
Theorem unregister_removes_client
    (s : sock) (device : RemoteDevice) (lock_override : bool) (method : nat) (st : State) :
  sockets (stream st) !! s = Some device ->
  negb lock_override && lock (stream st) = false ->
  exists st',
    unregister s lock_override method st = Return tt st'
    /\ sockets (stream st') = delete s (sockets (stream st))
    /\ closed (world st') = {[s]} ∪ closed (world st)
    /\ client_count (stream st') = (client_count (stream st) - 1)%Z
    /\ received (world st') = received (world st)
    /\ recorder_process (stream st') = recorder_process (stream st)
    /\ encoder_process (stream st') = encoder_process (stream st)
    /\ lock (stream st') = lock (stream st)
    /\ (sockets (stream st') <> ∅ ->
        procs (world st') = procs (world st)
        /\ update_thread (stream st') = update_thread (stream st))
    /\ (sockets (stream st') = ∅ ->
        is_running (update_thread (stream st')) = false
        /\ handle_alive st' (recorder_process (stream st')) = false
        /\ handle_alive st' (encoder_process (stream st')) = false).
Proof.
  intros Hs Hl. exists (unregistered s device method st).
  rewrite (unregister_tracked _ _ _ _ _ Hs), Hl.
  split; [reflexivity|]. unfold unregistered, handle_alive.
  cbn [stream world sockets client_count update_thread lock recorder_process
       encoder_process procs received closed].
  do 7 (split; [reflexivity|]).
  destruct (Nat.eqb_spec (size (delete s (sockets (stream st)))) 0) as [Hz|Hz].
  - apply map_size_empty_inv in Hz. split; [intros Hne; contradiction|].
    intros _. split; [reflexivity|].
    split; [apply alive_kill_same|apply alive_kill_other, alive_kill_same].
  - split; [intros _; split; reflexivity|].
    intros He. rewrite He, map_size_empty in Hz. contradiction.
Qed.

Lemma unregister_removes_client_witness :
  exists st',
    unregister 7 false 0 four_clients = Return tt st'
    /\ sockets (stream st') !! 7 = None
    /\ 7 ∈ closed (world st')
    /\ client_count (stream st') = 3%Z.
Proof.
  destruct (unregister_removes_client 7
              (mkRemoteDevice example_bridge "192.168.1.2" (inl 8080%Z)) false 0
              four_clients) as (st' & Hr & Hso & Hcl & Hcc & _).
  - vm_compute. reflexivity.
  - vm_compute. reflexivity.
  - exists st'. split; [exact Hr|].
    split; [rewrite Hso; apply lookup_delete_eq|].
    split; [rewrite Hcl; set_solver|]. rewrite Hcc. vm_compute. reflexivity.
Defined.

(** X11.  A socket that registers and then unregisters leaves the table
    and the count of clients as they were, and is closed. *)
Theorem register_then_unregister
    (env : Env) (bridge : Bridge) (s : sock) (method : nat) (st : State) :
  sockets (stream st) !! s = None ->
  lock (stream st) = false ->
  is_running (update_thread (stream st)) || th_lock (update_thread (stream st)) = true ->
  exists st1 st2,
    register env bridge s false st = Return tt st1
    /\ unregister s false method st1 = Return tt st2
    /\ sockets (stream st2) = sockets (stream st)
    /\ client_count (stream st2) = client_count (stream st)
    /\ s ∈ closed (world st2)
    /\ received (world st2) = received (world st).
Proof.
  intros Hs Hl Ht. exists (registered env bridge s st).
  exists (unregistered s (device_of env bridge s) method (registered env bridge s st)).
  rewrite (register_untracked _ _ _ _ _ Hs), Hl.
  assert (negb (is_running (update_thread (stream st)))
          && negb (th_lock (update_thread (stream st))) = false) as ->.
  { destruct (is_running _), (th_lock _); simpl in *; congruence. }
  split; [reflexivity|].
  rewrite (unregister_tracked s (device_of env bridge s)).
  2:{ unfold registered. cbn [stream sockets]. apply lookup_insert_eq. }
  assert (lock (stream (registered env bridge s st)) = false) as -> by exact Hl.
  split; [reflexivity|]. unfold unregistered, registered.
  cbn [stream world sockets client_count closed received].
  split; [apply delete_insert_id; exact Hs|].
  split; [lia|]. split; [set_solver|reflexivity].
Qed.

Lemma register_then_unregister_witness :
  exists st1 st2,
    register example_env example_bridge 4 false four_clients = Return tt st1
    /\ unregister 4 false 0 st1 = Return tt st2
    /\ sockets (stream st2) = sockets (stream four_clients)
    /\ client_count (stream st2) = 4%Z.
Proof.
  destruct (register_then_unregister example_env example_bridge 4 0 four_clients)
    as (st1 & st2 & H1 & H2 & Hso & Hcc & _).
  - vm_compute. reflexivity.
  - vm_compute. reflexivity.
  - vm_compute. reflexivity.
  - exists st1, st2. split; [exact H1|]. split; [exact H2|]. split; [exact Hso|].
    rewrite Hcc. vm_compute. reflexivity.
Defined.

(** ** What holds in every state a stream can reach *)

Lemma lock_held_head_stable : head_stable lock_held.
Proof.
  unfold lock_held. split; intros; stream_only; try assumption.
  all: match goal with |- context [?m !! ?p] => destruct (m !! p) end; assumption.
Qed.

Lemma communicate_gives_lock_back (fuel : nat) (env : Env) (st st' : State) :
  lock (stream st) = false ->
  final_state (communicate fuel env st) = Some st' ->
  lock (stream st') = false.
Proof.
  intros Hl H. rewrite communicate_parts in H. unfold try_finally in H.
  unfold bind at 1 in H. unfold lock_acquire at 1 in H. rewrite Hl in H.
  pose proof (keeps_tick_body lock_held fuel env lock_held_head_stable lock_held_stable
                (set_stream (with_lock true) st) eq_refl) as Hk.
  destruct (tick_head_then env (tick_tail fuel env) (set_stream (with_lock true) st))
    as [a st1|e st1| |]; cbn [post] in Hk; try discriminate.
  - unfold bind, lock_release, ret in H. unfold lock_held in Hk. rewrite Hk in H.
    injection H as <-. reflexivity.
  - unfold bind, lock_release, raise in H. unfold lock_held in Hk. rewrite Hk in H.
    injection H as <-. reflexivity.
Qed.

Lemma step_lock_free (st st' : State) : step st st' -> lock_free st -> lock_free st'.
Proof.
  unfold lock_free.
  intros [env bridge s st0 st0' E|s m st0 st0' E|fuel env st0 st0' E|p st0] Hl.
  - destruct (run_call_lock_free (call_register env bridge s) st0 Hl) as [st1 [H1 H2]].
    simpl in H1. congruence.
  - destruct (run_call_lock_free (call_unregister s m) st0 Hl) as [st1 [H1 H2]].
    simpl in H1. congruence.
  - unfold UpdateThread_run_once in E. unfold bind, gets in E.
    destruct (is_running (update_thread (stream st0))).
    + exact (communicate_gives_lock_back fuel env st0 st0' Hl E).
    + destruct (th_lock (update_thread (stream st0))); [discriminate|].
      injection E as <-. exact Hl.
  - exact Hl.
Qed.

(** X12.  No method leaves the lock of the stream held: whenever
    [register], [unregister] or a round of the update thread comes back,
    by return or by exception, the lock is free again.  So in every
    state a stream can reach the lock is free, and a call of [register]
    or [unregister] made there comes back. *)
Theorem lock_is_free_between_calls (st : State) :
  reachable st ->
  lock (stream st) = false
  /\ (forall fuel env st',
        final_state (communicate fuel env st) = Some st' -> lock (stream st') = false)
  /\ (forall c, exists st',
        final_state (run_call c st) = Some st' /\ lock (stream st') = false).
Proof.
  intros Hreach.
  assert (lock_free st) as Hl.
  { induction Hreach as [path recorder encoder w|st st' _ IH Hstep]; [reflexivity|].
    exact (step_lock_free _ _ Hstep IH). }
  split; [exact Hl|]. split.
  - intros fuel env st'. apply communicate_gives_lock_back. exact Hl.
  - intros c. apply run_call_lock_free. exact Hl.
Qed.

Lemma lock_is_free_between_calls_witness :
  lock (stream one_client_served) = false
  /\ exists st',
       final_state (run_call (call_unregister 3 0) one_client_served) = Some st'
       /\ lock (stream st') = false.
Proof.
  destruct (lock_is_free_between_calls one_client_served reachable_one_client_served)
    as (Hl & _ & Hc).
  split; [exact Hl|]. apply Hc.
Defined.

Lemma clients_keep_running_stable : stable clients_keep_running.
Proof.
  unfold clients_keep_running.
  repeat split; intros; stream_only;
    try (match goal with H : _ -> _ = true |- _ => apply H end; assumption).
  - destruct (Nat.eqb_spec (size (delete s sockets0)) 0) as [Hlast|Hlast].
    + apply map_size_empty_inv in Hlast. contradiction.
    + cbn [is_running]. match goal with H : _ -> _ = true |- _ => apply H end.
      intros ->. rewrite lookup_empty in *. discriminate.
  - destruct is_running0; reflexivity.
Qed.

(** X13.  A stream with clients is never paused: in every state a stream
    can reach, a table that is not empty goes with an update thread
    that is running. *)
Theorem clients_keep_the_thread_running (st : State) :
  reachable st ->
  sockets (stream st) <> ∅ -> is_running (update_thread (stream st)) = true.
Proof.
  induction 1 as [path recorder encoder w|st st' _ IH Hstep]; [reflexivity|].
  exact (step_stable _ clients_keep_running_stable _ _ Hstep IH).
Qed.

Lemma clients_keep_the_thread_running_witness :
  is_running (update_thread (stream one_client_served)) = true.
Proof.
  apply (clients_keep_the_thread_running one_client_served reachable_one_client_served).
  vm_compute. discriminate.
Defined.

Lemma settings_are_stable p rec enc n : stable (settings_are p rec enc n).
Proof.
  unfold settings_are. repeat split; intros; stream_only;
    repeat match goal with H : _ /\ _ |- _ => destruct H end; assumption.
Qed.

(** X14.  What a stream is built with is never changed: along any steps
    of its life the path, the recorder, the encoder and the chunk size
    are as [__init__] set them; the chunk size is 8192 throughout. *)
Theorem settings_never_change (p : string) (rec : Recorder) (enc : Encoder) (w : World)
    (st : State) :
  steps (initial_state p rec enc w) st ->
  path (stream st) = p /\ recorder (stream st) = rec /\ encoder (stream st) = enc
  /\ chunk_size (stream st) = 8192%Z.
Proof.
  intros Hsteps.
  apply (steps_stable _ _ _ (settings_are_stable p rec enc 8192) Hsteps).
  repeat split.
Qed.

Lemma settings_never_change_witness :
  path (stream one_client) = "/livingroom.mp3"
  /\ recorder (stream one_client) = mkRecorder "dlna.monitor"
  /\ encoder (stream one_client) = example_encoder
  /\ chunk_size (stream one_client) = 8192%Z.
Proof.
  apply (settings_never_change _ _ _ empty_world).
  apply rtc_once. apply (step_register example_env example_bridge 3).
  vm_compute. reflexivity.
Defined.

(** X15.  Ticks included, the count of clients is the size of the table:
    on every state a stream can reach, also after ticks of the update
    thread that dropped sockets and after processes exited,
    [client_count] equals the number of entries of [sockets]; in
    particular it is never negative. *)
Theorem count_is_table_size_when_reachable (st : State) :
  reachable st ->
  client_count (stream st) = Z.of_nat (size (sockets (stream st)))
  /\ (0 <= client_count (stream st))%Z.
Proof.
  intros H. apply reachable_count_inv in H. unfold count_inv in H.
  split; [exact H|lia].
Qed.

Lemma count_is_table_size_when_reachable_witness :
  client_count (stream one_client_served)
  = Z.of_nat (size (sockets (stream one_client_served)))
  /\ (0 <= client_count (stream one_client_served))%Z.
Proof.
  apply count_is_table_size_when_reachable. exact reachable_one_client_served.
Defined.

(** ** The first half of a tick, whatever the processes do *)

Lemma create_processes_cases (env : Env) (st : State) :
  create_processes env st =
  if can_spawn env (recorder_argv env st)
  then if can_spawn env (encoder_argv st)
       then Return tt (pair_started env st)
       else Raise OSError (recorder_started env st)
  else Raise OSError st.
Proof.
  destruct (can_spawn env (recorder_argv env st)) eqn:Hr.
  - destruct (can_spawn env (encoder_argv st)) eqn:He.
    + apply create_processes_run; assumption.
    + unfold create_processes.
      unfold bind at 1. unfold gets at 1.
      unfold bind at 1. fold (recorder_argv env st). rewrite (Popen_run _ _ _ Hr).
      unfold bind at 1. unfold modify at 1.
      unfold bind at 1. unfold gets at 1.
      unfold bind at 1. fold (recorder_started env st).
      change (split_space (enc_command (encoder (stream (recorder_started env st)))))
        with (encoder_argv st).
      unfold Popen. rewrite He. reflexivity.
  - unfold create_processes.
    unfold bind at 1. unfold gets at 1.
    unfold bind at 1. fold (recorder_argv env st).
    unfold Popen. rewrite Hr. reflexivity.
Qed.

Section TickHead.
Context (I : State -> Prop) (HI : head_stable I) (env : Env).

Lemma started_keeps (st : State) :
  I st -> I (recorder_started env st) /\ I (pair_started env st).
Proof.
  intros H.
  assert (I (recorder_started env st)) as Hr by (apply (hs_spawn_recorder I HI); exact H).
  split; [exact Hr|]. apply (hs_spawn_encoder I HI). exact Hr.
Qed.

Lemma triple_start_pair (msg : string -> log_msg) :
  triple I
    (create_processes env ;;;
     p <- gets (fun st => path (stream st)) ;;
     logging_info (msg p))
    (fun _ st => I st /\ recorder_set st /\ encoder_set st)
    (fun e st => e = OSError /\ I st /\ spawn_fails env st) False.
Proof.
  intros st H. destruct (started_keeps st H) as [Hr Hp].
  unfold bind at 1. rewrite create_processes_cases. unfold spawn_fails.
  destruct (can_spawn env (recorder_argv env st)) eqn:Er.
  - destruct (can_spawn env (encoder_argv st)) eqn:Ee.
    + unfold bind, gets, logging_info, modify. cbn [post].
      split; [apply (hs_log I HI); exact Hp|]. split; discriminate.
    + cbn [post]. split; [reflexivity|]. split; [exact Hr|]. right. exact Ee.
  - cbn [post]. split; [reflexivity|]. split; [exact H|]. left. exact Er.
Qed.

Lemma cleaned_keeps (st : State) : I st -> I (cleaned st).
Proof.
  intros H.
  change (cleaned st)
    with (killed (recorder_process (stream st)) (killed (encoder_process (stream st)) st)).
  apply (hs_kill I HI), (hs_kill I HI). exact H.
Qed.

Lemma triple_tick_head :
  triple I (tick_head env)
    (fun data st =>
       I st /\ recorder_set st /\ encoder_set st
       /\ length data <= Z.to_nat (chunk_size (stream st)))
    (fun e st => e = OSError /\ I st /\ spawn_fails env st) False.
Proof.
  unfold tick_head, tick_head_then.
  eapply triple_bind; [apply triple_gets|]. intros exist.
  eapply triple_bind
    with (Q1 := fun _ st => I st /\ recorder_set st /\ encoder_set st).
  { intros st [-> H]. unfold recorder_set, encoder_set.
    destruct (encoder_process (stream st)) as [e|] eqn:Ee;
      destruct (recorder_process (stream st)) as [r|] eqn:Er;
      cbn [andb negb when]; rewrite ?bool_decide_eq_true_2 by discriminate;
      rewrite ?bool_decide_eq_false_2 by (intros Hn; apply Hn; reflexivity);
      cbn [andb negb when].
    - cbn [ret post]. split; [exact H|]. rewrite Er, Ee. split; discriminate.
    - apply (triple_start_pair LogProcessesInitialized st H).
    - apply (triple_start_pair LogProcessesInitialized st H).
    - apply (triple_start_pair LogProcessesInitialized st H). }
  intros ?.
  eapply triple_bind
    with (Q1 := fun respond st =>
                  (I st /\ recorder_set st /\ encoder_set st)).
  { intros st (H & Hr & He). unfold recorder_set, encoder_set in *.
    destruct (recorder_process (stream st)) as [r|] eqn:Er; [|contradiction].
    destruct (encoder_process (stream st)) as [e|] eqn:Ee; [|contradiction].
    rewrite (do_processes_respond_run st r e Er Ee). cbn [post].
    rewrite Er, Ee. auto. }
  intros respond.
  eapply triple_bind
    with (Q1 := fun _ st => I st /\ recorder_set st /\ encoder_set st).
  { destruct respond; cbn [negb when].
    - intros st H. exact H.
    - intros st (H & _ & _). unfold bind at 1. rewrite cleanup_run. fold (cleaned st).
      apply (triple_start_pair LogProcessesReinitialized (cleaned st)).
      apply cleaned_keeps. exact H. }
  intros ?.
  intros st (H & Hr & He). unfold bind at 1. unfold gets at 1.
  unfold bind at 1. unfold gets at 1. unfold bind at 1.
  pose proof He as He'. unfold encoder_set in He'.
  destruct (encoder_process (stream st)) as [e|] eqn:Ee; [|contradiction].
  rewrite stdout_read_run.
  destruct (procs (world st) !! e) as [pr|]; cbn [ret post].
  - split; [apply (hs_read I HI); assumption|].
    split; [exact Hr|]. split; [unfold encoder_set; cbn; rewrite Ee; discriminate|].
    rewrite length_take. cbn. lia.
  - split; [exact H|]. split; [exact Hr|]. split; [exact He|]. cbn. lia.
Qed.

End TickHead.

(** ** The tick whose [select] fails *)

Lemma probe_step (env : Env) (s : sock) (device : RemoteDevice) (st : State) :
  sockets (stream st) !! s = Some device ->
  except_socket_error (select_one env s) (unregister s true 1) st
  = Return tt (if sock_bad env s then unregistered s device 1 st else st).
Proof.
  intros Hs. unfold except_socket_error, select_one.
  destruct (sock_bad env s); [|reflexivity].
  unfold raise. rewrite (unregister_tracked _ _ _ _ _ Hs). reflexivity.
Qed.

Lemma view_probe_step (env : Env) (s : sock) (device : RemoteDevice) (st : State)
    (s' : sock) :
  view (if sock_bad env s then unregistered s device 1 st else st) s'
  = if decide (s = s') then probed env st s' else view st s'.
Proof.
  unfold probed. destruct (sock_bad env s) eqn:E.
  - rewrite view_unregistered. destruct (decide (s = s')) as [<-|]; [rewrite E|]; reflexivity.
  - destruct (decide (s = s')) as [<-|]; [rewrite E|]; reflexivity.
Qed.

Lemma probed_ext (env : Env) (st st' : State) (s : sock) :
  view st' s = view st s -> probed env st' s = probed env st s.
Proof.
  unfold probed, view. intros [= H1 H2 H3]. destruct (sock_bad env s); congruence.
Qed.

Lemma drop_bad_sockets_run (env : Env) (socks : list sock) :
  forall st : State,
    NoDup socks ->
    (forall s, s ∈ socks -> is_Some (sockets (stream st) !! s)) ->
    exists st',
      drop_bad_sockets env socks st = Return tt st'
      /\ forall s, view st' s = if decide (s ∈ socks) then probed env st s else view st s.
Proof.
  unfold drop_bad_sockets. induction socks as [|x socks IH]; intros st Hnd Htr.
  - exists st. split; [reflexivity|]. intros s. rewrite decide_False by set_solver.
    reflexivity.
  - apply NoDup_cons in Hnd as [Hx Hnd].
    destruct (Htr x) as [device Hdev]; [set_solver|].
    cbn [for_each]. unfold bind at 1. rewrite (probe_step env x device st Hdev).
    set (st1 := if sock_bad env x then unregistered x device 1 st else st).
    assert (forall s, view st1 s = if decide (x = s) then probed env st s else view st s)
      as Hview by (intros s; apply view_probe_step).
    destruct (IH st1 Hnd) as [st' [Hrun' Hview']].
    { intros s Hs. specialize (Hview s). rewrite decide_False in Hview by set_solver.
      unfold view in Hview. injection Hview as -> _ _. apply Htr. set_solver. }
    exists st'. split; [exact Hrun'|]. intros s. rewrite Hview'.
    destruct (decide (s ∈ socks)) as [Hin|Hnin].
    + rewrite decide_True by set_solver. apply probed_ext.
      rewrite Hview. rewrite decide_False by set_solver. reflexivity.
    + rewrite Hview. destruct (decide (x = s)) as [->|Hne].
      * rewrite decide_True by set_solver. reflexivity.
      * rewrite decide_False by set_solver. reflexivity.
Qed.

Lemma tick_tail_failed_select (fuel : nat) (env : Env) (data : bytes) (st : State) :
  existsb (sock_bad env) (keys (sockets (stream st))) = true ->
  exists st',
    tick_tail fuel env data st = Return tt st'
    /\ forall s, view st' s
                 = if decide (is_Some (sockets (stream st) !! s))
                   then probed env st s else view st s.
Proof.
  intros Hbad.
  destruct (drop_bad_sockets_run env (keys (sockets (stream st))) st) as [st' [Hrun Hv]].
  { apply NoDup_keys. }
  { intros s Hs. apply elem_of_keys. exact Hs. }
  exists st'. split.
  - unfold tick_tail. unfold bind at 1. unfold gets.
    unfold bind at 1. unfold except_socket_error, select. rewrite Hbad.
    unfold raise. unfold bind at 1. unfold bind at 1. rewrite Hrun. reflexivity.
  - intros s. rewrite Hv.
    destruct (decide (s ∈ keys (sockets (stream st)))) as [Hin|Hnin].
    + rewrite decide_True by (apply elem_of_keys; exact Hin). reflexivity.
    + rewrite decide_False; [reflexivity|]. intros H. apply Hnin, elem_of_keys. exact H.
Qed.

Lemma tick_tail_returns (fuel : nat) (env : Env) (data : bytes) (st : State) :
  (forall s, send_run fuel env s data 0 <> None) ->
  exists st', tick_tail fuel env data st = Return tt st'.
Proof.
  intros Hfuel.
  destruct (existsb (sock_bad env) (keys (sockets (stream st)))) eqn:Hbad.
  - destruct (tick_tail_failed_select fuel env data st Hbad) as [st' [H _]]. eauto.
  - set (socks := keys (sockets (stream st))) in *.
    destruct (send_to_writable_run fuel env data
                (filter (fun s => writable env s = true) socks) st) as [st2 [Hw _]].
    { apply NoDup_filter, NoDup_keys. }
    { intros s Hs. apply list_elem_of_filter in Hs as [_ Hs].
      apply elem_of_keys. exact Hs. }
    { intros s _. apply Hfuel. }
    destruct (recv_from_readable_run env
                (filter (fun s => readable env s = true) socks) st2) as [st3 [Hr _]].
    { apply NoDup_filter, NoDup_keys. }
    exists st3. unfold tick_tail. unfold bind at 1. unfold gets. fold socks.
    unfold bind at 1. unfold except_socket_error, select. rewrite Hbad.
    unfold bind at 1. unfold ret.
    unfold bind. rewrite Hw. exact Hr.
Qed.

(** X16.  A tick whose [select] fails, because some socket of the table
    is bad, has read its chunk and sends it to nobody: no socket is
    handed a byte.  Each socket of the table is probed on its own; the
    bad ones are unregistered (out of the table, closed), the others
    stay in the table with their device and are not closed.  Nothing is
    read from the sockets in such a tick, and the tick returns. *)
Theorem failed_select_drops_the_chunk
    (fuel : nat) (env : Env) (st st1 : State) (data : bytes) :
  lock (stream st) = false ->
  tick_head env (set_stream (with_lock true) st) = Return data st1 ->
  existsb (sock_bad env) (keys (sockets (stream st))) = true ->
  exists st',
    communicate fuel env st = Return tt st'
    /\ (forall s, delivered (world st') s = delivered (world st) s)
    /\ (forall s device,
          sockets (stream st) !! s = Some device -> sock_bad env s = true ->
          sockets (stream st') !! s = None /\ s ∈ closed (world st'))
    /\ (forall s device,
          sockets (stream st) !! s = Some device -> sock_bad env s = false ->
          sockets (stream st') !! s = Some device
          /\ (s ∈ closed (world st') <-> s ∈ closed (world st)))
    /\ (forall s, sockets (stream st) !! s = None -> sockets (stream st') !! s = None).
Proof.
  intros Hlock Hhead Hbad.
  assert (head_frame (sockets (stream st)) (received (world st)) (closed (world st)) st1)
    as (Hso & Hrv & Hcl & Hl1).
  { pose proof (keeps_tick_head _
                  (head_frame_stable (sockets (stream st)) (received (world st))
                     (closed (world st)))
                  env (set_stream (with_lock true) st)) as Hk.
    rewrite Hhead in Hk. apply Hk. repeat split. }
  assert (forall s, view st1 s = view st s) as Hv1.
  { intros s. unfold view, delivered. rewrite Hso, Hrv, Hcl. reflexivity. }
  destruct (tick_tail_failed_select fuel env data st1) as [st3 [Htail Hv3]].
  { rewrite Hso. exact Hbad. }
  assert (lock (stream st3) = true) as Hl3.
  { pose proof (keeps_tick_tail _ lock_held_stable fuel env data st1 Hl1) as Hk.
    rewrite Htail in Hk. exact Hk. }
  assert (forall s, view (set_stream (with_lock false) st3) s
                    = if decide (is_Some (sockets (stream st) !! s))
                      then probed env st s else view st s) as Hv.
  { intros s. rewrite view_set_lock, Hv3, Hso.
    destruct (decide (is_Some (sockets (stream st) !! s))); [|apply Hv1].
    apply probed_ext, Hv1. }
  exists (set_stream (with_lock false) st3). split; [|split; [|split; [|split]]].
  - rewrite communicate_parts. unfold try_finally.
    unfold bind at 1. unfold lock_acquire at 1. rewrite Hlock.
    rewrite tick_head_then_bind. unfold bind at 1. rewrite Hhead, Htail.
    unfold bind, lock_release. rewrite Hl3. reflexivity.
  - intros s. specialize (Hv s). unfold probed in Hv.
    destruct (decide (is_Some (sockets (stream st) !! s))); [destruct (sock_bad env s)|];
      unfold view in Hv; congruence.
  - intros s device Hs Hb. specialize (Hv s).
    rewrite decide_True in Hv by eauto. unfold probed in Hv. rewrite Hb in Hv.
    apply view_inv in Hv as (H1 & _ & H3). split; [exact H1|]. apply H3. reflexivity.
  - intros s device Hs Hb. specialize (Hv s).
    rewrite decide_True in Hv by eauto. unfold probed in Hv. rewrite Hb in Hv.
    apply view_inv in Hv as (H1 & _ & H3). rewrite Hs in H1. split; [exact H1|].
    rewrite H3. apply bool_decide_eq_true.
  - intros s Hs. specialize (Hv s).
    rewrite decide_False in Hv by (rewrite Hs; apply is_Some_None).
    apply view_inv in Hv as (H1 & _ & _). rewrite H1. exact Hs.
Qed.

Lemma failed_select_drops_the_chunk_witness :
  exists st',
    communicate 8 bad_socket_env four_clients = Return tt st'
    /\ delivered (world st') 3 = []
    /\ sockets (stream st') !! 5 = None
    /\ is_Some (sockets (stream st') !! 3).
Proof.
  destruct (failed_select_drops_the_chunk 8 bad_socket_env four_clients
              four_clients_chunk_read (repeat Byte.x61 4))
    as (st' & Hc & Hd & Hbad & Hgood & _).
  - vm_compute. reflexivity.
  - vm_compute. reflexivity.
  - vm_compute. reflexivity.
  - exists st'. split; [exact Hc|]. split; [rewrite Hd; vm_compute; reflexivity|].
    split.
    + apply (Hbad 5 (mkRemoteDevice example_bridge "192.168.1.2" (inl 8080%Z)));
        vm_compute; reflexivity.
    + destruct (Hgood 3 (mkRemoteDevice example_bridge "192.168.1.2" (inl 8080%Z)))
        as [H _]; [vm_compute; reflexivity..|]. eexists. exact H.
Defined.

(** ** A tick always comes back *)

Lemma head_stable_and (I J : State -> Prop) :
  head_stable I -> head_stable J -> head_stable (fun st => I st /\ J st).
Proof.
  intros HI HJ. split.
  - intros st l [H1 H2]. split; [apply (hs_log I HI)|apply (hs_log J HJ)]; assumption.
  - intros st env argv [H1 H2].
    split; [apply (hs_spawn I HI)|apply (hs_spawn J HJ)]; assumption.
  - intros st env argv [H1 H2].
    split; [apply (hs_spawn_recorder I HI)|apply (hs_spawn_recorder J HJ)]; assumption.
  - intros st env argv [H1 H2].
    split; [apply (hs_spawn_encoder I HI)|apply (hs_spawn_encoder J HJ)]; assumption.
  - intros st h [H1 H2]. split; [apply (hs_kill I HI)|apply (hs_kill J HJ)]; assumption.
  - intros st p n [H1 H2] He.
    split; [apply (hs_read I HI)|apply (hs_read J HJ)]; assumption.
Qed.

(** X17.  A tick started with the lock free, on sockets in blocking
    mode and with rounds enough for a chunk, always comes back, with
    the lock free again.  It returns, and then both process handles are
    set; or it raises [OSError], and then one of the two programs could
    not be started, and the sockets were not touched: the table is as
    before, nothing was sent, nothing was closed.  It raises nothing
    else; in particular the calls of [unregister] it makes never end in
    [sys.exit].  When both programs can be started it returns. *)
Theorem tick_comes_back (fuel : nat) (env : Env) (st : State) :
  lock (stream st) = false ->
  send_progress env ->
  Z.to_nat (chunk_size (stream st)) <= fuel ->
  ((exists st',
      communicate fuel env st = Return tt st'
      /\ lock (stream st') = false
      /\ recorder_process (stream st') <> None
      /\ encoder_process (stream st') <> None)
   \/ (exists st',
         communicate fuel env st = Raise OSError st'
         /\ spawn_fails env st
         /\ lock (stream st') = false
         /\ sockets (stream st') = sockets (stream st)
         /\ received (world st') = received (world st)
         /\ closed (world st') = closed (world st)))
  /\ (can_spawn env (recorder_argv env st) = true ->
      can_spawn env (encoder_argv st) = true ->
      exists st', communicate fuel env st = Return tt st').
Proof.
  intros Hlock Hprog Hfuel.
  set (I := fun s : State =>
              head_frame (sockets (stream st)) (received (world st)) (closed (world st)) s
              /\ settings_are (path (stream st)) (recorder (stream st))
                   (encoder (stream st)) (chunk_size (stream st)) s).
  assert (head_stable I) as HI.
  { apply head_stable_and; [apply head_frame_stable|].
    apply (s_head _ (settings_are_stable _ _ _ _)). }
  pose proof (triple_tick_head I HI env (set_stream (with_lock true) st)) as Hh.
  assert (I (set_stream (with_lock true) st)) as H0 by (repeat split).
  specialize (Hh H0).
  assert ((exists st',
      communicate fuel env st = Return tt st'
      /\ lock (stream st') = false
      /\ recorder_process (stream st') <> None
      /\ encoder_process (stream st') <> None)
   \/ (exists st',
         communicate fuel env st = Raise OSError st'
         /\ spawn_fails env st
         /\ lock (stream st') = false
         /\ sockets (stream st') = sockets (stream st)
         /\ received (world st') = received (world st)
         /\ closed (world st') = closed (world st))) as Hcases.
  { assert (forall o, tick_head env (set_stream (with_lock true) st) = o ->
                      communicate fuel env st
                      = try_finally (bind (fun _ => o) (tick_tail fuel env)) lock_release
                          (set_stream (with_lock true) st)) as Hc.
    { intros o <-. rewrite communicate_parts. unfold try_finally.
      unfold bind at 1. unfold lock_acquire at 1. rewrite Hlock.
      rewrite tick_head_then_bind. reflexivity. }
    destruct (tick_head env (set_stream (with_lock true) st)) as [data st1|e st1| |];
      cbn [post] in Hh; try contradiction; rewrite (Hc _ eq_refl); clear Hc;
      unfold try_finally; unfold bind at 1.
    - destruct Hh as (((Hso & Hrv & Hcl & Hl1) & (_ & _ & _ & Hn)) & Hr & He & Hlen).
      destruct (tick_tail_returns fuel env data st1) as [st3 Ht].
      { intros s. apply send_run_enough_fuel; [exact Hprog|]. rewrite Hn in Hlen. lia. }
      pose proof (keeps_tick_tail _ lock_held_stable fuel env data st1 Hl1) as Hk3.
      pose proof (keeps_tick_tail _ (s_tail _ recorder_set_stable) fuel env data st1 Hr)
        as Hkr.
      pose proof (keeps_tick_tail _ (s_tail _ encoder_set_stable) fuel env data st1 He)
        as Hke.
      rewrite Ht in Hk3, Hkr, Hke. cbn [post] in Hk3, Hkr, Hke.
      left. exists (set_stream (with_lock false) st3).
      rewrite Ht. unfold bind, lock_release, ret. unfold lock_held in Hk3. rewrite Hk3.
      split; [reflexivity|]. split; [reflexivity|]. split; [exact Hkr|exact Hke].
    - destruct Hh as (-> & ((Hso & Hrv & Hcl & Hl1) & (_ & Hrec & Henc & _)) & Hsp).
      right. exists (set_stream (with_lock false) st1).
      unfold bind, lock_release, raise. rewrite Hl1.
      split; [reflexivity|]. split.
      { unfold spawn_fails, recorder_argv, encoder_argv in *.
        rewrite Hrec, Henc in Hsp. exact Hsp. }
      split; [reflexivity|]. split; [exact Hso|]. split; [exact Hrv|exact Hcl]. }
  split; [exact Hcases|]. intros Hsr Hse.
  destruct Hcases as [(st' & Hc & _)|(st' & _ & [Hf|Hf] & _)]; [eauto|congruence..].
Qed.

Lemma tick_comes_back_witness :
  (exists st', communicate (Z.to_nat 8192) example_env four_clients = Return tt st')
  /\ (exists st',
        communicate (Z.to_nat 8192) no_encoder_env four_clients = Raise OSError st'
        /\ sockets (stream st') = sockets (stream four_clients)).
Proof.
  split.
  - apply (tick_comes_back (Z.to_nat 8192) example_env four_clients).
    + vm_compute. reflexivity.
    + exact example_env_progress.
    + vm_compute. lia.
    + reflexivity.
    + reflexivity.
  - destruct (tick_comes_back (Z.to_nat 8192) no_encoder_env four_clients)
      as [[(st' & Hc & _)|(st' & Hc & _ & _ & Hso & _)] _].
    + vm_compute. reflexivity.
    + exact example_env_progress.
    + vm_compute. lia.
    + exfalso. revert Hc. vm_compute. discriminate.
    + exists st'. split; [exact Hc|exact Hso].
Defined.

(** ** [_send_data] on its own *)

Lemma send_run_failed_short (fuel : nat) (env : Env) (s : sock) (data : bytes)
    (sent : nat) (chunks : list bytes) :
  send_run fuel env s data sent = Some (false, chunks) ->
  length (concat chunks) < length (drop sent data).
Proof.
  revert sent chunks. induction fuel as [|fuel IH]; intros sent chunks; simpl.
  - destruct (Nat.ltb_spec sent (length data)); discriminate.
  - destruct (Nat.ltb_spec sent (length data)); [|discriminate].
    destruct (send_result env s (drop sent data)) as [n|].
    2:{ intros [= <-]. simpl. rewrite length_drop. lia. }
    destruct (send_run fuel env s data _) as [[ok' chunks']|] eqn:E; [|discriminate].
    intros [= -> <-]. apply IH in E. simpl.
    rewrite length_app, length_take. rewrite !length_drop in *. lia.
Qed.

(** X18.  [_send_data] hands the buffer over in order and once, however
    [send] cuts it up.  On a socket in blocking mode, given rounds
    enough, it returns, and then the socket has been handed exactly the
    buffer; or it raises [socket.error], and then the socket has been
    handed a part of the buffer from its start, not all of it.  Nothing
    else changes: not the stream, not the processes, not what other
    sockets were handed, not what is closed.  For an empty buffer it
    returns without calling [send]. *)
Theorem send_data_hands_over_in_order
    (fuel : nat) (env : Env) (s : sock) (data : bytes) (st : State) :
  send_progress env ->
  length data <= fuel ->
  (exists st' got rest,
     data = got ++ rest
     /\ delivered (world st') s = delivered (world st) s ++ got
     /\ (_send_data fuel env s data st = Return tt st' /\ rest = []
         \/ _send_data fuel env s data st = Raise socket_error st' /\ rest <> [])
     /\ stream st' = stream st
     /\ procs (world st') = procs (world st)
     /\ closed (world st') = closed (world st)
     /\ (forall s', s' <> s -> delivered (world st') s' = delivered (world st) s'))
  /\ _send_data fuel env s [] st = Return tt st.
Proof.
  intros Hprog Hfuel. split.
  2:{ unfold _send_data. destruct fuel; reflexivity. }
  unfold _send_data. rewrite _send_data_loop_run.
  destruct (send_run fuel env s data 0) as [[ok chunks]|] eqn:E.
  2:{ exfalso. apply (send_run_enough_fuel fuel env s data 0 Hprog); [lia|exact E]. }
  destruct (send_run_prefix _ _ _ _ _ _ _ E) as [rest [Hd Hrest]].
  rewrite drop_0 in Hd.
  exists (deliver_all s chunks st), (concat chunks), rest.
  split; [exact Hd|].
  split; [rewrite deliver_all_delivered, decide_True by reflexivity; reflexivity|].
  split.
  { destruct ok.
    - left. split; [reflexivity|]. apply Hrest. reflexivity.
    - right. split; [reflexivity|]. intros ->.
      apply send_run_failed_short in E. rewrite drop_0, Hd, app_nil_r in E. lia. }
  split; [apply deliver_all_stream|].
  destruct (deliver_all_world s chunks st) as (Hp & Hc & _).
  split; [exact Hp|]. split; [exact Hc|].
  intros s' Hne. rewrite deliver_all_delivered, decide_False by congruence. reflexivity.
Qed.

Lemma send_data_hands_over_in_order_witness :
  exists st',
    _send_data 8 example_env 3 (repeat Byte.x61 4) four_clients = Return tt st'
    /\ delivered (world st') 3 = repeat Byte.x61 4.
Proof.
  destruct (send_data_hands_over_in_order 8 example_env 3 (repeat Byte.x61 4)
              four_clients) as [(st' & got & rest & Hd & Hg & [[Hr Hn]|[Hr _]] & _) _].
  - exact example_env_progress.
  - simpl. lia.
  - exists st'. split; [exact Hr|]. rewrite Hg. subst rest.
    rewrite app_nil_r in Hd. rewrite <- Hd. vm_compute. reflexivity.
  - exfalso. revert Hr. vm_compute. discriminate.
Defined.

(** X19.  The loop of [_send_data] has no other way out than the whole
    buffer handed over or an error of [send]: on a socket whose [send]
    takes nothing of a buffer that is not empty, no number of rounds
    ends it. *)
Theorem send_data_spins_when_nothing_is_taken
    (fuel : nat) (env : Env) (s : sock) (data : bytes) (st : State) :
  (forall buf, send_result env s buf = Sent 0) ->
  data <> [] ->
  _send_data fuel env s data st = OutOfFuel.
Proof.
  intros Hz Hne. unfold _send_data. rewrite _send_data_loop_run.
  assert (forall sent, sent < length data -> send_run fuel env s data sent = None) as H.
  { induction fuel as [|fuel IH]; intros sent Hlt; simpl.
    - destruct (Nat.ltb_spec sent (length data)); [reflexivity|lia].
    - destruct (Nat.ltb_spec sent (length data)); [|lia].
      rewrite Hz. cbn [Nat.min]. rewrite Nat.add_0_r, (IH sent Hlt). reflexivity. }
  rewrite H; [reflexivity|]. destruct data; [contradiction|simpl; lia].
Qed.

Lemma send_data_spins_when_nothing_is_taken_witness :
  _send_data 1000 stalled_env 3 [Byte.x61] four_clients = OutOfFuel.
Proof.
  apply send_data_spins_when_nothing_is_taken.
  - intros buf. reflexivity.
  - discriminate.
Defined.

(** ** [cleanup], [create_processes] and [shutdown] on their own *)

Lemma kill_handle_other (h : option pid) (ps : gmap pid Process) (p : pid) :
  h <> Some p -> kill_handle h ps !! p = ps !! p.
Proof.
  intros Hne. destruct h as [q|]; [|reflexivity]. simpl.
  destruct (ps !! q) as [pr|]; [|reflexivity].
  destruct (running pr); [|reflexivity].
  apply lookup_insert_ne. congruence.
Qed.

(** X20.  [cleanup] never raises, whatever the handles are: null, or
    of a process that has already exited, or of a running one.  It kills
    what runs behind the two handles and nothing else: afterwards
    neither handle refers to a running process, every other process is
    as it was, the output left to read is kept for all of them, and the
    handles themselves stay as they are. *)
Theorem cleanup_never_raises (st : State) :
  exists st',
    cleanup st = Return tt st'
    /\ stream st' = stream st
    /\ handle_alive st' (recorder_process (stream st)) = false
    /\ handle_alive st' (encoder_process (stream st)) = false
    /\ (forall p,
          recorder_process (stream st) <> Some p ->
          encoder_process (stream st) <> Some p ->
          procs (world st') !! p = procs (world st) !! p)
    /\ (forall p, unread st' p = unread st p)
    /\ dom (procs (world st')) = dom (procs (world st))
    /\ received (world st') = received (world st)
    /\ closed (world st') = closed (world st)
    /\ log (world st') = log (world st).
Proof.
  eexists. split; [apply cleanup_run|].
  unfold handle_alive, unread. unfold_updates.
  split; [reflexivity|].
  split; [apply alive_kill_same|].
  split; [apply alive_kill_other, alive_kill_same|].
  split.
  { intros p Hr He. rewrite !kill_handle_other by assumption. reflexivity. }
  split; [intros p; rewrite !kill_handle_stdout; reflexivity|].
  split; [rewrite !kill_handle_dom; reflexivity|].
  repeat split; reflexivity.
Qed.

(** X21.  When the recorder can be started and the encoder cannot,
    [create_processes] raises [OSError] with the recorder started: the
    recorder handle refers to a new process, which runs, the encoder
    handle is as it was, and every process that was there is as it
    was.  When the recorder cannot be started, nothing changes. *)
Theorem encoder_failure_leaves_recorder_running (env : Env) (st : State) :
  can_spawn env (encoder_argv st) = false ->
  exists st',
    create_processes env st = Raise OSError st'
    /\ encoder_process (stream st') = encoder_process (stream st)
    /\ (forall p, is_Some (procs (world st) !! p) ->
                  procs (world st') !! p = procs (world st) !! p)
    /\ if can_spawn env (recorder_argv env st)
       then recorder_process (stream st') = Some (new_pid st)
            /\ procs (world st) !! new_pid st = None
            /\ handle_alive st' (Some (new_pid st)) = true
       else st' = st.
Proof.
  intros He. rewrite create_processes_cases, He.
  destruct (can_spawn env (recorder_argv env st)).
  - exists (recorder_started env st). split; [reflexivity|].
    assert (procs (world st) !! new_pid st = None) as Hnew.
    { unfold new_pid. apply not_elem_of_dom. apply is_fresh. }
    unfold recorder_started, spawned, handle_alive, alive. unfold_updates.
    split; [reflexivity|]. split.
    { intros p Hp. apply lookup_insert_ne. intros <-.
      unfold new_pid in Hnew. rewrite Hnew in Hp. destruct Hp; discriminate. }
    split; [reflexivity|]. split; [exact Hnew|].
    unfold new_pid. rewrite lookup_insert_eq. reflexivity.
  - exists st. split; [reflexivity|]. repeat split; reflexivity.
Qed.

Lemma encoder_failure_leaves_recorder_running_witness :
  exists st',
    create_processes no_encoder_env four_clients = Raise OSError st'
    /\ recorder_process (stream st') = Some 0
    /\ encoder_process (stream st') = None.
Proof.
  destruct (encoder_failure_leaves_recorder_running no_encoder_env four_clients)
    as (st' & Hc & He & _ & Hr).
  - vm_compute. reflexivity.
  - exists st'. split; [exact Hc|].
    change (can_spawn no_encoder_env (recorder_argv no_encoder_env four_clients))
      with true in Hr.
    destruct Hr as (Hr & _). split; [rewrite Hr; vm_compute; reflexivity|].
    rewrite He. vm_compute. reflexivity.
Defined.

Lemma close_all_run (l : list sock) :
  forall st : State,
    exists st',
      for_each l sock_close st = Return tt st'
      /\ stream st' = stream st
      /\ procs (world st') = procs (world st)
      /\ received (world st') = received (world st)
      /\ log (world st') = log (world st)
      /\ forall s, s ∈ closed (world st') <-> s ∈ l \/ s ∈ closed (world st).
Proof.
  induction l as [|x l IH]; intros st.
  - exists st. split; [reflexivity|]. repeat split; try reflexivity.
    + intros H. right. exact H.
    + intros [H|H]; [set_solver|exact H].
  - cbn [for_each]. unfold bind at 1. unfold sock_close at 1. unfold modify.
    destruct (IH (set_world (fun w => with_closed ({[x]} ∪ closed w) w) st))
      as (st' & Hr & Hs & Hp & Hv & Hl & Hc).
    exists st'. split; [exact Hr|].
    split; [rewrite Hs; reflexivity|]. split; [rewrite Hp; reflexivity|].
    split; [rewrite Hv; reflexivity|]. split; [rewrite Hl; reflexivity|].
    intros s. rewrite Hc. unfold_updates. set_solver.
Qed.

(** X22.  [shutdown] closes the sockets of the table and does nothing
    else to the stream: a socket is closed afterwards exactly when it
    was in the table or was closed before; the table still lists the
    sockets, the count of clients is as it was, the processes are not
    killed, nothing is sent. *)
Theorem shutdown_closes_the_sockets (st : State) :
  exists st',
    shutdown st = Return tt st'
    /\ stream st' = stream st
    /\ procs (world st') = procs (world st)
    /\ received (world st') = received (world st)
    /\ forall s, s ∈ closed (world st')
                 <-> is_Some (sockets (stream st) !! s) \/ s ∈ closed (world st).
Proof.
  unfold shutdown. unfold bind, gets.
  destruct (close_all_run (keys (sockets (stream st))) st)
    as (st' & Hr & Hs & Hp & Hv & _ & Hc).
  exists st'. split; [exact Hr|]. split; [exact Hs|]. split; [exact Hp|].
  split; [exact Hv|]. intros s. rewrite Hc, elem_of_keys. reflexivity.
Qed.

(** ** The registry after any series of [get_stream] calls *)

Lemma first_call_snoc (p : string) (calls : list (string * Bridge * Encoder))
    (c : string * Bridge * Encoder) :
  first_call p (calls ++ [c])
  = match first_call p calls with
    | Some x => Some x
    | None => if String.eqb (fst (fst c)) p then Some c else None
    end.
Proof.
  unfold first_call. induction calls as [|x calls IH]; simpl.
  - destruct (String.eqb (fst (fst c)) p); reflexivity.
  - destruct (String.eqb (fst (fst x)) p); [reflexivity|exact IH].
Qed.

Lemma get_streams_snoc (calls : list (string * Bridge * Encoder))
    (c : string * Bridge * Encoder) (sm : StreamManager) :
  get_streams (calls ++ [c]) sm
  = snd (get_stream (fst (fst c)) (snd (fst c)) (snd c) (get_streams calls sm)).
Proof. unfold get_streams. rewrite fold_left_app. reflexivity. Qed.

Lemma registry_built_step (calls : list (string * Bridge * Encoder))
    (p0 : string) (b0 : Bridge) (e0 : Encoder) (sm : StreamManager) :
  registry_built calls sm ->
  registry_built (calls ++ [(p0, b0, e0)]) (snd (get_stream p0 b0 e0 sm)).
Proof.
  intros (Hb & Hi & Hd).
  destruct (streams sm !! p0) as [r0|] eqn:E.
  - rewrite (get_stream_existing _ _ _ _ _ E). cbn [snd]. split; [|split].
    + intros p r Hp. destruct (Hb p r Hp) as (b & e & Hf & Hh).
      exists b, e. rewrite first_call_snoc, Hf. auto.
    + exact Hi.
    + intros p. rewrite first_call_snoc. cbn [fst]. rewrite Hd.
      destruct (first_call p calls) as [x|] eqn:F; [split; eauto|].
      destruct (String.eqb_spec p0 p) as [<-|Hne]; [|reflexivity].
      exfalso. assert (is_Some (first_call p0 calls)) as [x Hx] by (apply Hd; eauto).
      congruence.
  - assert (first_call p0 calls = None) as Hnone.
    { destruct (first_call p0 calls) eqn:F; [|reflexivity].
      assert (is_Some (streams sm !! p0)) as [r Hr] by (apply Hd; eauto).
      congruence. }
    assert (forall p r, streams sm !! p = Some r -> r <> fresh (dom (heap sm))) as Hold.
    { intros p r Hp ->. destruct (Hb p _ Hp) as (b & e & _ & Hh).
      rewrite fresh_not_in_heap in Hh. discriminate. }
    rewrite (get_stream_new _ _ _ _ E). unfold registry_built.
    cbn [snd streams heap]. split; [|split].
    + intros p r. destruct (decide (p0 = p)) as [<-|Hne].
      * rewrite lookup_insert_eq. intros [= <-]. exists b0, e0.
        rewrite first_call_snoc, Hnone. cbn [fst]. rewrite String.eqb_refl.
        split; [reflexivity|]. apply lookup_insert_eq.
      * rewrite lookup_insert_ne by assumption. intros Hp.
        destruct (Hb p r Hp) as (b & e & Hf & Hh). exists b, e.
        rewrite first_call_snoc, Hf. split; [reflexivity|].
        rewrite lookup_insert_ne; [exact Hh|]. intros Hr. exact (Hold p r Hp (eq_sym Hr)).
    + intros p1 p2 r.
      destruct (decide (p0 = p1)) as [<-|H1]; destruct (decide (p0 = p2)) as [<-|H2].
      * reflexivity.
      * rewrite lookup_insert_eq, lookup_insert_ne by assumption.
        intros [= <-] Hp. exfalso. exact (Hold _ _ Hp eq_refl).
      * rewrite lookup_insert_eq, lookup_insert_ne by assumption.
        intros Hp [= <-]. exfalso. exact (Hold _ _ Hp eq_refl).
      * rewrite !lookup_insert_ne by assumption. apply Hi.
    + intros p. rewrite first_call_snoc. cbn [fst].
      destruct (decide (p0 = p)) as [<-|Hne].
      * rewrite lookup_insert_eq, Hnone, String.eqb_refl. split; eauto.
      * rewrite lookup_insert_ne by assumption. rewrite Hd.
        destruct (first_call p calls) as [x|]; [reflexivity|].
        destruct (String.eqb_spec p0 p); [contradiction|reflexivity].
Qed.

Lemma registry_built_calls (calls : list (string * Bridge * Encoder)) :
  registry_built calls (get_streams calls new_StreamManager).
Proof.
  induction calls as [|[[p0 b0] e0] calls IH] using rev_ind.
  - split; [|split].
    + intros p r H. simpl in H. rewrite lookup_empty in H. discriminate.
    + intros p1 p2 r H. simpl in H. rewrite lookup_empty in H. discriminate.
    + intros p. simpl. rewrite lookup_empty. split; intros [x H]; discriminate.
  - rewrite get_streams_snoc. apply registry_built_step. exact IH.
Qed.

(** X23.  After any series of [get_stream] calls on a new manager the
    registry has a stream for exactly the paths that were asked for;
    the stream of a path carries that path and was built from the
    bridge and the encoder of the first call for the path, those of
    later calls for it being ignored; and streams of different paths
    are different objects. *)
Theorem registry_after_calls (calls : list (string * Bridge * Encoder)) :
  let sm := get_streams calls new_StreamManager in
  (forall p, is_Some (streams sm !! p) <-> exists b e, In (p, b, e) calls)
  /\ (forall p r,
        streams sm !! p = Some r ->
        exists b e ps,
          first_call p calls = Some (p, b, e)
          /\ heap sm !! r = Some ps
          /\ path ps = p
          /\ recorder ps = mkRecorder (monitor (sink b))
          /\ encoder ps = e)
  /\ (forall p1 p2 r1 r2,
        streams sm !! p1 = Some r1 -> streams sm !! p2 = Some r2 ->
        p1 <> p2 -> r1 <> r2).
Proof.
  cbv zeta. destruct (registry_built_calls calls) as (Hb & Hi & Hd).
  split; [|split].
  - intros p. rewrite Hd. unfold first_call. split.
    + intros [[[p' b] e] H]. apply find_some in H as [Hin Hp].
      apply String.eqb_eq in Hp. cbn [fst] in Hp. subst p'. eauto.
    + intros (b & e & Hin).
      destruct (find (fun c => String.eqb (fst (fst c)) p) calls) as [x|] eqn:F; [eauto|].
      apply (find_none _ _ F) in Hin. cbn [fst] in Hin.
      rewrite String.eqb_refl in Hin. discriminate.
  - intros p r Hp. destruct (Hb p r Hp) as (b & e & Hf & Hh).
    exists b, e, (new_ProcessStream p (mkRecorder (monitor (sink b))) e).
    repeat split; assumption.
  - intros p1 p2 r1 r2 H1 H2 Hne ->. apply Hne. exact (Hi _ _ _ H1 H2).
Qed.

Lemma registry_after_calls_witness :
  let sm := get_streams [("/livingroom.mp3", example_bridge, example_encoder);
                         ("/kitchen.mp3", kitchen_bridge, example_encoder);
                         ("/livingroom.mp3", kitchen_bridge, example_encoder)]
              new_StreamManager in
  exists r1 r2 ps,
    streams sm !! "/livingroom.mp3" = Some r1
    /\ streams sm !! "/kitchen.mp3" = Some r2
    /\ r1 <> r2
    /\ heap sm !! r1 = Some ps
    /\ recorder ps = mkRecorder "dlna.monitor".
Proof.
  cbv zeta.
  destruct (registry_after_calls
              [("/livingroom.mp3", example_bridge, example_encoder);
               ("/kitchen.mp3", kitchen_bridge, example_encoder);
               ("/livingroom.mp3", kitchen_bridge, example_encoder)])
    as (Hd & Hb & Hne).
  destruct (proj2 (Hd "/livingroom.mp3")) as [r1 H1].
  { exists example_bridge, example_encoder. left. reflexivity. }
  destruct (proj2 (Hd "/kitchen.mp3")) as [r2 H2].
  { exists kitchen_bridge, example_encoder. right. left. reflexivity. }
  destruct (Hb _ _ H1) as (b & e & ps & Hf & Hh & _ & Hr & _).
  exists r1, r2, ps. split; [exact H1|]. split; [exact H2|].
  split; [apply (Hne _ _ _ _ H1 H2); discriminate|].
  split; [exact Hh|]. rewrite Hr.
  vm_compute in Hf. injection Hf as <- _. reflexivity.
Defined.

(** ** [do_GET] beyond the response *)

Lemma on_stream_register (env : Env) (bridge : Bridge) (s : sock) (r : ref)
    (ps : ProcessStream) (sm : StreamManager) (w : World) :
  heap sm !! r = Some ps ->
  sockets ps !! s = None ->
  lock ps = false ->
  is_running (update_thread ps) || th_lock (update_thread ps) = true ->
  on_stream r (register env bridge s false) (mkServerState sm w)
  = Some (Return tt (registered env bridge s (mkState ps w)),
          mkServerState
            (mkStreamManager (streams sm)
               (<[r := stream (registered env bridge s (mkState ps w))]> (heap sm)))
            (world (registered env bridge s (mkState ps w)))).
Proof.
  intros Hh Hs Hl Ht. unfold on_stream. cbn [stream_manager os]. rewrite Hh.
  rewrite (register_untracked env bridge s false (mkState ps w) Hs).
  cbn [stream negb andb]. rewrite Hl.
  assert (negb (is_running (update_thread ps)) && negb (th_lock (update_thread ps)) = false)
    as ->.
  { destruct (is_running _), (th_lock _); simpl in *; congruence. }
  reflexivity.
Qed.

Lemma handle_headers_cases (server : StreamServer) (path : string) :
  exists h,
    handle_headers server path = Some h
    /\ ((status (wfile h) = Some 200%Z /\ exists b e, returned h = (Some b, Some e))
        \/ (status (wfile h) = Some 404%Z /\ returned h = (None, None))).
Proof.
  unfold handle_headers. rewrite chop_request_path_spec.
  destruct (findall false path_re path) as [|m l].
  - eexists. split; [reflexivity|]. right. split; reflexivity.
  - destruct (first_bridge (group 1 m) (bridges server)) as [b|];
      destruct (first_encoder (group 2 m) (encoders server)) as [e|];
      eexists; (split; [reflexivity|]).
    + left. split; [reflexivity|]. eauto.
    + right. split; reflexivity.
    + right. split; reflexivity.
    + right. split; reflexivity.
Qed.

(** X24.  A GET for /name.suffix that finds its device and its encoder
    registers the socket of the request with the stream of that path:
    the stream already stored under the path, or a new one stored under
    it.  When that stream is at rest (its lock free, its update thread
    running or waiting) and does not yet track the socket,
    [register] returns, and afterwards the registry holds under the
    path a stream whose table maps the socket to a device of the first
    bridge with that name; the entries of the other paths and the
    other stream objects are as before. *)
Theorem do_GET_registers_the_request
    (env : Env) (server : StreamServer) (name suffix' : string) (request : sock)
    (ss : ServerState) (b : Bridge) (e : Encoder) :
  registry_ok (stream_manager ss) ->
  has_char "."%char name = false ->
  has_char newline name = false ->
  has_char newline suffix' = false ->
  first_bridge name (bridges server) = Some b ->
  first_encoder suffix' (encoders server) = Some e ->
  (forall r ps,
     streams (stream_manager ss) !! stream_path name suffix' = Some r ->
     heap (stream_manager ss) !! r = Some ps ->
     lock ps = false /\ sockets ps !! request = None
     /\ is_running (update_thread ps) || th_lock (update_thread ps) = true) ->
  exists h ss' st' r ps' device,
    do_GET env server (stream_path name suffix') request ss = Some (h, ss')
    /\ status (wfile h) = Some 200%Z
    /\ returned h = Some (Return tt st')
    /\ streams (stream_manager ss') !! stream_path name suffix' = Some r
    /\ heap (stream_manager ss') !! r = Some ps'
    /\ (forall r0, streams (stream_manager ss) !! stream_path name suffix' = Some r0 ->
                   r = r0)
    /\ (streams (stream_manager ss) !! stream_path name suffix' = None ->
        heap (stream_manager ss) !! r = None
        /\ path ps' = stream_path name suffix'
        /\ recorder ps' = mkRecorder (monitor (sink b))
        /\ encoder ps' = e)
    /\ sockets ps' !! request = Some device
    /\ rd_bridge device = b
    /\ (forall p, p <> stream_path name suffix' ->
                  streams (stream_manager ss') !! p = streams (stream_manager ss) !! p)
    /\ (forall r', r' <> r ->
                   heap (stream_manager ss') !! r' = heap (stream_manager ss) !! r').
Proof.
  intros Hok Hdot Hnl Hs Hb He Hrest.
  unfold do_GET. rewrite (handle_headers_stream_path _ _ _ Hdot Hnl Hs), Hb, He.
  cbn [returned wfile handler_log].
  set (p := stream_path name suffix') in *.
  destruct (streams (stream_manager ss) !! p) as [r0|] eqn:E.
  - rewrite (get_stream_existing _ _ _ _ _ E).
    destruct (Hok _ _ E) as [ps Hps].
    destruct (Hrest r0 ps eq_refl Hps) as (Hl & Hreq & Ht).
    rewrite (on_stream_register env b request r0 ps _ _ Hps Hreq Hl Ht).
    eexists _, _, _, r0, _, (device_of env b request).
    split; [reflexivity|]. split; [reflexivity|]. split; [reflexivity|].
    cbn [stream_manager streams heap].
    split; [exact E|]. split; [apply lookup_insert_eq|].
    split; [intros r1 [= <-]; reflexivity|]. split; [discriminate|].
    unfold registered. cbn [stream sockets].
    split; [apply lookup_insert_eq|].
    split; [unfold device_of; destruct (getsockname env request) as [[ip port]|];
            reflexivity|].
    split; [reflexivity|]. intros r' Hr'. apply lookup_insert_ne. congruence.
  - rewrite (get_stream_new _ _ _ _ E).
    set (r := fresh (dom (heap (stream_manager ss)))).
    set (ps := new_ProcessStream p (mkRecorder (monitor (sink b))) e).
    rewrite (on_stream_register env b request r ps).
    2:{ cbn [heap]. apply lookup_insert_eq. }
    2:{ apply lookup_empty. }
    2:{ reflexivity. }
    2:{ reflexivity. }
    eexists _, _, _, r, _, (device_of env b request).
    split; [reflexivity|]. split; [reflexivity|]. split; [reflexivity|].
    cbn [stream_manager streams heap].
    split; [apply lookup_insert_eq|]. split; [apply lookup_insert_eq|].
    split; [discriminate|].
    split; [intros _; split; [apply fresh_not_in_heap|repeat split]|].
    unfold registered. cbn [stream sockets].
    split; [apply lookup_insert_eq|].
    split; [unfold device_of; destruct (getsockname env request) as [[ip port]|];
            reflexivity|].
    split.
    + intros p' Hp'. apply lookup_insert_ne. congruence.
    + intros r' Hr'. rewrite !lookup_insert_ne by congruence. reflexivity.
Qed.

Lemma do_GET_registers_the_request_witness :
  exists h ss' r ps' device,
    do_GET example_env example_server "/livingroom.mp3" 4
      (mkServerState new_StreamManager empty_world) = Some (h, ss')
    /\ streams (stream_manager ss') !! "/livingroom.mp3" = Some r
    /\ heap (stream_manager ss') !! r = Some ps'
    /\ sockets ps' !! 4 = Some device
    /\ rd_bridge device = example_bridge.
Proof.
  destruct (do_GET_registers_the_request example_env example_server "livingroom" "mp3" 4
              (mkServerState new_StreamManager empty_world) example_bridge
              example_encoder)
    as (h & ss' & st' & r & ps' & device & Hg & _ & _ & Hs & Hh & _ & _ & Hd & Hb & _).
  - intros p r H. vm_compute in H. discriminate.
  - vm_compute. reflexivity.
  - vm_compute. reflexivity.
  - vm_compute. reflexivity.
  - vm_compute. reflexivity.
  - vm_compute. reflexivity.
  - intros r ps H. vm_compute in H. discriminate.
  - exists h, ss', r, ps', device. auto.
Defined.

(** X25.  A GET that is not answered 200 is answered 404, makes no
    stream and registers nothing: the registry and everything around it
    are as before the request. *)
Theorem do_GET_without_stream_changes_nothing
    (env : Env) (server : StreamServer) (path : string) (request : sock)
    (ss ss' : ServerState) (h : handled (option (outcome unit))) :
  do_GET env server path request ss = Some (h, ss') ->
  status (wfile h) <> Some 200%Z ->
  ss' = ss /\ returned h = None /\ status (wfile h) = Some 404%Z.
Proof.
  unfold do_GET.
  destruct (handle_headers_cases server path) as [h0 [-> [[H200 [b [e Hr]]]|[H404 Hr]]]];
    rewrite Hr.
  - destruct (get_stream path b e (stream_manager ss)) as [r sm].
    destruct (on_stream r (register env b request false) (mkServerState sm (os ss)))
      as [[o ss1]|]; [|discriminate].
    intros [= <- <-] Hn. cbn [wfile] in Hn. contradiction.
  - intros [= <- <-] _. cbn [wfile returned]. auto.
Qed.

Lemma do_GET_without_stream_changes_nothing_witness :
  mkServerState new_StreamManager empty_world = mkServerState new_StreamManager empty_world
  /\ returned (mkHandled [send_error 404 "File not found: /livingroom.flac"]
                 [LogRequestedURL "/livingroom.flac"; LogError404 "/livingroom.flac"]
                 (@None (outcome unit))) = None
  /\ status (wfile (mkHandled [send_error 404 "File not found: /livingroom.flac"]
                      [LogRequestedURL "/livingroom.flac"; LogError404 "/livingroom.flac"]
                      (@None (outcome unit)))) = Some 404%Z.
Proof.
  apply (do_GET_without_stream_changes_nothing example_env example_server
           "/livingroom.flac" 4).
  - vm_compute. reflexivity.
  - vm_compute. discriminate.
Defined.

(** ** Paths the pattern does not match *)

Lemma in_rmatch_cat icase r1 r2 (s : string) (x : rmatch_result) :
  In x (rmatch icase (Cat r1 r2) s) ->
  exists m1 m2, In m1 (rmatch icase r1 s) /\ In m2 (rmatch icase r2 (snd m1)).
Proof.
  intros H. cbn [rmatch] in H. apply in_flat_map in H as [m1 [H1 H2]].
  apply in_map_iff in H2 as [m2 [_ H2]]. eauto.
Qed.

Lemma path_match_needs_dot (s : string) (x : rmatch_result) :
  In x (rmatch false path_re s) -> has_char "."%char s = true.
Proof.
  unfold path_re. intros H.
  apply in_rmatch_atom in H as (c & s1 & y & -> & _ & Hy & _).
  apply in_rmatch_cat in Hy as ([[m caps] r5] & m2 & H1 & H2).
  apply rmatch_sound in H1 as ->. cbn [snd] in H2.
  apply in_rmatch_atom in H2 as (d & t & _ & -> & Hd & _).
  cbn [atom_ok] in Hd. apply Ascii.eqb_eq in Hd. subst d.
  cbn [has_char]. rewrite has_char_append. cbn [has_char].
  rewrite Ascii.eqb_refl. cbn [orb]. rewrite !orb_true_r. reflexivity.
Qed.

Lemma search_path_no_dot (s : string) :
  has_char "."%char s = false -> search false path_re s = None.
Proof.
  assert (forall t, has_char "."%char t = false -> match_here false path_re t = None)
    as Hhere.
  { intros t Ht. unfold match_here.
    destruct (rmatch false path_re t) as [|x l] eqn:E; [reflexivity|].
    rewrite (path_match_needs_dot t x) in Ht; [discriminate|]. rewrite E. left. reflexivity. }
  induction s as [|c s IH]; intros H.
  - cbn [search]. rewrite (Hhere _ H). reflexivity.
  - cbn [search]. rewrite (Hhere _ H). apply IH.
    simpl in H. apply orb_false_iff in H as [_ H]. exact H.
Qed.

(** X26.  A request path without a dot is answered 404, by HEAD and by
    GET, whatever devices and encoders the server has, and a GET for it
    leaves the server as it was. *)
Theorem path_without_dot_gets_404
    (method : http_method) (env : Env) (server : StreamServer) (path : string)
    (request : sock) (ss : ServerState) :
  has_char "."%char path = false ->
  response method env server path request ss
  = Some [send_error 404 (String.append "File not found: " path)]
  /\ do_GET env server path request ss
     = Some (mkHandled [send_error 404 (String.append "File not found: " path)]
               [LogRequestedURL path; LogError404 path] None, ss).
Proof.
  intros Hdot.
  assert (handle_headers server path
          = Some (mkHandled [send_error 404 (String.append "File not found: " path)]
                    [LogRequestedURL path; LogError404 path] (None, None))) as Hh.
  { unfold handle_headers. rewrite chop_request_path_spec, findall_unfold.
    rewrite (search_path_no_dot path Hdot). reflexivity. }
  assert (do_GET env server path request ss
          = Some (mkHandled [send_error 404 (String.append "File not found: " path)]
                    [LogRequestedURL path; LogError404 path] None, ss)) as Hg.
  { unfold do_GET. rewrite Hh. reflexivity. }
  split; [|exact Hg].
  destruct method; unfold response.
  - unfold do_HEAD. rewrite Hh. reflexivity.
  - rewrite Hg. reflexivity.
Qed.

Lemma path_without_dot_gets_404_witness :
  response GET example_env example_server "/livingroom" 4
    (mkServerState new_StreamManager empty_world)
  = Some [send_error 404 (String.append "File not found: " "/livingroom")].
Proof.
  apply (path_without_dot_gets_404 GET example_env example_server "/livingroom" 4).
  vm_compute. reflexivity.
Defined.

(** ** The read loop of a tick *)

(** X27.  In a tick that reads a chunk and whose [select] succeeds,
    every socket of the table that is selected readable and whose peer
    is found gone (its read raises an error or returns no bytes) is
    unregistered: out of the table and closed when the tick returns,
    whether or not the chunk was written to it just before. *)
Theorem hung_up_readers_are_dropped
    (fuel : nat) (env : Env) (st st1 : State) (data : bytes) :
  lock (stream st) = false ->
  tick_head env (set_stream (with_lock true) st) = Return data st1 ->
  existsb (sock_bad env) (keys (sockets (stream st))) = false ->
  send_progress env ->
  length data <= fuel ->
  exists st',
    communicate fuel env st = Return tt st'
    /\ (forall s,
          selected readable env st s -> hangs_up env s = true ->
          sockets (stream st') !! s = None /\ s ∈ closed (world st')).
Proof.
  intros Hlock Hhead Hsel Hprog Hfuel.
  assert (forall s, send_run fuel env s data 0 <> None) as Hrun.
  { intros s. apply send_run_enough_fuel; [exact Hprog|lia]. }
  destruct (tick_run fuel env st st1 data Hlock Hhead Hsel)
    as (st2 & st3 & _ & Hc & Hv2 & Hv3).
  { intros s _. apply Hrun. }
  exists (set_stream (with_lock false) st3). split; [exact Hc|].
  - intros s Hs Hup. specialize (Hv3 s). rewrite decide_True in Hv3 by exact Hs.
    rewrite <- (view_set_lock false) in Hv3.
    destruct (sockets (stream st2) !! s) as [d|] eqn:E2.
    + unfold polled in Hv3. rewrite E2, Hup in Hv3.
      apply view_inv in Hv3 as (H1 & _ & H3). split; [exact H1|]. apply H3. reflexivity.
    + rewrite (polled_gone _ _ _ E2) in Hv3.
      specialize (Hv2 s). destruct Hs as [[d Hd] _].
      destruct (decide (selected writable env st s)) as [Hw|Hw].
      * unfold written in Hv2.
        destruct (send_run fuel env s data 0) as [[[|] chunks]|] eqn:E.
        -- apply view_inv in Hv2 as (H1 & _ & _). congruence.
        -- rewrite Hv2 in Hv3. apply view_inv in Hv3 as (H1 & _ & H3).
           split; [exact H1|]. apply H3. reflexivity.
        -- exfalso. exact (Hrun s E).
      * apply view_inv in Hv2 as (H1 & _ & _). congruence.
Qed.

Lemma hung_up_readers_are_dropped_witness :
  exists st',
    communicate 8 example_env four_clients = Return tt st'
    /\ sockets (stream st') !! 7 = None
    /\ 7 ∈ closed (world st').
Proof.
  destruct (hung_up_readers_are_dropped 8 example_env four_clients
              four_clients_chunk_read (repeat Byte.x61 4))
    as (st' & Hc & Hr).
  - vm_compute. reflexivity.
  - vm_compute. reflexivity.
  - vm_compute. reflexivity.
  - exact example_env_progress.
  - simpl. lia.
  - exists st'. split; [exact Hc|]. apply (Hr 7).
    + split; [vm_compute; eauto|reflexivity].
    + vm_compute. reflexivity.
Defined.
